(** * TongueTwisterX: the similarity scorer and the attempt session

    A shallow embedding of [src/TongueTwisterX.js], which holds two
    listings of the widget, and of the unnamed third listing, with the
    properties of the scoring core and of the attempt counter.

    - JavaScript strings are sequences of UTF-16 code units: [list N].
    - [levenshtein] is the dynamic program of the source, with its table,
      its loops and its indexed reads and writes; a read or a write outside
      the table is a failure ([None]).
    - Fractions are exact rationals ([Q]); a division by zero is a failure
      ([None]) rather than a NaN or an infinity. The formulas are repeated
      in binary64 to check the values on which exact equalities depend.
    - The built-ins of the engine ([toLowerCase], [normalize], the regular
      expression classes) are modelled on a stated repertoire; the
      listings are also given with these built-ins as parameters, for the
      properties that hold whatever the engine computes.
    - The component is a transition system: its React state, the handlers
      as steps, the render conditions as guards, and speech recognition as
      the environment. *)

From Stdlib Require Import ZArith NArith QArith Qminmax Qround Lia Lqa Ascii String
  SpecFloat.
From stdpp Require Import base option list gmap.

Local Open Scope nat_scope.

(** ** JavaScript strings *)

Abbreviation codeunit := N (only parsing).
Abbreviation jsstring := (list N) (only parsing).

(** [for (let i = lo; i <= hi; i++) body], threading the state through an
    option monad: [count] iterations starting at [lo]. *)
Fixpoint for_loop {S : Type} (lo count : nat) (body : nat -> S -> option S)
    (s : S) : option S :=
  match count with
  | O => Some s
  | Datatypes.S c => s' ← body lo s; for_loop (Datatypes.S lo) c body s'
  end.

Definition for_upto {S : Type} (lo hi : nat) (body : nat -> S -> option S)
    (s : S) : option S :=
  for_loop lo (Datatypes.S hi - lo) body s.

(** ** The edit-distance table *)

Abbreviation table := (list (list nat)) (only parsing).

(** [dp[i][j]] as an expression. *)
Definition cell (dp : table) (i j : nat) : option nat :=
  row ← dp !! i; row !! j.

(** [dp[i][j] = v]. The row and the column must exist: the source never
    writes elsewhere, and the model reports such a write as a failure
    instead of growing the array. *)
Definition store (dp : table) (i j v : nat) : option table :=
  row ← dp !! i;
  if decide (j < length row) then Some (<[i := <[j := v]> row]> dp) else None.

(** [a[i - 1] === b[j - 1] ? 0 : 1]; an index outside a string reads
    [undefined], which is [None] here and compares equal to itself. *)
Definition cost (a b : jsstring) (i j : nat) : nat :=
  if decide (a !! (i - 1) = b !! (j - 1)) then 0 else 1.

Definition levenshtein (a b : jsstring) : option nat :=
  let m := length a in
  let n := length b in
  let dp := replicate (m + 1) (replicate (n + 1) 0) in
  dp ← for_upto 0 m (fun i dp => store dp i 0 i) dp;
  dp ← for_upto 0 n (fun j dp => store dp 0 j j) dp;
  dp ← for_upto 1 m (fun i dp =>
          for_upto 1 n (fun j dp =>
            up ← cell dp (i - 1) j;
            left ← cell dp i (j - 1);
            diag ← cell dp (i - 1) (j - 1);
            store dp i j
              (Nat.min (Nat.min (up + 1) (left + 1)) (diag + cost a b i j)))
            dp) dp;
  cell dp m n.

(** An ASCII literal as a JavaScript string. *)
Definition js (s : String.string) : jsstring :=
  map N_of_ascii (String.list_ascii_of_string s).

(** ** Host built-ins

    [toLowerCase], [normalize], [trim] and the regular-expression classes
    belong to the JavaScript engine and its Unicode tables, not to the
    repository. They are modelled on the repertoire the properties below
    exercise: Basic Latin, Latin-1 Supplement, the combining diacritical
    marks U+0300..U+036F, the white space of ECMAScript, and U+2122.
    Outside this repertoire a code unit is treated as caseless, without
    decomposition, and as neither letter nor number. On Basic Latin the
    model is exact. *)

Local Open Scope N_scope.

Definition SPACE : codeunit := 0x20.

(** The class [\s], which is also what [trim] strips: WhiteSpace and
    LineTerminator of ECMAScript. *)
Definition isWhiteSpace (c : codeunit) : bool :=
  ((0x09 <=? c) && (c <=? 0x0D)) || (c =? 0x20) || (c =? 0xA0)
  || (c =? 0x1680) || ((0x2000 <=? c) && (c <=? 0x200A))
  || (c =? 0x2028) || (c =? 0x2029) || (c =? 0x202F) || (c =? 0x205F)
  || (c =? 0x3000) || (c =? 0xFEFF).

(** [\p{L}] on the modelled repertoire (and U+03BC, which the
    compatibility decomposition of U+00B5 produces). *)
Definition isLetter (c : codeunit) : bool :=
  ((0x41 <=? c) && (c <=? 0x5A)) || ((0x61 <=? c) && (c <=? 0x7A))
  || (c =? 0xAA) || (c =? 0xB5) || (c =? 0xBA)
  || ((0xC0 <=? c) && (c <=? 0xD6)) || ((0xD8 <=? c) && (c <=? 0xF6))
  || ((0xF8 <=? c) && (c <=? 0xFF)) || (c =? 0x3BC).

(** [\p{N}] on the modelled repertoire. *)
Definition isNumber (c : codeunit) : bool :=
  ((0x30 <=? c) && (c <=? 0x39))
  || (c =? 0xB2) || (c =? 0xB3) || (c =? 0xB9)
  || ((0xBC <=? c) && (c <=? 0xBE)).

(** The class U+0300..U+036F of the second listing. *)
Definition isCombiningMark (c : codeunit) : bool :=
  (0x300 <=? c) && (c <=? 0x36F).

(** The upper-case letters of the repertoire: A to Z, and U+00C0 to U+00DE
    without the multiplication sign; each is 0x20 below its lower case. *)
Definition isUpperCase (c : codeunit) : bool :=
  ((0x41 <=? c) && (c <=? 0x5A))
  || ((0xC0 <=? c) && (c <=? 0xDE) && negb (c =? 0xD7)).

Definition lowerUnit (c : codeunit) : codeunit :=
  if isUpperCase c then c + 0x20 else c.

Definition toLowerCase (s : jsstring) : jsstring := map lowerUnit s.

(** Canonical decompositions of the Latin-1 letters: composite, base,
    combining mark (UnicodeData.txt, field 5). *)
Definition canonicalPairs : list (codeunit * (codeunit * codeunit)) :=
  [ (0xC0, (0x41, 0x300)); (0xC1, (0x41, 0x301)); (0xC2, (0x41, 0x302));
    (0xC3, (0x41, 0x303)); (0xC4, (0x41, 0x308)); (0xC5, (0x41, 0x30A));
    (0xC7, (0x43, 0x327));
    (0xC8, (0x45, 0x300)); (0xC9, (0x45, 0x301)); (0xCA, (0x45, 0x302));
    (0xCB, (0x45, 0x308));
    (0xCC, (0x49, 0x300)); (0xCD, (0x49, 0x301)); (0xCE, (0x49, 0x302));
    (0xCF, (0x49, 0x308));
    (0xD1, (0x4E, 0x303));
    (0xD2, (0x4F, 0x300)); (0xD3, (0x4F, 0x301)); (0xD4, (0x4F, 0x302));
    (0xD5, (0x4F, 0x303)); (0xD6, (0x4F, 0x308));
    (0xD9, (0x55, 0x300)); (0xDA, (0x55, 0x301)); (0xDB, (0x55, 0x302));
    (0xDC, (0x55, 0x308)); (0xDD, (0x59, 0x301));
    (0xE0, (0x61, 0x300)); (0xE1, (0x61, 0x301)); (0xE2, (0x61, 0x302));
    (0xE3, (0x61, 0x303)); (0xE4, (0x61, 0x308)); (0xE5, (0x61, 0x30A));
    (0xE7, (0x63, 0x327));
    (0xE8, (0x65, 0x300)); (0xE9, (0x65, 0x301)); (0xEA, (0x65, 0x302));
    (0xEB, (0x65, 0x308));
    (0xEC, (0x69, 0x300)); (0xED, (0x69, 0x301)); (0xEE, (0x69, 0x302));
    (0xEF, (0x69, 0x308));
    (0xF1, (0x6E, 0x303));
    (0xF2, (0x6F, 0x300)); (0xF3, (0x6F, 0x301)); (0xF4, (0x6F, 0x302));
    (0xF5, (0x6F, 0x303)); (0xF6, (0x6F, 0x308));
    (0xF9, (0x75, 0x300)); (0xFA, (0x75, 0x301)); (0xFB, (0x75, 0x302));
    (0xFC, (0x75, 0x308)); (0xFD, (0x79, 0x301)); (0xFF, (0x79, 0x308)) ].

(** Compatibility decompositions of the repertoire. *)
Definition compatibilityMappings : list (codeunit * jsstring) :=
  [ (0xA0, [0x20]); (0xA8, [0x20; 0x308]); (0xAA, [0x61]);
    (0xAF, [0x20; 0x304]); (0xB2, [0x32]); (0xB3, [0x33]);
    (0xB4, [0x20; 0x301]); (0xB5, [0x3BC]); (0xB8, [0x20; 0x327]);
    (0xB9, [0x31]); (0xBA, [0x6F]);
    (0xBC, [0x31; 0x2044; 0x34]); (0xBD, [0x31; 0x2044; 0x32]);
    (0xBE, [0x33; 0x2044; 0x34]);
    (0x2122, [0x54; 0x4D]) ].

Fixpoint table_find {V : Type} (k : codeunit) (l : list (codeunit * V)) : option V :=
  match l with
  | [] => None
  | (k', v) :: l' => if k =? k' then Some v else table_find k l'
  end.

Definition canonicalDecomposition (c : codeunit) : jsstring :=
  match table_find c canonicalPairs with
  | Some (b, m) => [b; m]
  | None => [c]
  end.

Definition compatibilityDecomposition (c : codeunit) : jsstring :=
  match table_find c compatibilityMappings with
  | Some d => d
  | None => canonicalDecomposition c
  end.

(** The primary composite of a base and a mark, if the table has one. *)
Fixpoint composite (b m : codeunit)
    (l : list (codeunit * (codeunit * codeunit))) : option codeunit :=
  match l with
  | [] => None
  | (c, (b', m')) :: l' =>
      if (b =? b') && (m =? m') then Some c else composite b m l'
  end.

(** Canonical composition of a base with the mark that follows it. The
    repertoire has no composite that takes a second mark, and the
    reordering of several marks on one base is not modelled. *)
Fixpoint recompose (s : jsstring) : jsstring :=
  match s with
  | [] => []
  | b :: rest =>
      match rest with
      | m :: rest' =>
          match composite b m canonicalPairs with
          | Some c => c :: recompose rest'
          | None => b :: recompose rest
          end
      | [] => [b]
      end
  end.

(** [s.normalize("NFC")]: canonical decomposition, then composition. *)
Definition normalizeNFC (s : jsstring) : jsstring :=
  recompose (flat_map canonicalDecomposition s).

(** [s.normalize("NFKD")]: compatibility decomposition. *)
Definition normalizeNFKD (s : jsstring) : jsstring :=
  flat_map compatibilityDecomposition s.

(** [s.replace] with a global character class and the empty string: every
    code unit of the class is removed. *)
Definition removeAll (class : codeunit -> bool) (s : jsstring) : jsstring :=
  List.filter (fun c => negb (class c)) s.

(** [s.replace(/\s+/g, " ")]: every maximal run of white space becomes one
    U+0020. [inRun] tells that the previous code unit was white space. *)
Fixpoint collapseFrom (inRun : bool) (s : jsstring) : jsstring :=
  match s with
  | [] => []
  | c :: s' =>
      if isWhiteSpace c
      then (if inRun then collapseFrom true s' else SPACE :: collapseFrom true s')
      else c :: collapseFrom false s'
  end.

Definition collapseWhiteSpace (s : jsstring) : jsstring := collapseFrom false s.

Fixpoint trimStart (s : jsstring) : jsstring :=
  match s with
  | [] => []
  | c :: s' => if isWhiteSpace c then trimStart s' else s
  end.

Fixpoint trimEnd (s : jsstring) : jsstring :=
  match s with
  | [] => []
  | c :: s' =>
      match trimEnd s' with
      | [] => if isWhiteSpace c then [] else [c]
      | t => c :: t
      end
  end.

(** [s.trim()]. *)
Definition trim (s : jsstring) : jsstring := trimEnd (trimStart s).

(** [s.split(" ")]: the pieces between single U+0020, empty pieces
    included; never an empty array. *)
Fixpoint split_space (s : jsstring) : list jsstring :=
  match s with
  | [] => [[]]
  | c :: s' =>
      if c =? SPACE then [] :: split_space s'
      else match split_space s' with
           | w :: ws => (c :: w) :: ws
           | [] => [[c]]
           end
  end.

Local Close Scope N_scope.

(** ** The scorer *)

Record Similarity := mkSimilarity { score : Q; charSim : Q; wordSim : Q }.

(** [x / y] on non-negative integers; a zero divisor yields no fraction. *)
Definition fraction (x y : nat) : Q :=
  (inject_Z (Z.of_nat x) / inject_Z (Z.of_nat y))%Q.

Definition quotient (x y : nat) : option Q :=
  if decide (y = 0) then None else Some (fraction x y).

(** [!s] for a string. *)
Definition falsy (s : jsstring) : bool :=
  match s with [] => true | _ => false end.

(** [for (const w of ba) if (ta.has(w)) hit++]. *)
Definition countHits (ta : gset jsstring) (ba : list jsstring) : nat :=
  fold_left (fun hit w => if decide (w ∈ ta) then hit + 1 else hit) ba 0.

(** [Math.max(0, Math.min(1, 0.7 * charSim + 0.3 * wordSim))]. *)
Definition blend (c w : Q) : Q :=
  Qmax 0 (Qmin 1 ((7 # 10) * c + (3 # 10) * w))%Q.

(** ** Binary64 evaluation of the arithmetic

    JavaScript numbers are IEEE 754 binary64 values, and the scorer above
    computes with exact rationals instead. The three formulas are repeated
    here over the binary64 operations of the Standard Library, to evaluate
    them on the values that the exact equalities below depend on. *)

Definition binary64 (n : nat) : spec_float :=
  binary_normalize 53 1024 (Z.of_nat n) 0 false.

(** [Math.min] and [Math.max] on two numbers. *)
Definition min64 (x y : spec_float) : spec_float := if SFltb y x then y else x.
Definition max64 (x y : spec_float) : spec_float := if SFltb x y then y else x.

(** [1 - dist / maxLen]. *)
Definition charSim64 (dist maxLen : spec_float) : spec_float :=
  SFsub 53 1024 (binary64 1) (SFdiv 53 1024 dist maxLen).

(** [hit / ba.length]. *)
Definition wordSim64 (hit words : spec_float) : spec_float :=
  SFdiv 53 1024 hit words.

(** [Math.max(0, Math.min(1, 0.7 * charSim + 0.3 * wordSim))]; the
    literals are the correctly rounded quotients 7/10 and 3/10. *)
Definition blend64 (c w : spec_float) : spec_float :=
  max64 (binary64 0)
    (min64 (binary64 1)
       (SFadd 53 1024
          (SFmul 53 1024 (SFdiv 53 1024 (binary64 7) (binary64 10)) c)
          (SFmul 53 1024 (SFdiv 53 1024 (binary64 3) (binary64 10)) w))).

(** The rational that a finite binary64 value denotes. *)
Definition value64 (x : spec_float) : option Q :=
  match x with
  | S754_zero _ => Some 0%Q
  | S754_finite s m e =>
      let v := (inject_Z (Z.pos m) * Qpower 2 e)%Q in
      Some (if s then (- v)%Q else v)
  | _ => None
  end.

(** ** The widget: shared data *)

Local Open Scope string_scope.
Local Open Scope nat_scope.

(** An entry of the catalog. *)
Record Twister := mkTwister {
  tw_id : string;
  tw_language : string;
  tw_locale : string;
  tw_flag : jsstring;
  tw_text : jsstring;
  tw_audio : option string }.

(** An entry of the attempt history: the object that [onresult] appends
    to [scores]. *)
Record Entry := mkEntry {
  entry_attempt : nat;
  entry_transcript : jsstring;
  entry_score : Z;
  entry_charSim : Z;
  entry_wordSim : Z }.

(** [Math.round]: the nearest integer, halves upwards. *)
Definition Math_round (q : Q) : Z := Qfloor (q + (1 # 2)).

(** The object that [onresult] builds. The percentages are rounded from
    the exact fractions; the source rounds the binary64 products, which
    can differ by one where a product is a half away from an integer. The
    properties below rely on the number, the transcript and the range of
    the percentages only. *)
Definition entryOf (attempt : nat) (transcript : jsstring) (r : Similarity) : Entry :=
  mkEntry (attempt + 1) transcript
    (Math_round (score r * 100)) (Math_round (charSim r * 100))
    (Math_round (wordSim r * 100)).

(** [Math.max(...xs)]; no value stands for the negative infinity of an
    empty argument list. *)
Definition Math_max (xs : list Z) : option Z :=
  match xs with
  | [] => None
  | x :: xs' => Some (fold_left Z.max xs' x)
  end.

(** The first listing of [src/TongueTwisterX.js] (ordered cycle through
    the catalog). *)
Module OrderedCycle.

(** The class of the first [replace]: full stop, comma, exclamation and
    question marks, semicolon, colon, parentheses, the ASCII double and
    single quotes, U+201C, U+201D, U+2019, hyphen-minus, U+2014 and
    U+2026. *)
Definition isPunctuation (c : codeunit) : bool :=
  bool_decide (c ∈ [0x2E; 0x2C; 0x21; 0x3F; 0x3B; 0x3A; 0x28; 0x29; 0x22;
                    0x201C; 0x201D; 0x27; 0x2019; 0x2D; 0x2014; 0x2026]%N).

Definition normalizeText (s : jsstring) : jsstring :=
  if falsy s then []
  else trim (collapseWhiteSpace
               (removeAll isPunctuation (normalizeNFC (toLowerCase s)))).

Definition similarityScore (target said : jsstring) : option Similarity :=
  let A := normalizeText target in
  let B := normalizeText said in
  if falsy A || falsy B then Some (mkSimilarity 0 0 0)
  else
    dist ← levenshtein A B;
    let maxLen := Nat.max (length A) (length B) in
    charSim ← (if decide (maxLen = 0) then Some 0%Q
               else q ← quotient dist maxLen; Some (1 - q)%Q);
    let ta : gset jsstring := list_to_set (split_space A) in
    let ba := split_space B in
    let hit := countHits ta ba in
    wordSim ← (if decide (length ba = 0) then Some 0%Q
               else quotient hit (length ba));
    Some (mkSimilarity (blend charSim wordSim) charSim wordSim).


(** *** The component

    The state of the component is its React state. Speech recognition is
    the environment: [supported] tells whether the browser has it, and
    [listening] holds the session that [start()] opened and that has not
    yet delivered its result or its error nor been aborted, with the
    values that its handlers closed over. [continuous] is false, so a
    session delivers one result at most, and the browser runs one
    session at a time.

    The clean-up of the effect aborts the recognizer whenever the
    twister, [attempt] or [recording] change. An abort is followed by
    the callbacks of the aborted session; the model lets such late
    callbacks ([OnError], [OnEnd] on a session that is no longer
    current, and the timer) arrive at any time, with any value closed
    over, and lets the current session end with an error at any time.
    So the model allows every run of the listing, and more. *)

Definition SAMPLE_TWISTERS : list Twister :=
  [
    mkTwister "es-001" "Spanish" "es-ES"
      [0xD83C; 0xDDEA; 0xD83C; 0xDDF8]%N
      (js "Tres tristes tigres tragaban trigo en un trigal.")
      None;
    mkTwister "en-001" "English" "en-US"
      [0xD83C; 0xDDFA; 0xD83C; 0xDDF8]%N
      (js "She sells seashells by the seashore.")
      None;
    mkTwister "fr-001" "French" "fr-FR"
      [0xD83C; 0xDDEB; 0xD83C; 0xDDF7]%N
      (js "Un chasseur sachant chasser sait chasser sans son chien.")
      None;
    mkTwister "hi-001" "Hindi" "hi-IN"
      [0xD83C; 0xDDEE; 0xD83C; 0xDDF3]%N
      ([0x915; 0x91A; 0x94D; 0x91A; 0x93E; 0x20; 0x92A; 0x93E; 0x92A;
           0x921; 0x93C; 0x93E; 0x20; 0x92A; 0x915; 0x93E; 0x20; 0x92A;
           0x93E; 0x92A; 0x921; 0x93C; 0x93E; 0x964]%N)
      None;
    mkTwister "zh-001" "Mandarin" "zh-CN"
      [0xD83C; 0xDDE8; 0xD83C; 0xDDF3]%N
      ([0x56DB; 0x662F; 0x56DB; 0xFF0C; 0x5341; 0x662F; 0x5341; 0xFF0C;
           0x5341; 0x56DB; 0x662F; 0x5341; 0x56DB; 0xFF0C; 0x56DB; 0x5341;
           0x662F; 0x56DB; 0x5341; 0x3002]%N)
      (Some "/audio/zh-001.mp3");
    mkTwister "it-001" "Italian" "it-IT"
      [0xD83C; 0xDDEE; 0xD83C; 0xDDF9]%N
      ([0x54; 0x72; 0x65; 0x6E; 0x74; 0x61; 0x74; 0x72; 0xE9; 0x20; 0x74;
           0x72; 0x65; 0x6E; 0x74; 0x69; 0x6E; 0x69; 0x20; 0x65; 0x6E; 0x74;
           0x72; 0x61; 0x72; 0x6F; 0x6E; 0x6F; 0x20; 0x61; 0x20; 0x54; 0x72;
           0x65; 0x6E; 0x74; 0x6F; 0x2C; 0x20; 0x74; 0x75; 0x74; 0x74; 0x69;
           0x20; 0x65; 0x20; 0x74; 0x72; 0x65; 0x6E; 0x74; 0x61; 0x74; 0x72;
           0xE9; 0x20; 0x74; 0x72; 0x6F; 0x74; 0x74; 0x65; 0x72; 0x65; 0x6C;
           0x6C; 0x61; 0x6E; 0x64; 0x6F; 0x2E]%N)
      None;
    mkTwister "nl-001" "Dutch" "nl-NL"
      [0xD83C; 0xDDF3; 0xD83C; 0xDDF1]%N
      (js "De kat krabt de krullen van de trap.")
      None;
    mkTwister "de-001" "German" "de-DE"
      [0xD83C; 0xDDE9; 0xD83C; 0xDDEA]%N
      (js "Fischers Fritz fischt frische Fische, frische Fische fischt Fischers Fritz.")
      None;
    mkTwister "pt-001" "Portuguese" "pt-PT"
      [0xD83C; 0xDDF5; 0xD83C; 0xDDF9]%N
      (js "O rato roeu a roupa do rei de Roma.")
      None;
    mkTwister "fi-001" "Finnish" "fi-FI"
      [0xD83C; 0xDDEB; 0xD83C; 0xDDEE]%N
      ([0x56; 0x65; 0x73; 0x69; 0x68; 0x69; 0x69; 0x73; 0x69; 0x20; 0x73;
           0x69; 0x68; 0x69; 0x73; 0x69; 0x20; 0x68; 0x69; 0x73; 0x73; 0x69;
           0x73; 0x73; 0xE4; 0x2E]%N)
      None;
    mkTwister "pl-001" "Polish" "pl-PL"
      [0xD83C; 0xDDF5; 0xD83C; 0xDDF1]%N
      ([0x43; 0x68; 0x72; 0x7A; 0x105; 0x73; 0x7A; 0x63; 0x7A; 0x20;
           0x62; 0x72; 0x7A; 0x6D; 0x69; 0x20; 0x77; 0x20; 0x74; 0x72; 0x7A;
           0x63; 0x69; 0x6E; 0x69; 0x65; 0x20; 0x77; 0x20; 0x53; 0x7A; 0x63;
           0x7A; 0x65; 0x62; 0x72; 0x7A; 0x65; 0x73; 0x7A; 0x79; 0x6E; 0x69;
           0x65; 0x2E]%N)
      None ].

Definition maxAttempts : nat := 6.

Record Closure := mkClosure { seen_twister : nat; seen_attempt : nat }.

Record State := mkState {
  twisterIndex : nat;
  attempt : nat;
  scores : list Entry;
  recording : bool;
  statusMessage : string;
  permissionError : string;
  supported : bool;
  listening : option Closure }.

Definition setTwisterIndex (v : nat) (s : State) : State :=
  mkState v (attempt s) (scores s) (recording s) (statusMessage s)
    (permissionError s) (supported s) (listening s).
Definition setAttempt (v : nat) (s : State) : State :=
  mkState (twisterIndex s) v (scores s) (recording s) (statusMessage s)
    (permissionError s) (supported s) (listening s).
Definition setScores (v : list Entry) (s : State) : State :=
  mkState (twisterIndex s) (attempt s) v (recording s) (statusMessage s)
    (permissionError s) (supported s) (listening s).
Definition setRecording (v : bool) (s : State) : State :=
  mkState (twisterIndex s) (attempt s) (scores s) v (statusMessage s)
    (permissionError s) (supported s) (listening s).
Definition setStatusMessage (v : string) (s : State) : State :=
  mkState (twisterIndex s) (attempt s) (scores s) (recording s) v
    (permissionError s) (supported s) (listening s).
Definition setPermissionError (v : string) (s : State) : State :=
  mkState (twisterIndex s) (attempt s) (scores s) (recording s)
    (statusMessage s) v (supported s) (listening s).
Definition setListening (v : option Closure) (s : State) : State :=
  mkState (twisterIndex s) (attempt s) (scores s) (recording s)
    (statusMessage s) (permissionError s) (supported s) v.

(** The state after the first render and its effect. *)
Definition initial (supported : bool) : State :=
  mkState 0 0 [] false ""
    (if supported then "" else "SpeechRecognition not supported.")
    supported None.

(** [recognitionRef.current.abort()]. *)
Definition abort (s : State) : State := setListening None s.

(** [startOk] tells whether [start()] returned or threw. *)
Definition startRecording (startOk : bool) (s : State) : State :=
  if negb (supported s)
  then setPermissionError "SpeechRecognition not available." s
  else if startOk
  then setListening (Some (mkClosure (twisterIndex s) (attempt s)))
         (setStatusMessage "Listening..."
            (setPermissionError "" (setRecording true s)))
  else setStatusMessage ""
         (setRecording false (setPermissionError "Mic access failed." s)).

Definition toggleRecording (startOk : bool) (s : State) : State :=
  if recording s
  then setStatusMessage "Stopped listening." (setRecording false (abort s))
  else startRecording startOk s.

Definition newTwister (s : State) : State :=
  setStatusMessage ""
    (setPermissionError ""
       (setScores []
          (setAttempt 0
             (setTwisterIndex
                ((twisterIndex s + 1) mod length SAMPLE_TWISTERS) s)))).

Definition refreshTwister (s : State) : State :=
  setPermissionError ""
    (setScores []
       (setAttempt 0
          (setStatusMessage "" (setRecording false (abort s))))).

(** [recog.onresult], with the twister and the attempt number of the
    render that created the recognizer. A failure of the scorer or a
    missing twister would throw before any state is set. *)
Definition onresult (seen : Closure) (transcript : jsstring) (s : State) : State :=
  match SAMPLE_TWISTERS !! seen_twister seen with
  | None => s
  | Some tw =>
      match similarityScore (tw_text tw) transcript with
      | None => s
      | Some r =>
          setStatusMessage ""
            (setRecording false
               (setAttempt (attempt s + 1)
                  (setScores
                     (scores s ++ [entryOf (seen_attempt seen) transcript r])
                     s)))
      end
  end.

Definition onerror (error : string) (s : State) : State :=
  setRecording false
    (if (error =? "not-allowed")%string || (error =? "service-not-allowed")%string
     then setPermissionError "Microphone permission denied." s
     else if (error =? "no-speech")%string
     then setStatusMessage "No speech detected." s
     else if (error =? "network")%string
     then setStatusMessage "Network issue with recognition service." s
     else if negb (error =? "aborted")%string
     then setStatusMessage ("Speech recognition error: " ++ error)%string s
     else s).

(** [recog.onend]; [sawRecording] is the [recording] it closed over. *)
Definition onend (sawRecording : bool) (s : State) : State :=
  if sawRecording
  then setStatusMessage "Listening stopped." (setRecording false s)
  else s.

(** The callback of [setTimeout]. *)
Definition ontimeout (sawRecording : bool) (s : State) : State :=
  if sawRecording
  then setStatusMessage "Timed out. Please try again."
         (setRecording false (abort s))
  else s.

Inductive Event :=
| ClickWarmUp (startOk : bool)
| ClickAttempt (startOk : bool)
| ClickHearNative
| ClickNewTwister
| ClickRefresh
| OnResult (transcript : jsstring)
| OnError (error : string) (current : bool)
| OnEnd (sawRecording current : bool)
| OnTimeout (sawRecording : bool).

Definition isClick (e : Event) : bool :=
  match e with
  | ClickWarmUp _ | ClickAttempt _ | ClickHearNative | ClickNewTwister
  | ClickRefresh => true
  | _ => false
  end.

Definition idle (s : State) : bool :=
  match listening s with None => true | Some _ => false end.

(** The buttons that the render shows and enables, and the callbacks
    that the environment may deliver. [start()] can return only when no
    session is running. *)
Definition enabled (s : State) (e : Event) : bool :=
  let practising := (0 <? attempt s) && (attempt s <? maxAttempts) in
  match e with
  | ClickWarmUp startOk =>
      (attempt s =? 0) && negb (recording s) && (negb startOk || idle s)
  | ClickAttempt startOk =>
      practising && (recording s || negb startOk || idle s)
  | ClickHearNative => practising
  | ClickNewTwister => practising || (maxAttempts <=? attempt s)
  | ClickRefresh => practising
  | OnResult _ => negb (idle s)
  | OnError _ current => negb current || negb (idle s)
  | OnEnd _ current => negb current || negb (idle s)
  | OnTimeout _ => true
  end.

(** The effect after a render: without speech recognition it sets the
    message again whenever its dependencies changed. *)
Definition effect (before after : State) : State :=
  if negb (supported after)
     && negb ((twisterIndex before =? twisterIndex after)
              && (attempt before =? attempt after)
              && eqb (recording before) (recording after))
  then setPermissionError "SpeechRecognition not supported." after
  else after.

Definition handle (s : State) (e : Event) : State :=
  match e with
  | ClickWarmUp startOk => startRecording startOk s
  | ClickAttempt startOk => toggleRecording startOk s
  | ClickHearNative => s
  | ClickNewTwister => newTwister s
  | ClickRefresh => refreshTwister s
  | OnResult transcript =>
      match listening s with
      | Some seen => setListening None (onresult seen transcript s)
      | None => s
      end
  | OnError error current =>
      if current then setListening None (onerror error s) else onerror error s
  | OnEnd sawRecording current =>
      if current then setListening None (onend sawRecording s)
      else onend sawRecording s
  | OnTimeout sawRecording => ontimeout sawRecording s
  end.

Definition step (s : State) (e : Event) : State := effect s (handle s e).

Inductive reachable : State -> Prop :=
| reachable_initial supported : reachable (initial supported)
| reachable_step s e :
    reachable s -> enabled s e = true -> reachable (step s e).

(** A run of events, and whether each of them was enabled when it
    came. *)
Fixpoint run (s : State) (es : list Event) : State :=
  match es with
  | [] => s
  | e :: es' => run (step s e) es'
  end.

Fixpoint allowed (s : State) (es : list Event) : bool :=
  match es with
  | [] => true
  | e :: es' => enabled s e && allowed (step s e) es'
  end.

(** A warm-up and five further attempts, each with a transcript. *)
Definition sixAttempts : list Event :=
  [ ClickWarmUp true; OnResult (js "tres tristes tigres");
    ClickAttempt true; OnResult (js "tres tristes tigres tragaban");
    ClickAttempt true; OnResult (js "tres tristes tigres tragaban trigo");
    ClickAttempt true; OnResult (js "tres tigres en un trigal");
    ClickAttempt true; OnResult (js "tristes tigres tragaban trigo en un trigal");
    ClickAttempt true;
    OnResult (js "tres tristes tigres tragaban trigo en un trigal") ].

(** [Math.max(...scores.map(s => s.score))] of the final card. *)
Definition finalScore (s : State) : option Z :=
  Math_max (map entry_score (scores s)).

(** What every reachable state satisfies: the history has one entry per
    counted attempt, and a session is running only below the cap. *)
Definition invariant (s : State) : Prop :=
  attempt s <= maxAttempts /\
  length (scores s) = attempt s /\
  (idle s = false -> attempt s < maxAttempts).

End OrderedCycle.

(** The second listing of [src/TongueTwisterX.js] (random pick from the
    catalog). *)
Module RandomPick.

Definition normalizeText (s : jsstring) : jsstring :=
  trim (collapseWhiteSpace
          (removeAll (fun c => negb (isLetter c || isNumber c || isWhiteSpace c))
             (removeAll isCombiningMark (normalizeNFKD (toLowerCase s))))).

Definition similarityScore (target said : jsstring) : option Similarity :=
  let A := normalizeText target in
  let B := normalizeText said in
  if falsy A || falsy B then Some (mkSimilarity 0 0 0)
  else
    dist ← levenshtein A B;
    let maxLen := Nat.max (length A) (length B) in
    charSim ← (q ← quotient dist maxLen; Some (1 - q)%Q);
    let ta : gset jsstring := list_to_set (split_space A) in
    let ba := split_space B in
    let hit := countHits ta ba in
    wordSim ← (if decide (length ba = 0) then Some 0%Q
               else quotient hit (length ba));
    Some (mkSimilarity (blend charSim wordSim) charSim wordSim).

End RandomPick.

(** ** The two listings over any engine

    [toLowerCase], [normalize] and the Unicode properties [\p{L}] and
    [\p{N}] are the engine's: here they are parameters, and the two
    listings of [normalizeText] and [similarityScore] are what the source
    does with them, whatever they compute. The definitions of the modules
    [OrderedCycle] and [RandomPick] are these at the engine [repertoire],
    the tables above. *)

Record Engine := mkEngine {
  engine_toLowerCase : list N -> list N;
  engine_normalizeNFC : list N -> list N;
  engine_normalizeNFKD : list N -> list N;
  engine_isLetter : N -> bool;
  engine_isNumber : N -> bool }.

Definition isHighSurrogate (c : N) : bool := ((0xD800 <=? c) && (c <=? 0xDBFF))%N.
Definition isLowSurrogate (c : N) : bool := ((0xDC00 <=? c) && (c <=? 0xDFFF))%N.

(** The code point of a surrogate pair. *)
Definition codePointOfPair (high low : N) : N :=
  (0x10000 + (high - 0xD800) * 0x400 + (low - 0xDC00))%N.

(** [s.replace] with a global character class, the flag [u] and the empty
    string: the class is tested on code points, a high surrogate with the
    low surrogate after it being one code point and any other code unit a
    code point of its own. *)
Fixpoint removeAllPoints (class : N -> bool) (s : list N) : list N :=
  match s with
  | [] => []
  | c :: rest =>
      match rest with
      | low :: rest' =>
          if isHighSurrogate c && isLowSurrogate low
          then (if class (codePointOfPair c low)
                then removeAllPoints class rest'
                else c :: low :: removeAllPoints class rest')
          else (if class c
                then removeAllPoints class rest
                else c :: removeAllPoints class rest)
      | [] => if class c then [] else [c]
      end
  end.

Module AnyEngine.

Section Listings.

Variable engine : Engine.

(** The first listing (lines 25 to 28). *)
Definition normalizeTextNFC (s : list N) : list N :=
  if falsy s then []
  else trim (collapseWhiteSpace
               (removeAll OrderedCycle.isPunctuation
                  (engine_normalizeNFC engine (engine_toLowerCase engine s)))).

(** The second listing (lines 267 to 275); [s || ""] of a string is the
    string. *)
Definition normalizeTextNFKD (s : list N) : list N :=
  trim (collapseWhiteSpace
          (removeAllPoints
             (fun p => negb (engine_isLetter engine p || engine_isNumber engine p
                             || isWhiteSpace p))
             (removeAll isCombiningMark
                (engine_normalizeNFKD engine (engine_toLowerCase engine s))))).

(** The first listing (lines 44 to 61). *)
Definition similarityScoreNFC (target said : list N) : option Similarity :=
  let A := normalizeTextNFC target in
  let B := normalizeTextNFC said in
  if falsy A || falsy B then Some (mkSimilarity 0 0 0)
  else
    dist ← levenshtein A B;
    let maxLen := Nat.max (length A) (length B) in
    charSim ← (if decide (maxLen = 0) then Some 0%Q
               else q ← quotient dist maxLen; Some (1 - q)%Q);
    let ta : gset (list N) := list_to_set (split_space A) in
    let ba := split_space B in
    let hit := countHits ta ba in
    wordSim ← (if decide (length ba = 0) then Some 0%Q
               else quotient hit (length ba));
    Some (mkSimilarity (blend charSim wordSim) charSim wordSim).

(** The second listing (lines 291 to 309). *)
Definition similarityScoreNFKD (target said : list N) : option Similarity :=
  let A := normalizeTextNFKD target in
  let B := normalizeTextNFKD said in
  if falsy A || falsy B then Some (mkSimilarity 0 0 0)
  else
    dist ← levenshtein A B;
    let maxLen := Nat.max (length A) (length B) in
    charSim ← (q ← quotient dist maxLen; Some (1 - q)%Q);
    let ta : gset (list N) := list_to_set (split_space A) in
    let ba := split_space B in
    let hit := countHits ta ba in
    wordSim ← (if decide (length ba = 0) then Some 0%Q
               else quotient hit (length ba));
    Some (mkSimilarity (blend charSim wordSim) charSim wordSim).

End Listings.

End AnyEngine.

(** The engine of the tables above. *)
Definition repertoire : Engine :=
  mkEngine toLowerCase normalizeNFC normalizeNFKD isLetter isNumber.

(** What the theorems on any engine ask of it: the empty string is its own
    lower case and its own NFC form. *)
Definition keeps_empty (engine : Engine) : Prop :=
  engine_toLowerCase engine [] = [] /\ engine_normalizeNFC engine [] = [].

(** The unnamed third listing (rotation through the catalog). It keeps the
    scorer of an earlier listing without repeating it: the scorer is a
    parameter here. *)
Module Rotation.

Definition SAMPLE_TWISTERS : list Twister :=
  [
    mkTwister "es-001" "Spanish" "es-ES"
      [0xD83C; 0xDDEA; 0xD83C; 0xDDF8]%N
      (js "Tres tristes tigres tragaban trigo en un trigal.")
      None;
    mkTwister "en-001" "English" "en-US"
      [0xD83C; 0xDDFA; 0xD83C; 0xDDF8]%N
      (js "She sells seashells by the seashore.")
      None;
    mkTwister "fr-001" "French" "fr-FR"
      [0xD83C; 0xDDEB; 0xD83C; 0xDDF7]%N
      (js "Un chasseur sachant chasser sait chasser sans son chien.")
      None;
    mkTwister "hi-001" "Hindi" "hi-IN"
      [0xD83C; 0xDDEE; 0xD83C; 0xDDF3]%N
      ([0x915; 0x91A; 0x94D; 0x91A; 0x93E; 0x20; 0x92A; 0x93E; 0x92A;
           0x921; 0x93C; 0x93E; 0x20; 0x92A; 0x915; 0x93E; 0x20; 0x92A;
           0x93E; 0x92A; 0x921; 0x93C; 0x93E; 0x964]%N)
      None;
    mkTwister "zh-001" "Mandarin" "zh-CN"
      [0xD83C; 0xDDE8; 0xD83C; 0xDDF3]%N
      ([0x56DB; 0x662F; 0x56DB; 0xFF0C; 0x5341; 0x662F; 0x5341; 0xFF0C;
           0x5341; 0x56DB; 0x662F; 0x5341; 0x56DB; 0xFF0C; 0x56DB; 0x5341;
           0x662F; 0x56DB; 0x5341; 0x3002]%N)
      (Some "/audio/zh-001.mp3");
    mkTwister "it-001" "Italian" "it-IT"
      [0xD83C; 0xDDEE; 0xD83C; 0xDDF9]%N
      ([0x54; 0x72; 0x65; 0x6E; 0x74; 0x61; 0x74; 0x72; 0xE9; 0x20; 0x74;
           0x72; 0x65; 0x6E; 0x74; 0x69; 0x6E; 0x69; 0x20; 0x65; 0x6E; 0x74;
           0x72; 0x61; 0x72; 0x6F; 0x6E; 0x6F; 0x20; 0x61; 0x20; 0x54; 0x72;
           0x65; 0x6E; 0x74; 0x6F; 0x2C; 0x20; 0x74; 0x75; 0x74; 0x74; 0x69;
           0x20; 0x65; 0x20; 0x74; 0x72; 0x65; 0x6E; 0x74; 0x61; 0x74; 0x72;
           0xE9; 0x20; 0x74; 0x72; 0x6F; 0x74; 0x74; 0x65; 0x72; 0x65; 0x6C;
           0x6C; 0x61; 0x6E; 0x64; 0x6F; 0x2E]%N)
      None;
    mkTwister "nl-001" "Dutch" "nl-NL"
      [0xD83C; 0xDDF3; 0xD83C; 0xDDF1]%N
      (js "De kat krabt de krullen van de trap.")
      None;
    mkTwister "de-001" "German" "de-DE"
      [0xD83C; 0xDDE9; 0xD83C; 0xDDEA]%N
      (js "Fischers Fritz fischt frische Fische, frische Fische fischt Fischers Fritz.")
      None;
    mkTwister "pt-001" "Portuguese" "pt-PT"
      [0xD83C; 0xDDF5; 0xD83C; 0xDDF9]%N
      (js "O rato roeu a roupa do rei de Roma.")
      None;
    mkTwister "fi-001" "Finnish" "fi-FI"
      [0xD83C; 0xDDEB; 0xD83C; 0xDDEE]%N
      ([0x56; 0x65; 0x73; 0x69; 0x68; 0x69; 0x69; 0x73; 0x69; 0x20; 0x73;
           0x69; 0x68; 0x69; 0x73; 0x69; 0x20; 0x68; 0x69; 0x73; 0x73; 0x69;
           0x73; 0x73; 0xE4; 0x2E]%N)
      None;
    mkTwister "pl-001" "Polish" "pl-PL"
      [0xD83C; 0xDDF5; 0xD83C; 0xDDF1]%N
      ([0x53; 0x74; 0xF3; 0x142; 0x20; 0x7A; 0x20; 0x70; 0x6F; 0x77;
           0x79; 0x142; 0x61; 0x6D; 0x79; 0x77; 0x61; 0x6E; 0x79; 0x6D;
           0x69; 0x20; 0x6E; 0x6F; 0x67; 0x61; 0x6D; 0x69; 0x2E]%N)
      None ].

Record Closure := mkClosure {
  seen_twister : option Twister;
  seen_attempt : nat }.

Record State := mkState {
  index : nat;
  currentTwister : option Twister;
  attempt : nat;
  scores : list Entry;
  recording : bool;
  permissionError : string;
  supported : bool;
  listening : option Closure }.

Definition setIndex (v : nat) (s : State) : State :=
  mkState v (currentTwister s) (attempt s) (scores s) (recording s)
    (permissionError s) (supported s) (listening s).
Definition setCurrentTwister (v : option Twister) (s : State) : State :=
  mkState (index s) v (attempt s) (scores s) (recording s)
    (permissionError s) (supported s) (listening s).
Definition setAttempt (v : nat) (s : State) : State :=
  mkState (index s) (currentTwister s) v (scores s) (recording s)
    (permissionError s) (supported s) (listening s).
Definition setScores (v : list Entry) (s : State) : State :=
  mkState (index s) (currentTwister s) (attempt s) v (recording s)
    (permissionError s) (supported s) (listening s).
Definition setRecording (v : bool) (s : State) : State :=
  mkState (index s) (currentTwister s) (attempt s) (scores s) v
    (permissionError s) (supported s) (listening s).
Definition setPermissionError (v : string) (s : State) : State :=
  mkState (index s) (currentTwister s) (attempt s) (scores s) (recording s)
    v (supported s) (listening s).
Definition setListening (v : option Closure) (s : State) : State :=
  mkState (index s) (currentTwister s) (attempt s) (scores s) (recording s)
    (permissionError s) (supported s) v.

Definition unsupportedMessage : string :=
  "SpeechRecognition not supported. Only scoring by text match available.".

Definition initial (supported : bool) : State :=
  mkState 0 (SAMPLE_TWISTERS !! 0) 0 [] false
    (if supported then "" else unsupportedMessage) supported None.

Inductive Event :=
| ClickWarmUp (startOk : bool)
| ClickAttempt (startOk : bool)
| ClickHearNative
| ClickNewTwister
| OnResult (transcript : jsstring)
| OnError (error : string).

Definition isClick (e : Event) : bool :=
  match e with
  | ClickWarmUp _ | ClickAttempt _ | ClickHearNative | ClickNewTwister => true
  | _ => false
  end.

Definition idle (s : State) : bool :=
  match listening s with None => true | Some _ => false end.

(** Both recording buttons carry [disabled={recording}]. *)
Definition enabled (s : State) (e : Event) : bool :=
  let practising := (0 <? attempt s) && (attempt s <? 6) in
  match e with
  | ClickWarmUp _ => (attempt s =? 0) && negb (recording s)
  | ClickAttempt _ => practising && negb (recording s)
  | ClickHearNative => practising
  | ClickNewTwister => practising || (6 <=? attempt s)
  | OnResult _ => negb (idle s)
  | OnError _ => negb (idle s)
  end.

Definition startRecording (startOk : bool) (s : State) : State :=
  if negb (supported s)
  then setPermissionError "SpeechRecognition not available in this browser." s
  else if startOk
  then setListening (Some (mkClosure (currentTwister s) (attempt s)))
         (setPermissionError "" (setRecording true s))
  else setRecording false
         (setPermissionError
            "Mic access failed. Ensure you're on HTTPS and allow microphone permissions."
            s).

Definition newTwister (s : State) : State :=
  let nextIndex := (index s + 1) mod length SAMPLE_TWISTERS in
  setPermissionError ""
    (setScores []
       (setAttempt 0
          (setCurrentTwister (SAMPLE_TWISTERS !! nextIndex)
             (setIndex nextIndex s)))).

Definition onerror (error : string) (s : State) : State :=
  setRecording false
    (if (error =? "not-allowed")%string || (error =? "service-not-allowed")%string
     then setPermissionError
            "Microphone permission denied. Please allow mic access in your browser settings."
            s
     else setPermissionError ("Speech recognition error: " ++ error)%string s).

Definition effect (before after : State) : State :=
  if negb (supported after)
     && negb ((index before =? index after)
              && (attempt before =? attempt after))
  then setPermissionError unsupportedMessage after
  else after.

Section Scorer.

Variable similarityScore : jsstring -> jsstring -> option Similarity.

Definition onresult (seen : Closure) (transcript : jsstring) (s : State) : State :=
  match seen_twister seen with
  | None => s
  | Some tw =>
      match similarityScore (tw_text tw) transcript with
      | None => s
      | Some r =>
          setRecording false
            (setAttempt (attempt s + 1)
               (setScores
                  (scores s ++ [entryOf (seen_attempt seen) transcript r])
                  s))
      end
  end.

Definition handle (s : State) (e : Event) : State :=
  match e with
  | ClickWarmUp startOk | ClickAttempt startOk => startRecording startOk s
  | ClickHearNative => s
  | ClickNewTwister => newTwister s
  | OnResult transcript =>
      match listening s with
      | Some seen => setListening None (onresult seen transcript s)
      | None => s
      end
  | OnError error => setListening None (onerror error s)
  end.

Definition step (s : State) (e : Event) : State := effect s (handle s e).

Inductive reachable : State -> Prop :=
| reachable_initial supported : reachable (initial supported)
| reachable_step s e :
    reachable s -> enabled s e = true -> reachable (step s e).

Fixpoint run (s : State) (es : list Event) : State :=
  match es with
  | [] => s
  | e :: es' => run (step s e) es'
  end.

Fixpoint allowed (s : State) (es : list Event) : bool :=
  match es with
  | [] => true
  | e :: es' => enabled s e && allowed (step s e) es'
  end.

End Scorer.

(** A warm-up and five further attempts, each with a transcript. *)
Definition sixAttempts : list Event :=
  [ ClickWarmUp true; OnResult (js "tres tristes tigres");
    ClickAttempt true; OnResult (js "tres tristes tigres tragaban");
    ClickAttempt true; OnResult (js "tres tristes tigres tragaban trigo");
    ClickAttempt true; OnResult (js "tres tigres en un trigal");
    ClickAttempt true; OnResult (js "tristes tigres tragaban trigo en un trigal");
    ClickAttempt true;
    OnResult (js "tres tristes tigres tragaban trigo en un trigal") ].

Definition finalScore (s : State) : option Z :=
  Math_max (map entry_score (scores s)).

(** What every reachable state satisfies; here a running session also
    keeps [recording] set, which disables both recording buttons. *)
Definition invariant (s : State) : Prop :=
  attempt s <= 6 /\
  length (scores s) = attempt s /\
  (idle s = false -> recording s = true /\ attempt s < 6).

End Rotation.

(** The shape of a history entry: a number from 1 to 6 and three
    percentages. *)
Definition proper_entry (e : Entry) : Prop :=
  1 <= entry_attempt e <= 6 /\
  (0 <= entry_score e <= 100)%Z /\
  (0 <= entry_charSim e <= 100)%Z /\
  (0 <= entry_wordSim e <= 100)%Z.

(** The component of the second listing of [src/TongueTwisterX.js]. The
    state holds a twister object of the catalog; the model holds its
    position [picked], which is the identity of the object, and
    [currentTwister] reads the catalog there. [Math.floor(Math.random() *
    SAMPLE_TWISTERS.length)] is a position below the length of the
    catalog, chosen by the environment: the initial state and the event
    [ClickNewTwister] carry it. [audioRef] holds the source of the [Audio]
    object, once [playAudio] has created it. *)
Module RandomPickWidget.

Import RandomPick.

Definition SAMPLE_TWISTERS : list Twister :=
  [
    mkTwister "es-001" "Spanish" "es-ES"
      [0xD83C; 0xDDEA; 0xD83C; 0xDDF8]%N
      (js "Tres tristes tigres tragaban trigo en un trigal.")
      None;
    mkTwister "en-001" "English" "en-US"
      [0xD83C; 0xDDFA; 0xD83C; 0xDDF8]%N
      (js "She sells seashells by the seashore.")
      None;
    mkTwister "fr-001" "French" "fr-FR"
      [0xD83C; 0xDDEB; 0xD83C; 0xDDF7]%N
      (js "Un chasseur sachant chasser sait chasser sans son chien.")
      None;
    mkTwister "hi-001" "Hindi" "hi-IN"
      [0xD83C; 0xDDEE; 0xD83C; 0xDDF3]%N
      ([0x4B; 0x61; 0x63; 0x63; 0x68; 0x101; 0x20; 0x70; 0x101; 0x70;
           0x1E5B; 0x101; 0x20; 0x70; 0x61; 0x6B; 0x101; 0x20; 0x70; 0x101;
           0x70; 0x1E5B; 0x101; 0x2E]%N)
      None;
    mkTwister "zh-001" "Mandarin" "zh-CN"
      [0xD83C; 0xDDE8; 0xD83C; 0xDDF3]%N
      ([0x56DB; 0x662F; 0x56DB; 0xFF0C; 0x5341; 0x662F; 0x5341; 0xFF0C;
           0x5341; 0x56DB; 0x662F; 0x5341; 0x56DB; 0xFF0C; 0x56DB; 0x5341;
           0x662F; 0x56DB; 0x5341; 0x3002]%N)
      (Some "/audio/zh-001.mp3") ].

Record Closure := mkClosure { seen_twister : nat; seen_attempt : nat }.

Record State := mkState {
  picked : nat;
  attempt : nat;
  scores : list Entry;
  recording : bool;
  permissionError : string;
  supported : bool;
  listening : option Closure;
  audioRef : option string }.

Definition currentTwister (s : State) : option Twister :=
  SAMPLE_TWISTERS !! picked s.

Definition setCurrentTwister (v : nat) (s : State) : State :=
  mkState v (attempt s) (scores s) (recording s) (permissionError s)
    (supported s) (listening s) (audioRef s).
Definition setAttempt (v : nat) (s : State) : State :=
  mkState (picked s) v (scores s) (recording s) (permissionError s)
    (supported s) (listening s) (audioRef s).
Definition setScores (v : list Entry) (s : State) : State :=
  mkState (picked s) (attempt s) v (recording s) (permissionError s)
    (supported s) (listening s) (audioRef s).
Definition setRecording (v : bool) (s : State) : State :=
  mkState (picked s) (attempt s) (scores s) v (permissionError s)
    (supported s) (listening s) (audioRef s).
Definition setPermissionError (v : string) (s : State) : State :=
  mkState (picked s) (attempt s) (scores s) (recording s) v
    (supported s) (listening s) (audioRef s).
Definition setListening (v : option Closure) (s : State) : State :=
  mkState (picked s) (attempt s) (scores s) (recording s) (permissionError s)
    (supported s) v (audioRef s).
Definition setAudioRef (v : option string) (s : State) : State :=
  mkState (picked s) (attempt s) (scores s) (recording s) (permissionError s)
    (supported s) (listening s) v.

Definition unsupportedMessage : string :=
  "SpeechRecognition not supported. Only scoring by text match available.".

(** The state after the first render and its effect. *)
Definition initial (supported : bool) (pick : nat) : State :=
  mkState pick 0 [] false
    (if supported then "" else unsupportedMessage) supported None None.

Inductive Event :=
| ClickWarmUp (startOk : bool)
| ClickAttempt (startOk : bool)
| ClickHearNative
| ClickNewTwister (pick : nat)
| OnResult (transcript : jsstring)
| OnError (error : string).

Definition isClick (e : Event) : bool :=
  match e with
  | ClickWarmUp _ | ClickAttempt _ | ClickHearNative | ClickNewTwister _ => true
  | _ => false
  end.

Definition idle (s : State) : bool :=
  match listening s with None => true | Some _ => false end.

(** Both recording buttons carry [disabled={recording}]. *)
Definition enabled (s : State) (e : Event) : bool :=
  let practising := (0 <? attempt s) && (attempt s <? 6) in
  match e with
  | ClickWarmUp _ => (attempt s =? 0) && negb (recording s)
  | ClickAttempt _ => practising && negb (recording s)
  | ClickHearNative => practising
  | ClickNewTwister pick =>
      (practising || (6 <=? attempt s)) && (pick <? length SAMPLE_TWISTERS)
  | OnResult _ => negb (idle s)
  | OnError _ => negb (idle s)
  end.

Definition startRecording (startOk : bool) (s : State) : State :=
  if negb (supported s)
  then setPermissionError "SpeechRecognition not available in this browser." s
  else if startOk
  then setListening (Some (mkClosure (picked s) (attempt s)))
         (setPermissionError "" (setRecording true s))
  else setRecording false
         (setPermissionError
            "Mic access failed. Ensure you're on HTTPS and allow microphone permissions."
            s).

(** What [playAudio] makes the browser do. *)
Inductive Sound :=
| Play (src : string)
| Speak (text : jsstring) (lang : string).

(** [playAudio]: the state after it and the sound; no sound stands for the
    exception of reading a property of a missing twister. An empty
    [audio] is falsy. *)
Definition playAudio (s : State) : State * option Sound :=
  match currentTwister s with
  | None => (s, None)
  | Some tw =>
      match tw_audio tw with
      | Some src =>
          if (src =? "")%string
          then (s, Some (Speak (tw_text tw) (tw_locale tw)))
          else
            match audioRef s with
            | Some cached => (s, Some (Play cached))
            | None => (setAudioRef (Some src) s, Some (Play src))
            end
      | None => (s, Some (Speak (tw_text tw) (tw_locale tw)))
      end
  end.

Definition newTwister (pick : nat) (s : State) : State :=
  setPermissionError ""
    (setScores []
       (setAttempt 0
          (setCurrentTwister pick s))).

Definition onresult (seen : Closure) (transcript : jsstring) (s : State) : State :=
  match SAMPLE_TWISTERS !! seen_twister seen with
  | None => s
  | Some tw =>
      match similarityScore (tw_text tw) transcript with
      | None => s
      | Some r =>
          setRecording false
            (setAttempt (attempt s + 1)
               (setScores
                  (scores s ++ [entryOf (seen_attempt seen) transcript r])
                  s))
      end
  end.

Definition onerror (error : string) (s : State) : State :=
  setRecording false
    (if (error =? "not-allowed")%string || (error =? "service-not-allowed")%string
     then setPermissionError
            "Microphone permission denied. Please allow mic access in your browser settings."
            s
     else setPermissionError ("Speech recognition error: " ++ error)%string s).

(** The effect after a render, with the dependencies [currentTwister] and
    [attempt]. *)
Definition effect (before after : State) : State :=
  if negb (supported after)
     && negb ((picked before =? picked after)
              && (attempt before =? attempt after))
  then setPermissionError unsupportedMessage after
  else after.

Definition handle (s : State) (e : Event) : State :=
  match e with
  | ClickWarmUp startOk | ClickAttempt startOk => startRecording startOk s
  | ClickHearNative => fst (playAudio s)
  | ClickNewTwister pick => newTwister pick s
  | OnResult transcript =>
      match listening s with
      | Some seen => setListening None (onresult seen transcript s)
      | None => s
      end
  | OnError error => setListening None (onerror error s)
  end.

Definition step (s : State) (e : Event) : State := effect s (handle s e).

Inductive reachable : State -> Prop :=
| reachable_initial supported pick :
    pick < length SAMPLE_TWISTERS -> reachable (initial supported pick)
| reachable_step s e :
    reachable s -> enabled s e = true -> reachable (step s e).

Fixpoint run (s : State) (es : list Event) : State :=
  match es with
  | [] => s
  | e :: es' => run (step s e) es'
  end.

Fixpoint allowed (s : State) (es : list Event) : bool :=
  match es with
  | [] => true
  | e :: es' => enabled s e && allowed (step s e) es'
  end.

(** A warm-up and five further attempts, each with a transcript. *)
Definition sixAttempts : list Event :=
  [ ClickWarmUp true; OnResult (js "she sells");
    ClickAttempt true; OnResult (js "she sells seashells");
    ClickAttempt true; OnResult (js "she sells seashells by the");
    ClickAttempt true; OnResult (js "sea shells by the sea shore");
    ClickAttempt true; OnResult (js "she sells seashells by the seashore");
    ClickAttempt true;
    OnResult (js "She sells seashells by the seashore.") ].

(** [Math.max(...scores.map(s => s.score))] of the final card. *)
Definition finalScore (s : State) : option Z :=
  Math_max (map entry_score (scores s)).

(** What every reachable state satisfies. *)
Definition invariant (s : State) : Prop :=
  picked s < length SAMPLE_TWISTERS /\
  attempt s <= 6 /\
  length (scores s) = attempt s /\
  Forall proper_entry (scores s) /\
  (audioRef s = None \/ audioRef s = Some "/audio/zh-001.mp3"%string) /\
  (forall seen, listening s = Some seen ->
     recording s = true /\ attempt s < 6 /\
     seen_twister seen < length SAMPLE_TWISTERS /\ seen_attempt seen < 6).

End RandomPickWidget.

Local Close Scope string_scope.

(** ** Reference notions for the edit distance

    What the table of [levenshtein] is meant to compute, stated without
    tables: single edits, sequences of single edits, and the least number
    of edits. [lev] is the textbook recursion on the heads of the two
    sequences, and [alignment] the left-to-right edit scripts it
    minimises; both serve the proofs. *)

Section EditDistance.

Context {A : Type} `{EqDecision A}.

(** One insertion, deletion or substitution of a single unit, anywhere. *)
Inductive edit1 : list A -> list A -> Prop :=
| edit_insert l x r : edit1 (l ++ r) (l ++ x :: r)
| edit_delete l x r : edit1 (l ++ x :: r) (l ++ r)
| edit_substitute l x y r : edit1 (l ++ x :: r) (l ++ y :: r).

(** [edits n a b]: [n] single edits turn [a] into [b]. *)
Inductive edits : nat -> list A -> list A -> Prop :=
| edits_done a : edits 0 a a
| edits_step n a b c : edit1 a b -> edits n b c -> edits (S n) a c.

(** [d] is the unit-cost edit distance from [a] to [b]. *)
Definition edit_distance (a b : list A) (d : nat) : Prop :=
  edits d a b /\ forall n, edits n a b -> d <= n.

Definition differ (x y : A) : nat := if decide (x = y) then 0 else 1.

Fixpoint lev (a b : list A) {struct a} : nat :=
  match a with
  | [] => length b
  | x :: a' =>
      (fix lev_row (b : list A) : nat :=
         match b with
         | [] => length a
         | y :: b' =>
             Nat.min (Nat.min (lev a' b + 1) (lev_row b' + 1))
                     (lev a' b' + differ x y)
         end) b
  end.

(** Edit scripts read from left to right, with their cost. *)
Inductive alignment : list A -> list A -> nat -> Prop :=
| al_nil : alignment [] [] 0
| al_delete x a b n : alignment a b n -> alignment (x :: a) b (S n)
| al_insert y a b n : alignment a b n -> alignment a (y :: b) (S n)
| al_substitute x y a b n :
    alignment a b n -> alignment (x :: a) (y :: b) (S n)
| al_keep x a b n : alignment a b n -> alignment (x :: a) (x :: b) n.

End EditDistance.

(** The two similarities in closed form, over the reference distance. *)
Definition charSimilarity (A B : jsstring) : Q :=
  (1 - fraction (lev A B) (Nat.max (length A) (length B)))%Q.

Definition wordSimilarity (A B : jsstring) : Q :=
  fraction (countHits (list_to_set (split_space A)) (split_space B))
           (length (split_space B)).

(** The fractions of the closed interval from 0 to 1. *)
Definition unit_interval (q : Q) : Prop := (0 <= q /\ q <= 1)%Q.

(** Shape of the table and meaning of its cells, for the loop invariants
    of [levenshtein]. *)
Definition well_shaped (m n : nat) (dp : table) : Prop :=
  length dp = m + 1 /\ forall i row, dp !! i = Some row -> length row = n + 1.

Definition prefix_distance (a b : jsstring) (i j : nat) : nat :=
  lev (take i a) (take j b).

(** The cells that hold their final value when the inner loop is about to
    write [dp[i][j]]: the rows above, the first column, and the row so
    far. *)
Definition filled (a b : jsstring) (i j : nat) (dp : table) : Prop :=
  well_shaped (length a) (length b) dp /\
  forall i' j', i' <= length a -> j' <= length b ->
    i' < i \/ j' = 0 \/ (i' = i /\ j' < j) ->
    cell dp i' j' = Some (prefix_distance a b i' j').

(** Basic Latin. *)
Definition basic_latin (s : jsstring) : Prop := Forall (fun c => (c < 0x80)%N) s.

(** White space is in normal form when every white-space unit is a single
    U+0020 between two other units; [afterSpace] tells that the unit before
    the string was white space. *)
Fixpoint spaced (afterSpace : bool) (s : jsstring) : Prop :=
  match s with
  | [] => True
  | c :: s' =>
      if isWhiteSpace c
      then c = SPACE /\ afterSpace = false /\ spaced true s'
      else spaced false s'
  end.

(** UTF-16 encoding of a sequence of code points: a code point beyond the
    Basic Multilingual Plane becomes a surrogate pair. *)
Definition utf16_unit (cp : N) : jsstring :=
  if (cp <? 0x10000)%N then [cp]
  else [(0xD800 + (cp - 0x10000) / 0x400)%N; (0xDC00 + (cp - 0x10000) mod 0x400)%N].

Definition utf16 (cps : list N) : jsstring := flat_map utf16_unit cps.

(** ** Notions for the further properties *)

(** What the states of the first listing keep besides
    [OrderedCycle.invariant]: the twister exists, the entries are in shape,
    and a running session closed over an existing twister and an attempt
    below the cap. *)
Definition ordered_sound (s : OrderedCycle.State) : Prop :=
  OrderedCycle.twisterIndex s < length OrderedCycle.SAMPLE_TWISTERS /\
  Forall proper_entry (OrderedCycle.scores s) /\
  (forall seen, OrderedCycle.listening s = Some seen ->
     OrderedCycle.seen_twister seen < length OrderedCycle.SAMPLE_TWISTERS /\
     OrderedCycle.seen_attempt seen < OrderedCycle.maxAttempts).

(** The states of the first listing in a browser without speech
    recognition. *)
Definition ordered_unsupported (s : OrderedCycle.State) : Prop :=
  OrderedCycle.supported s = false /\
  OrderedCycle.attempt s = 0 /\ OrderedCycle.scores s = [] /\
  OrderedCycle.twisterIndex s = 0 /\ OrderedCycle.recording s = false /\
  OrderedCycle.listening s = None /\
  OrderedCycle.permissionError s <> EmptyString.

(** A scorer that returns on every pair of strings, with fractions of the
    unit interval: what the third listing needs of the scorer it
    borrows. *)
Definition bounded_scorer (f : list N -> list N -> option Similarity) : Prop :=
  forall target said, exists r,
    f target said = Some r /\
    unit_interval (score r) /\ unit_interval (charSim r) /\ unit_interval (wordSim r).

(** What the states of the third listing keep besides
    [Rotation.invariant]: [currentTwister] is the entry at [index], the
    entries are in shape, and a running session closed over a twister and
    an attempt below the cap. *)
Definition rotation_sound (s : Rotation.State) : Prop :=
  Rotation.index s < length Rotation.SAMPLE_TWISTERS /\
  Rotation.currentTwister s = Rotation.SAMPLE_TWISTERS !! Rotation.index s /\
  Forall proper_entry (Rotation.scores s) /\
  (forall seen, Rotation.listening s = Some seen ->
     is_Some (Rotation.seen_twister seen) /\ Rotation.seen_attempt seen < 6).

(** The states of the third listing in a browser without speech
    recognition. *)
Definition rotation_unsupported (s : Rotation.State) : Prop :=
  Rotation.supported s = false /\
  Rotation.attempt s = 0 /\ Rotation.scores s = [] /\
  Rotation.index s = 0 /\ Rotation.recording s = false /\
  Rotation.listening s = None /\
  Rotation.permissionError s <> EmptyString.

(** The number of clicks on the button of [newTwister] in a run. *)
Definition ordered_rotations (es : list OrderedCycle.Event) : nat :=
  length (List.filter
            (fun e => match e with OrderedCycle.ClickNewTwister => true | _ => false end)
            es).

Definition rotation_rotations (es : list Rotation.Event) : nat :=
  length (List.filter
            (fun e => match e with Rotation.ClickNewTwister => true | _ => false end)
            es).

(** The clean-up of the effect of the first listing, taken exactly: when
    the twister, [attempt] or [recording] differ from the previous render,
    the recognizer of the previous render is aborted, and an aborted
    session delivers no result. *)
Definition ordered_cleanup (before after : OrderedCycle.State) : OrderedCycle.State :=
  if (OrderedCycle.twisterIndex before =? OrderedCycle.twisterIndex after)
     && (OrderedCycle.attempt before =? OrderedCycle.attempt after)
     && eqb (OrderedCycle.recording before) (OrderedCycle.recording after)
  then after
  else OrderedCycle.abort after.

Definition ordered_strict_step (s : OrderedCycle.State) (e : OrderedCycle.Event) :
  OrderedCycle.State :=
  ordered_cleanup s (OrderedCycle.step s e).

Inductive ordered_strict_reachable : OrderedCycle.State -> Prop :=
| ordered_strict_initial supported :
    ordered_strict_reachable (OrderedCycle.initial supported)
| ordered_strict_next s e :
    ordered_strict_reachable s -> OrderedCycle.enabled s e = true ->
    ordered_strict_reachable (ordered_strict_step s e).

Fixpoint ordered_strict_run (s : OrderedCycle.State) (es : list OrderedCycle.Event) :
  OrderedCycle.State :=
  match es with
  | [] => s
  | e :: es' => ordered_strict_run (ordered_strict_step s e) es'
  end.

Fixpoint ordered_strict_allowed (s : OrderedCycle.State) (es : list OrderedCycle.Event) :
  bool :=
  match es with
  | [] => true
  | e :: es' =>
      OrderedCycle.enabled s e && ordered_strict_allowed (ordered_strict_step s e) es'
  end.

(** * Properties *)

(** ** The worked examples of the specification *)

Example levenshtein_cat_bat : levenshtein (js "cat") (js "bat") = Some 1.
Proof. by vm_compute. Qed.

Example levenshtein_kitten_sitting :
  levenshtein (js "kitten") (js "sitting") = Some 3.
Proof. by vm_compute. Qed.

Example similarityScore_cat_bat :
  OrderedCycle.similarityScore (js "cat") (js "bat")
  = Some (mkSimilarity (140 # 300) (2 # 3) 0).
Proof. by vm_compute. Qed.

Example similarityScore_the_cat_sat :
  exists r, RandomPick.similarityScore (js "the cat sat") (js "the cat ran") = Some r
            /\ (wordSim r == 2 # 3)%Q /\ (charSim r == 9 # 11)%Q.
Proof. eexists. split; [by vm_compute|]. by vm_compute. Qed.

Example similarityScore_punctuation :
  exists r, OrderedCycle.similarityScore (js "Hello, world!") (js "hello world") = Some r
            /\ (charSim r == 1)%Q.
Proof. eexists. split; [by vm_compute|]. by vm_compute. Qed.

Example similarityScore_seashells :
  exists r, OrderedCycle.similarityScore
              (js "She sells seashells by the seashore.")
              (js "she sells seashells by the seashore") = Some r
            /\ (score r == 1)%Q.
Proof. eexists. split; [by vm_compute|]. by vm_compute. Qed.

(** ** Binary64 checks

    Where the scorer returns exactly 1 over the rationals it does so in
    binary64 as well, for all lengths and word counts below 2^53: a zero
    distance gives [charSim] 1, as many hits as words give [wordSim] 1,
    and the blend of 1 and 1 is 1. *)

(** [digits2_pos p] is the number of binary digits of [p]. *)
Lemma digits2_pos_bounds p :
  (2 ^ (Z.pos (digits2_pos p) - 1) <= Z.pos p < 2 ^ Z.pos (digits2_pos p))%Z.
Proof.
  induction p as [p IH|p IH|]; simpl digits2_pos.
  - rewrite Pos2Z.inj_succ.
    replace (Z.succ (Z.pos (digits2_pos p)) - 1)%Z with (Z.pos (digits2_pos p)) by lia.
    rewrite Z.pow_succ_r by lia.
    assert (Z.pos (digits2_pos p) = Z.succ (Z.pos (digits2_pos p) - 1)) as Heq by lia.
    rewrite Heq at 1. rewrite Z.pow_succ_r by lia. lia.
  - rewrite Pos2Z.inj_succ.
    replace (Z.succ (Z.pos (digits2_pos p)) - 1)%Z with (Z.pos (digits2_pos p)) by lia.
    rewrite Z.pow_succ_r by lia.
    assert (Z.pos (digits2_pos p) = Z.succ (Z.pos (digits2_pos p) - 1)) as Heq by lia.
    rewrite Heq at 1. rewrite Z.pow_succ_r by lia. lia.
  - simpl. lia.
Qed.

Lemma digits2_pos_shift p k :
  digits2_pos (Pos.iter xO p k) = (digits2_pos p + k)%positive.
Proof.
  induction k as [|k IH] using Pos.peano_ind.
  - simpl. lia.
  - rewrite Pos.iter_succ. simpl. rewrite IH. lia.
Qed.

Lemma binary_round_aux_normal m e :
  digits2_pos m = 53%positive -> (-1074 <= e <= 971)%Z ->
  binary_round_aux 53 1024 false (Z.pos m) e loc_Exact = S754_finite false m e.
Proof.
  intros Hm He. unfold binary_round_aux.
  assert (forall l, shr_fexp 53 1024 (Z.pos m) e l = (shr_record_of_loc (Z.pos m) l, e)) as Hshr.
  { intros l. unfold shr_fexp, fexp, emin. simpl Zdigits2. rewrite Hm.
    replace (Z.max (53 + e - 53) (3 - 1024 - 53) - e)%Z with 0%Z by lia.
    reflexivity. }
  rewrite Hshr. simpl. rewrite Hshr. simpl.
  destruct (Z.leb_spec e (1024 - 53)); [done | lia].
Qed.

(** A positive integer below 2^53 is a normal number: its mantissa is
    shifted to 53 bits. *)
Lemma binary64_normal n :
  1 <= n -> (Z.of_nat n < 2 ^ 53)%Z ->
  exists m e, binary64 n = S754_finite false m e /\ digits2_pos m = 53%positive
              /\ (-52 <= e <= 0)%Z.
Proof.
  intros Hn Hlt. unfold binary64.
  destruct (Z.of_nat n) as [|p|p] eqn:Hp; [lia | | lia].
  simpl binary_normalize. unfold binary_round.
  pose proof (digits2_pos_bounds p) as [Hlo Hhi].
  assert (Z.pos (digits2_pos p) <= 53)%Z as Hd.
  { destruct (Z.le_gt_cases (Z.pos (digits2_pos p)) 53) as [|Hgt]; [done|].
    assert (2 ^ 53 <= 2 ^ (Z.pos (digits2_pos p) - 1))%Z
      by (apply Z.pow_le_mono_r; lia).
    lia. }
  unfold shl_align, fexp, emin.
  replace (Z.max (Z.pos (digits2_pos p) + 0 - 53) (3 - 1024 - 53) - 0)%Z
    with (Z.pos (digits2_pos p) - 53)%Z by lia.
  destruct (Z.pos (digits2_pos p) - 53)%Z as [|k|k] eqn:Hk; [| lia |].
  - exists p, 0%Z. rewrite binary_round_aux_normal; [|lia|lia].
    split; [done|]. split; lia.
  - exists (Pos.iter xO p k), (Z.max (Z.pos (digits2_pos p) + 0 - 53) (3 - 1024 - 53)).
    assert (digits2_pos (Pos.iter xO p k) = 53%positive) as Hdig.
    { rewrite digits2_pos_shift. lia. }
    rewrite binary_round_aux_normal; [|done|lia].
    split; [done|]. split; [done | lia].
Qed.

Lemma div_eucl_multiple m k : (Z.div_eucl (Z.pos m * k) (Z.pos m) = (k, 0))%Z.
Proof.
  pose proof (Z.div_eucl_eq (Z.pos m * k) (Z.pos m) ltac:(lia)) as Heq.
  pose proof (Z.mod_pos_bound (Z.pos m * k) (Z.pos m) ltac:(lia)) as Hb.
  unfold Z.modulo in Hb.
  destruct (Z.div_eucl (Z.pos m * k) (Z.pos m)) as [q r]. simpl in *.
  assert (q = k) as -> by nia. f_equal. lia.
Qed.

(** A normal number divided by itself is exactly 1. *)
Lemma SFdiv_same m e :
  digits2_pos m = 53%positive ->
  SFdiv 53 1024 (S754_finite false m e) (S754_finite false m e) = binary64 1.
Proof.
  intros Hm. unfold SFdiv, SFdiv_core_binary. simpl Zdigits2. rewrite Hm.
  replace (53 + e - (53 + e))%Z with 0%Z by lia.
  replace (e - e)%Z with 0%Z by lia.
  change (Z.min (fexp 53 1024 0) 0) with (-53)%Z.
  change (0 - -53)%Z with 53%Z. cbv iota.
  rewrite Z.shiftl_mul_pow2 by lia.
  rewrite div_eucl_multiple.
  assert (new_location (Z.pos m) 0 = loc_Exact) as ->.
  { unfold new_location, new_location_even, new_location_odd.
    by destruct (Z.even (Z.pos m)). }
  by vm_compute.
Qed.

Lemma wordSim64_all_hits n :
  1 <= n -> (Z.of_nat n < 2 ^ 53)%Z ->
  wordSim64 (binary64 n) (binary64 n) = binary64 1.
Proof.
  intros Hn Hlt. destruct (binary64_normal n Hn Hlt) as (m & e & -> & Hm & _).
  by apply SFdiv_same.
Qed.

Lemma charSim64_zero_distance n :
  1 <= n -> (Z.of_nat n < 2 ^ 53)%Z ->
  charSim64 (binary64 0) (binary64 n) = binary64 1.
Proof.
  intros Hn Hlt. destruct (binary64_normal n Hn Hlt) as (m & e & -> & _). done.
Qed.

(** The sum of the rounded 0.7 and the rounded 0.3 rounds to 1. *)
Lemma blend64_ones : blend64 (binary64 1) (binary64 1) = binary64 1.
Proof. by vm_compute. Qed.

(** The values of [charSim] that the claims below meet are exact in
    binary64 too: 1 - 1/1 is 0, and 1 - 1/4 is 3/4. *)
Example charSim64_exact_values :
  charSim64 (binary64 1) (binary64 1) = binary64 0 /\
  exists q, value64 (charSim64 (binary64 1) (binary64 4)) = Some q
            /\ (q == 3 # 4)%Q.
Proof. split; [by vm_compute|]. eexists. split; by vm_compute. Qed.

(** The worked example: one substitution in three letters and no common
    word give a score that [Math.round] shows as 47, in binary64 as over
    the rationals. *)
Example score64_cat_bat :
  exists q,
    value64 (SFmul 53 1024
               (blend64 (charSim64 (binary64 1) (binary64 3))
                        (wordSim64 (binary64 0) (binary64 1)))
               (binary64 100)) = Some q
    /\ Math_round q = 47%Z
    /\ Math_round (blend (1 - fraction 1 3) (fraction 0 1) * 100) = 47%Z.
Proof. eexists. split; [by vm_compute|]. by vm_compute. Qed.

(** ** The reference distance *)

Section EditDistanceFacts.

Context {A : Type} `{EqDecision A}.
Implicit Types a b c : list A.

Lemma lev_nil_r a : lev a [] = length a.
Proof. by destruct a. Qed.

Lemma lev_cons_cons x y a b :
  lev (x :: a) (y :: b) =
  Nat.min (Nat.min (lev a (y :: b) + 1) (lev (x :: a) b + 1))
          (lev a b + differ x y).
Proof. reflexivity. Qed.

Lemma differ_le_1 (x y : A) : differ x y <= 1.
Proof. unfold differ. case_decide; lia. Qed.

Lemma differ_same (x : A) : differ x x = 0.
Proof. unfold differ. by case_decide. Qed.

Lemma differ_sym (x y : A) : differ x y = differ y x.
Proof. unfold differ. repeat case_decide; congruence. Qed.

(** [lev] is the cost of some script... *)
Lemma alignment_lev a b : alignment a b (lev a b).
Proof.
  revert b. induction a as [|x a IHa]; intros b.
  - induction b as [|y b IHb]; simpl; [constructor | by apply al_insert].
  - induction b as [|y b IHb].
    + rewrite lev_nil_r. simpl. apply al_delete.
      specialize (IHa []). by rewrite lev_nil_r in IHa.
    + rewrite lev_cons_cons.
      destruct (Nat.min_spec (Nat.min (lev a (y :: b) + 1) (lev (x :: a) b + 1))
                  (lev a b + differ x y)) as [[_ ->]|[_ ->]].
      * destruct (Nat.min_spec (lev a (y :: b) + 1) (lev (x :: a) b + 1))
          as [[_ ->]|[_ ->]]; rewrite Nat.add_1_r.
        -- apply al_delete, IHa.
        -- apply al_insert, IHb.
      * unfold differ. case_decide as Hxy.
        -- subst y. rewrite Nat.add_0_r. apply al_keep, IHa.
        -- rewrite Nat.add_1_r. apply al_substitute, IHa.
Qed.

(** ... and no script is cheaper. *)
Lemma lev_le_alignment a b n : alignment a b n -> lev a b <= n.
Proof.
  induction 1 as [|x a b n _ IH|y a b n _ IH|x y a b n _ IH|x a b n _ IH].
  - done.
  - destruct b as [|y b]; [rewrite lev_nil_r in *; simpl; lia|].
    rewrite lev_cons_cons. lia.
  - destruct a as [|x a]; [simpl in *; lia|].
    rewrite lev_cons_cons. lia.
  - rewrite lev_cons_cons. pose proof (differ_le_1 x y). lia.
  - rewrite lev_cons_cons, differ_same. lia.
Qed.

Lemma alignment_sym a b n : alignment a b n -> alignment b a n.
Proof. induction 1; by constructor. Qed.

Lemma lev_sym a b : lev a b = lev b a.
Proof.
  apply Nat.le_antisymm; apply lev_le_alignment, alignment_sym, alignment_lev.
Qed.

Lemma alignment_refl a : alignment a a 0.
Proof. induction a; by constructor. Qed.

Lemma lev_refl a : lev a a = 0.
Proof. pose proof (lev_le_alignment _ _ _ (alignment_refl a)). lia. Qed.

(** Scripts are closed under edits at the right end. *)
Lemma alignment_snoc_delete a b n x :
  alignment a b n -> alignment (a ++ [x]) b (S n).
Proof.
  induction 1; simpl; try by constructor.
  apply al_delete, al_nil.
Qed.

Lemma alignment_snoc_insert a b n y :
  alignment a b n -> alignment a (b ++ [y]) (S n).
Proof.
  induction 1; simpl; try by constructor.
  apply al_insert, al_nil.
Qed.

Lemma alignment_snoc_substitute a b n x y :
  alignment a b n -> alignment (a ++ [x]) (b ++ [y]) (S n).
Proof.
  induction 1; simpl; try by constructor.
  apply al_substitute, al_nil.
Qed.

Lemma alignment_snoc_keep a b n x :
  alignment a b n -> alignment (a ++ [x]) (b ++ [x]) n.
Proof.
  induction 1; simpl; try by constructor.
  apply al_keep, al_nil.
Qed.

Lemma alignment_reverse a b n : alignment a b n -> alignment (reverse a) (reverse b) n.
Proof.
  induction 1; rewrite ?reverse_cons; simpl.
  - constructor.
  - by apply alignment_snoc_delete.
  - by apply alignment_snoc_insert.
  - by apply alignment_snoc_substitute.
  - by apply alignment_snoc_keep.
Qed.

Lemma lev_reverse a b : lev (reverse a) (reverse b) = lev a b.
Proof.
  apply Nat.le_antisymm.
  - apply lev_le_alignment, alignment_reverse, alignment_lev.
  - rewrite <- (reverse_involutive a), <- (reverse_involutive b) at 1.
    apply lev_le_alignment, alignment_reverse, alignment_lev.
Qed.

(** The recurrence of the table: prefixes grow at the right end. *)
Lemma lev_snoc a b x y :
  lev (a ++ [x]) (b ++ [y]) =
  Nat.min (Nat.min (lev a (b ++ [y]) + 1) (lev (a ++ [x]) b + 1))
          (lev a b + differ x y).
Proof.
  rewrite <- (lev_reverse (a ++ [x]) (b ++ [y])), <- (lev_reverse a (b ++ [y])),
    <- (lev_reverse (a ++ [x]) b), <- (lev_reverse a b).
  rewrite !reverse_snoc. apply lev_cons_cons.
Qed.

Lemma lev_le_max a b : lev a b <= Nat.max (length a) (length b).
Proof.
  revert b. induction a as [|x a IH]; intros [|y b]; simpl lev; simpl length; try lia.
  fold (lev a b). specialize (IH b). pose proof (differ_le_1 x y). lia.
Qed.


(** Two scripts compose into one that costs no more than both. *)
Lemma alignment_trans a b c n m :
  alignment a b n -> alignment b c m -> exists k, alignment a c k /\ k <= n + m.
Proof.
  intros Hab. revert c m.
  induction Hab as [|x a b n _ IH|y a b n _ IH|x y a b n _ IH|x a b n _ IH];
    intros c m Hbc.
  - exists m. split; [done | lia].
  - destruct (IH _ _ Hbc) as (k & Hk & Hle).
    exists (S k). split; [by apply al_delete | lia].
  - remember (y :: b) as yb eqn:Eyb. revert Eyb.
    induction Hbc as [|y' b' c m Hbc _|z b' c m _ IHbc|y' z b' c m Hbc _|y' b' c m Hbc _];
      intros Eyb; try discriminate.
    + injection Eyb as -> ->. destruct (IH _ _ Hbc) as (k & Hk & Hle).
      exists k. split; [done | lia].
    + destruct (IHbc Eyb) as (k & Hk & Hle).
      exists (S k). split; [by apply al_insert | lia].
    + injection Eyb as -> ->. destruct (IH _ _ Hbc) as (k & Hk & Hle).
      exists (S k). split; [by apply al_insert | lia].
    + injection Eyb as -> ->. destruct (IH _ _ Hbc) as (k & Hk & Hle).
      exists (S k). split; [by apply al_insert | lia].
  - remember (y :: b) as yb eqn:Eyb. revert Eyb.
    induction Hbc as [|y' b' c m Hbc _|z b' c m _ IHbc|y' z b' c m Hbc _|y' b' c m Hbc _];
      intros Eyb; try discriminate.
    + injection Eyb as -> ->. destruct (IH _ _ Hbc) as (k & Hk & Hle).
      exists (S k). split; [by apply al_delete | lia].
    + destruct (IHbc Eyb) as (k & Hk & Hle).
      exists (S k). split; [by apply al_insert | lia].
    + injection Eyb as -> ->. destruct (IH _ _ Hbc) as (k & Hk & Hle).
      exists (S k). split; [by apply al_substitute | lia].
    + injection Eyb as -> ->. destruct (IH _ _ Hbc) as (k & Hk & Hle).
      exists (S k). split; [by apply al_substitute | lia].
  - remember (x :: b) as xb eqn:Exb. revert Exb.
    induction Hbc as [|y' b' c m Hbc _|z b' c m _ IHbc|y' z b' c m Hbc _|y' b' c m Hbc _];
      intros Exb; try discriminate.
    + injection Exb as -> ->. destruct (IH _ _ Hbc) as (k & Hk & Hle).
      exists (S k). split; [by apply al_delete | lia].
    + destruct (IHbc Exb) as (k & Hk & Hle).
      exists (S k). split; [by apply al_insert | lia].
    + injection Exb as -> ->. destruct (IH _ _ Hbc) as (k & Hk & Hle).
      exists (S k). split; [by apply al_substitute | lia].
    + injection Exb as -> ->. destruct (IH _ _ Hbc) as (k & Hk & Hle).
      exists k. split; [by apply al_keep | lia].
Qed.

Lemma lev_triangle a b c : lev a c <= lev a b + lev b c.
Proof.
  destruct (alignment_trans a b c _ _ (alignment_lev a b) (alignment_lev b c))
    as (k & Hk & Hle).
  apply lev_le_alignment in Hk. lia.
Qed.

(** A common prefix costs nothing. *)
Lemma lev_app_l l a b : lev (l ++ a) (l ++ b) <= lev a b.
Proof.
  induction l as [|x l IH]; simpl app; [done|].
  rewrite lev_cons_cons, differ_same. lia.
Qed.

Lemma lev_edit1 a b : edit1 a b -> lev a b <= 1.
Proof.
  intros [l x r|l x r|l x y r]; etrans; try apply lev_app_l.
  - apply lev_le_alignment, al_insert, alignment_refl.
  - apply lev_le_alignment, al_delete, alignment_refl.
  - apply lev_le_alignment, al_substitute, alignment_refl.
Qed.

Lemma lev_le_edits n a b : edits n a b -> lev a b <= n.
Proof.
  induction 1 as [a|n a b c Hab _ IH].
  - by rewrite lev_refl.
  - pose proof (lev_triangle a b c). apply lev_edit1 in Hab. lia.
Qed.

Lemma edit1_cons x a b : edit1 a b -> edit1 (x :: a) (x :: b).
Proof.
  intros [l y r|l y r|l y z r].
  - apply (edit_insert (x :: l)).
  - apply (edit_delete (x :: l)).
  - apply (edit_substitute (x :: l)).
Qed.

Lemma edits_cons x n a b : edits n a b -> edits n (x :: a) (x :: b).
Proof.
  induction 1; [constructor|].
  eapply edits_step; [by apply edit1_cons | done].
Qed.

Lemma edits_alignment a b n : alignment a b n -> edits n a b.
Proof.
  induction 1 as [|x a b n _ IH|y a b n _ IH|x y a b n _ IH|x a b n _ IH].
  - constructor.
  - eapply edits_step; [apply (edit_delete [] x a) | done].
  - eapply edits_step; [apply (edit_insert [] y a) | by apply edits_cons].
  - eapply edits_step; [apply (edit_substitute [] x y a) | by apply edits_cons].
  - by apply edits_cons.
Qed.

(** [lev] is the edit distance. *)
Lemma lev_edit_distance a b : edit_distance a b (lev a b).
Proof.
  split; [apply edits_alignment, alignment_lev | intros n Hn; by apply lev_le_edits].
Qed.

End EditDistanceFacts.

(** ** The table of [levenshtein] *)

Lemma for_loop_invariant {S : Type} (P : nat -> S -> Prop) count :
  forall lo body s,
  P lo s ->
  (forall k s, lo <= k < lo + count -> P k s ->
     exists s', body k s = Some s' /\ P (Datatypes.S k) s') ->
  exists s', for_loop lo count body s = Some s' /\ P (lo + count) s'.
Proof.
  induction count as [|count IH]; intros lo body s Hs Hbody.
  - exists s. rewrite Nat.add_0_r. by split.
  - destruct (Hbody lo s) as (s1 & Hs1 & HP1); [lia | done |].
    destruct (IH (Datatypes.S lo) body s1 HP1) as (s2 & Hs2 & HP2).
    { intros k s' Hk. apply Hbody. lia. }
    exists s2. simpl. rewrite Hs1. simpl. split; [done|].
    by replace (lo + Datatypes.S count) with (Datatypes.S lo + count) by lia.
Qed.

Lemma well_shaped_replicate m n :
  well_shaped m n (replicate (m + 1) (replicate (n + 1) 0)).
Proof.
  split; [by rewrite length_replicate|].
  intros i row [-> _]%lookup_replicate. by rewrite length_replicate.
Qed.

Lemma store_spec m n dp i j v :
  well_shaped m n dp -> i <= m -> j <= n ->
  exists dp', store dp i j v = Some dp' /\ well_shaped m n dp' /\
    cell dp' i j = Some v /\
    forall i' j', (i' <> i \/ j' <> j) -> cell dp' i' j' = cell dp i' j'.
Proof.
  intros [Hlen Hrows] Hi Hj. unfold store.
  destruct (lookup_lt_is_Some_2 dp i) as [row Hrow]; [lia|].
  rewrite Hrow. simpl. pose proof (Hrows _ _ Hrow) as Hr.
  rewrite decide_True by lia.
  eexists. split; [done|]. split; [|split].
  - split; [by rewrite length_insert|].
    intros i' row'. destruct (decide (i' = i)) as [->|Hne].
    + rewrite list_lookup_insert_eq by lia. intros [= <-].
      by rewrite length_insert.
    + rewrite list_lookup_insert_ne by done. apply Hrows.
  - unfold cell. rewrite list_lookup_insert_eq by lia. simpl.
    apply list_lookup_insert_eq. lia.
  - intros i' j' Hne. unfold cell. destruct (decide (i' = i)) as [->|Hi'].
    + rewrite list_lookup_insert_eq by lia. rewrite Hrow. simpl.
      apply list_lookup_insert_ne. intros ->. by destruct Hne.
    + by rewrite list_lookup_insert_ne.
Qed.

Section Table.

Variables a b : jsstring.
Let m := length a.
Let n := length b.
Let D := prefix_distance a b.

Lemma prefix_distance_col0 i : i <= m -> D i 0 = i.
Proof.
  intros Hi. unfold D, prefix_distance. rewrite take_0, lev_nil_r, length_take.
  fold m. lia.
Qed.

Lemma prefix_distance_row0 j : j <= n -> D 0 j = j.
Proof.
  intros Hj. unfold D, prefix_distance. rewrite take_0. simpl.
  rewrite length_take. fold n. lia.
Qed.

Lemma prefix_distance_step i j :
  1 <= i <= m -> 1 <= j <= n ->
  D i j = Nat.min (Nat.min (D (i - 1) j + 1) (D i (j - 1) + 1))
                  (D (i - 1) (j - 1) + cost a b i j).
Proof.
  intros Hi Hj. destruct i as [|i]; [lia|]. destruct j as [|j]; [lia|].
  replace (Datatypes.S i - 1) with i by lia.
  replace (Datatypes.S j - 1) with j by lia.
  destruct (lookup_lt_is_Some_2 a i) as [x Hx]; [fold m; lia|].
  destruct (lookup_lt_is_Some_2 b j) as [y Hy]; [fold n; lia|].
  unfold D, prefix_distance, cost.
  replace (Datatypes.S i - 1) with i by lia.
  replace (Datatypes.S j - 1) with j by lia.
  rewrite (take_S_r a i x Hx), (take_S_r b j y Hy), lev_snoc, Hx, Hy.
  unfold differ. repeat case_decide; congruence.
Qed.

Lemma prefix_distance_all : D m n = lev a b.
Proof. unfold D, prefix_distance, m, n. by rewrite !firstn_all. Qed.

Lemma first_column :
  exists dp, for_upto 0 m (fun i dp => store dp i 0 i)
               (replicate (m + 1) (replicate (n + 1) 0)) = Some dp /\
    well_shaped m n dp /\ forall i, i <= m -> cell dp i 0 = Some i.
Proof.
  destruct (for_loop_invariant
    (fun k dp => well_shaped m n dp /\ forall i, i < k -> cell dp i 0 = Some i)
    (Datatypes.S m - 0) 0 (fun i dp => store dp i 0 i)
    (replicate (m + 1) (replicate (n + 1) 0))) as (dp & Hdp & Hwf & Hcol).
  - split; [apply well_shaped_replicate | lia].
  - intros k dp Hk [Hwf Hcol].
    destruct (store_spec m n dp k 0 k Hwf) as (dp' & -> & Hwf' & Hnew & Hold);
      [lia..|].
    exists dp'. split; [done|]. split; [done|]. intros i Hi.
    destruct (decide (i = k)) as [->|Hne]; [done|].
    rewrite Hold by auto. apply Hcol. lia.
  - exists dp. split; [done|]. split; [done|]. intros i Hi. apply Hcol. lia.
Qed.

Lemma first_row dp0 :
  well_shaped m n dp0 -> (forall i, i <= m -> cell dp0 i 0 = Some i) ->
  exists dp, for_upto 0 n (fun j dp => store dp 0 j j) dp0 = Some dp /\
    filled a b 1 1 dp.
Proof.
  intros Hwf0 Hcol0.
  destruct (for_loop_invariant
    (fun k dp => well_shaped m n dp /\
       (forall i, i <= m -> cell dp i 0 = Some i) /\
       forall j, j < k -> cell dp 0 j = Some j)
    (Datatypes.S n - 0) 0 (fun j dp => store dp 0 j j) dp0)
    as (dp & Hdp & Hwf & Hcol & Hrow).
  - split; [done|]. split; [done | lia].
  - intros k dp Hk (Hwf & Hcol & Hrow).
    destruct (store_spec m n dp 0 k k Hwf) as (dp' & -> & Hwf' & Hnew & Hold);
      [lia..|].
    exists dp'. split; [done|]. split; [done|]. split.
    + intros i Hi. destruct (decide (i = 0 /\ k = 0)) as [[-> ->]|Hne]; [done|].
      rewrite Hold by lia. by apply Hcol.
    + intros j Hj. destruct (decide (j = k)) as [->|Hne]; [done|].
      rewrite Hold by auto. apply Hrow. lia.
  - exists dp. split; [done|]. split; [done|].
    intros i' j' Hi' Hj' [Hlt|[->|[-> Hlt]]].
    + assert (i' = 0) as -> by lia.
      rewrite prefix_distance_row0 by done. apply Hrow. lia.
    + rewrite prefix_distance_col0 by done. by apply Hcol.
    + assert (j' = 0) as -> by lia.
      rewrite prefix_distance_col0 by done. by apply Hcol.
Qed.

Lemma inner_loop i dp0 :
  1 <= i <= m -> filled a b i 1 dp0 ->
  exists dp,
    for_upto 1 n (fun j dp =>
      up ← cell dp (i - 1) j;
      left ← cell dp i (j - 1);
      diag ← cell dp (i - 1) (j - 1);
      store dp i j
        (Nat.min (Nat.min (up + 1) (left + 1)) (diag + cost a b i j))) dp0
    = Some dp /\ filled a b (Datatypes.S i) 1 dp.
Proof.
  intros Hi H0.
  edestruct (for_loop_invariant (filled a b i) (Datatypes.S n - 1) 1)
    as (dp & Hdp & Hwf & Hfill); [exact H0 | | ].
  2:{ exists dp. split; [exact Hdp|]. split; [done|].
      intros i' j' Hi' Hj' Hc. apply Hfill; [done..|]. lia. }
  intros j dp Hj [Hwf Hfill]. simpl.
  rewrite (Hfill (i - 1) j) by lia. simpl.
  rewrite (Hfill i (j - 1)) by lia. simpl.
  rewrite (Hfill (i - 1) (j - 1)) by lia. simpl.
  rewrite <- prefix_distance_step by lia.
  destruct (store_spec m n dp i j (D i j) Hwf) as (dp' & -> & Hwf' & Hnew & Hold);
    [lia..|].
  exists dp'. split; [done|]. split; [done|].
  intros i' j' Hi' Hj' Hc.
  destruct (decide (i' = i /\ j' = j)) as [[-> ->]|Hne]; [done|].
  rewrite Hold by lia. apply Hfill; [done..|]. lia.
Qed.

Lemma levenshtein_lev : levenshtein a b = Some (lev a b).
Proof.
  unfold levenshtein. fold m n.
  destruct first_column as (dp1 & -> & Hwf1 & Hcol1). simpl.
  destruct (first_row dp1 Hwf1 Hcol1) as (dp2 & -> & Hfill2). simpl.
  edestruct (for_loop_invariant (fun i dp => filled a b i 1 dp) (Datatypes.S m - 1) 1)
    as (dp3 & Hdp3 & _ & Hfill3); [exact Hfill2 | | ].
  2:{ unfold for_upto at 1. rewrite Hdp3. simpl.
      rewrite <- prefix_distance_all. apply Hfill3; lia. }
  intros i dp Hi Hfill. apply inner_loop; [lia | done].
Qed.

End Table.

(** Code points of the Basic Multilingual Plane are their own encoding. *)
Lemma utf16_bmp (p : list N) : Forall (fun cp => (cp < 0x10000)%N) p -> utf16 p = p.
Proof.
  induction 1 as [|cp p Hcp _ IH]; [done|].
  unfold utf16 in *. simpl. rewrite IH. unfold utf16_unit.
  apply N.ltb_lt in Hcp. by rewrite Hcp.
Qed.

(** ** Fractions *)

Lemma fraction_bounds x y : 0 < y -> x <= y -> unit_interval (fraction x y).
Proof.
  intros Hy Hxy. unfold unit_interval, fraction.
  assert (0 < inject_Z (Z.of_nat y))%Q as Hpos.
  { rewrite <- (Zlt_Qlt 0). lia. }
  split.
  - apply Qle_shift_div_l; [done|]. rewrite Qmult_0_l.
    rewrite <- (Zle_Qle 0). lia.
  - apply Qle_shift_div_r; [done|]. rewrite Qmult_1_l.
    rewrite <- Zle_Qle. lia.
Qed.

Lemma inject_nat_nonzero y : 0 < y -> ~ (inject_Z (Z.of_nat y) == 0)%Q.
Proof. intros Hy. unfold Qeq. simpl. lia. Qed.

Lemma fraction_same y : 0 < y -> (fraction y y == 1)%Q.
Proof.
  intros Hy. unfold fraction. by apply Qmult_inv_r, inject_nat_nonzero.
Qed.

Lemma fraction_zero y : (fraction 0 y == 0)%Q.
Proof. unfold fraction. simpl. unfold Qdiv. apply Qmult_0_l. Qed.

Lemma fraction_one_iff x y : 0 < y -> (fraction x y == 1)%Q <-> x = y.
Proof.
  intros Hy. split.
  - unfold fraction. intros Heq.
    pose proof (inject_nat_nonzero y Hy) as Hne.
    assert (inject_Z (Z.of_nat x) == inject_Z (Z.of_nat y))%Q as Hxy.
    { rewrite <- (Qmult_div_r (inject_Z (Z.of_nat x)) (inject_Z (Z.of_nat y))) by done.
      rewrite Heq. apply Qmult_1_r. }
    revert Hxy. unfold Qeq. simpl. lia.
  - intros ->. by apply fraction_same.
Qed.

Lemma quotient_Some x y : y <> 0 -> quotient x y = Some (fraction x y).
Proof. intros Hy. unfold quotient. by rewrite decide_False. Qed.

Lemma complement_unit q : unit_interval q -> unit_interval (1 - q).
Proof.
  unfold unit_interval. intros [H0 H1]. split; lra.
Qed.

Lemma blend_unit c w : unit_interval (blend c w).
Proof.
  unfold unit_interval, blend. split.
  - apply Q.le_max_l.
  - apply Q.max_lub; [done | apply Q.le_min_l].
Qed.

Lemma blend_ones c w : (c == 1)%Q -> (w == 1)%Q -> (blend c w == 1)%Q.
Proof.
  intros Hc Hw. unfold blend.
  assert ((7 # 10) * c + (3 # 10) * w == 1)%Q as ->.
  { rewrite Hc, Hw. reflexivity. }
  reflexivity.
Qed.

(** ** Words *)

Lemma split_space_nonempty s : split_space s <> [].
Proof.
  induction s as [|c s IH]; simpl; [done|].
  case_match; [done|]. by destruct (split_space s).
Qed.

Lemma split_space_length s : 0 < length (split_space s).
Proof. pose proof (split_space_nonempty s). destruct (split_space s); simpl; [done | lia]. Qed.

Lemma countHits_from (ta : gset (list N)) ba acc :
  fold_left (fun hit w => if decide (w ∈ ta) then hit + 1 else hit) ba acc
  = acc + countHits ta ba.
Proof.
  unfold countHits. revert acc. induction ba as [|w ba IH]; intros acc; simpl.
  - lia.
  - rewrite IH, (IH (if decide (w ∈ ta) then 0 + 1 else 0)).
    case_decide; lia.
Qed.

Lemma countHits_cons (ta : gset (list N)) w ba :
  countHits ta (w :: ba) = (if decide (w ∈ ta) then 1 else 0) + countHits ta ba.
Proof.
  unfold countHits at 1. simpl. rewrite countHits_from. case_decide; lia.
Qed.

Lemma countHits_le (ta : gset (list N)) ba : countHits ta ba <= length ba.
Proof.
  induction ba as [|w ba IH]; [done|].
  rewrite countHits_cons. simpl. case_decide; lia.
Qed.

Lemma countHits_all (ta : gset (list N)) ba :
  (forall w, w ∈ ba -> w ∈ ta) -> countHits ta ba = length ba.
Proof.
  induction ba as [|w ba IH]; intros Hall; [done|].
  rewrite countHits_cons, decide_True by (apply Hall; left).
  simpl. rewrite IH; [done|]. intros w' Hw'. apply Hall. by right.
Qed.

Lemma charSimilarity_unit A B : A <> [] -> unit_interval (charSimilarity A B).
Proof.
  intros HA. apply complement_unit, fraction_bounds; [|apply lev_le_max].
  destruct A; [done|]. simpl. lia.
Qed.

Lemma wordSimilarity_unit A B : unit_interval (wordSimilarity A B).
Proof. apply fraction_bounds; [apply split_space_length | apply countHits_le]. Qed.

Lemma falsy_false s : s <> [] -> falsy s = false.
Proof. by destruct s. Qed.

Lemma falsy_true s : falsy s = true <-> s = [].
Proof. by destruct s. Qed.

Lemma maxLen_positive (A B : list N) : A <> [] -> Nat.max (length A) (length B) <> 0.
Proof. destruct A; [done|]. simpl. lia. Qed.

(** Past the guard, both listings return the closed forms: the table is
    read inside its bounds and both divisors are positive. *)
Lemma ordered_similarityScore_nonempty target said :
  OrderedCycle.normalizeText target <> [] ->
  OrderedCycle.normalizeText said <> [] ->
  OrderedCycle.similarityScore target said =
  let A := OrderedCycle.normalizeText target in
  let B := OrderedCycle.normalizeText said in
  Some (mkSimilarity (blend (charSimilarity A B) (wordSimilarity A B))
          (charSimilarity A B) (wordSimilarity A B)).
Proof.
  intros HA HB. unfold OrderedCycle.similarityScore.
  rewrite (falsy_false _ HA), (falsy_false _ HB). simpl.
  rewrite levenshtein_lev. simpl.
  pose proof (split_space_length (OrderedCycle.normalizeText said)).
  rewrite !decide_False by first [by apply maxLen_positive | lia].
  rewrite !quotient_Some by first [by apply maxLen_positive | lia]. done.
Qed.

Lemma random_similarityScore_nonempty target said :
  RandomPick.normalizeText target <> [] ->
  RandomPick.normalizeText said <> [] ->
  RandomPick.similarityScore target said =
  let A := RandomPick.normalizeText target in
  let B := RandomPick.normalizeText said in
  Some (mkSimilarity (blend (charSimilarity A B) (wordSimilarity A B))
          (charSimilarity A B) (wordSimilarity A B)).
Proof.
  intros HA HB. unfold RandomPick.similarityScore.
  rewrite (falsy_false _ HA), (falsy_false _ HB). simpl.
  rewrite levenshtein_lev. simpl.
  pose proof (split_space_length (RandomPick.normalizeText said)).
  rewrite !decide_False by lia.
  rewrite !quotient_Some by first [by apply maxLen_positive | lia]. done.
Qed.

Lemma ordered_similarityScore_empty target said :
  OrderedCycle.normalizeText target = [] \/ OrderedCycle.normalizeText said = [] ->
  OrderedCycle.similarityScore target said = Some (mkSimilarity 0 0 0).
Proof.
  intros Hem. unfold OrderedCycle.similarityScore.
  by destruct Hem as [-> | ->]; simpl; rewrite ?orb_true_r.
Qed.

Lemma random_similarityScore_empty target said :
  RandomPick.normalizeText target = [] \/ RandomPick.normalizeText said = [] ->
  RandomPick.similarityScore target said = Some (mkSimilarity 0 0 0).
Proof.
  intros Hem. unfold RandomPick.similarityScore.
  by destruct Hem as [-> | ->]; simpl; rewrite ?orb_true_r.
Qed.

Lemma charSimilarity_same A : A <> [] -> (charSimilarity A A == 1)%Q.
Proof.
  intros HA. unfold charSimilarity. rewrite lev_refl, fraction_zero. reflexivity.
Qed.

Lemma wordSimilarity_same A : (wordSimilarity A A == 1)%Q.
Proof.
  unfold wordSimilarity. rewrite countHits_all.
  - apply fraction_same, split_space_length.
  - intros w Hw. by apply elem_of_list_to_set.
Qed.

Lemma split_space_length_le s : length (split_space s) <= length s + 1.
Proof.
  induction s as [|c s IH]; simpl; [lia|].
  case_match; simpl; [lia|].
  destruct (split_space s); simpl in *; lia.
Qed.

(** The self-comparison in binary64: with the integers that
    [similarityScore] computes for a string against itself, the three
    formulas evaluate to exactly 1. *)
Lemma self_comparison_binary64 (A : list N) :
  A <> [] -> (Z.of_nat (length A) + 1 < 2 ^ 53)%Z ->
  let dist := binary64 (lev A A) in
  let maxLen := binary64 (Nat.max (length A) (length A)) in
  let hit := binary64 (countHits (list_to_set (split_space A)) (split_space A)) in
  let words := binary64 (length (split_space A)) in
  charSim64 dist maxLen = binary64 1 /\
  wordSim64 hit words = binary64 1 /\
  blend64 (charSim64 dist maxLen) (wordSim64 hit words) = binary64 1.
Proof.
  intros HA Hlen dist maxLen hit words. unfold dist, maxLen, hit, words.
  rewrite lev_refl, Nat.max_id, countHits_all
    by (intros w Hw; by apply elem_of_list_to_set).
  pose proof (split_space_length A). pose proof (split_space_length_le A).
  rewrite charSim64_zero_distance, wordSim64_all_hits; try lia.
  - split; [done|]. split; [done|]. apply blend64_ones.
  - destruct A; [done|]. simpl. lia.
Qed.

Lemma charSimilarity_zero_iff A B :
  A <> [] ->
  (charSimilarity A B == 0)%Q <-> lev A B = Nat.max (length A) (length B).
Proof.
  intros HA. pose proof (maxLen_positive A B HA).
  rewrite <- fraction_one_iff by lia. unfold charSimilarity. split; intros Hq; lra.
Qed.

(** ** Normalization *)

Lemma isWhiteSpace_SPACE : isWhiteSpace SPACE = true.
Proof. reflexivity. Qed.

Lemma spaced_weaken b s : spaced b s -> spaced false s.
Proof.
  destruct s as [|c s]; simpl; [done|].
  destruct (isWhiteSpace c); [|done]. intros (? & ? & ?). auto.
Qed.

Lemma spaced_collapseFrom b s : spaced b (collapseFrom b s).
Proof.
  revert b. induction s as [|c s IH]; intros b; simpl; [done|].
  destruct (isWhiteSpace c) eqn:Hc.
  - destruct b; [apply IH|]. simpl. auto.
  - simpl. rewrite Hc. apply IH.
Qed.

Lemma collapseFrom_spaced b s : spaced b s -> collapseFrom b s = s.
Proof.
  revert b. induction s as [|c s IH]; intros b; simpl; [done|].
  destruct (isWhiteSpace c) eqn:Hc.
  - intros (-> & -> & Hs). by rewrite IH.
  - intros Hs. by rewrite IH.
Qed.

Lemma spaced_trimStart s : spaced false s -> spaced false (trimStart s).
Proof.
  induction s as [|c s IH]; simpl; [done|].
  destruct (isWhiteSpace c) eqn:Hc.
  - intros (_ & _ & Hs). by apply IH, spaced_weaken with true.
  - intros Hs. simpl. by rewrite Hc.
Qed.

Lemma spaced_trimEnd b s : spaced b s -> spaced b (trimEnd s).
Proof.
  revert b. induction s as [|c s IH]; intros b; simpl; [done|].
  destruct (isWhiteSpace c) eqn:Hc.
  - intros (-> & -> & Hs). specialize (IH true Hs).
    destruct (trimEnd s) as [|c' t]; [done|].
    simpl. auto.
  - intros Hs. specialize (IH false Hs).
    destruct (trimEnd s) as [|c' t]; simpl; by rewrite Hc.
Qed.

Lemma trimEnd_idempotent s : trimEnd (trimEnd s) = trimEnd s.
Proof.
  induction s as [|c s IH]; simpl; [done|].
  destruct (trimEnd s) as [|c' t] eqn:Ht.
  - destruct (isWhiteSpace c) eqn:Hc; simpl; [done | by rewrite Hc].
  - change (trimEnd (c :: c' :: t)) with
      (match trimEnd (c' :: t) with
       | [] => if isWhiteSpace c then [] else [c]
       | t' => c :: t'
       end).
    by rewrite IH.
Qed.

(** A string that does not start with white space still does not after
    [trimEnd]. *)
Lemma trimStart_trimEnd s : trimStart s = s -> trimStart (trimEnd s) = trimEnd s.
Proof.
  destruct s as [|c s]; [done|]. simpl.
  destruct (isWhiteSpace c) eqn:Hc.
  - intros Heq. exfalso.
    assert (forall u, length (trimStart u) <= length u) as Hlen.
    { induction u as [|d u IHu]; simpl; [done|]. case_match; simpl; lia. }
    pose proof (Hlen s) as Hs. rewrite Heq in Hs. simpl in Hs. lia.
  - intros _. destruct (trimEnd s); simpl; by rewrite Hc.
Qed.

Lemma trimStart_idempotent s : trimStart (trimStart s) = trimStart s.
Proof.
  induction s as [|c s IH]; simpl; [done|].
  destruct (isWhiteSpace c) eqn:Hc; [done|]. simpl. by rewrite Hc.
Qed.

Lemma trim_idempotent s : trim (trim s) = trim s.
Proof.
  unfold trim. rewrite (trimStart_trimEnd (trimStart s)) by apply trimStart_idempotent.
  apply trimEnd_idempotent.
Qed.

Lemma collapse_trim_collapse s :
  collapseWhiteSpace (trim (collapseWhiteSpace s)) = trim (collapseWhiteSpace s).
Proof.
  apply collapseFrom_spaced, spaced_trimEnd, spaced_trimStart, spaced_collapseFrom.
Qed.

Section Preserved.

Variable P : N -> Prop.

Lemma Forall_collapseFrom b s : P SPACE -> Forall P s -> Forall P (collapseFrom b s).
Proof.
  intros HS Hs. revert b. induction Hs as [|c s Hc _ IH]; intros b; simpl; [done|].
  destruct (isWhiteSpace c), b; auto.
Qed.

Lemma Forall_trimStart s : Forall P s -> Forall P (trimStart s).
Proof.
  induction 1 as [|c s Hc Hs IH]; simpl; [done|]. case_match; auto.
Qed.

Lemma Forall_trimEnd s : Forall P s -> Forall P (trimEnd s).
Proof.
  induction 1 as [|c s Hc Hs IH]; simpl; [done|].
  destruct (trimEnd s); [case_match|]; auto.
Qed.

Lemma Forall_trim_collapse s :
  P SPACE -> Forall P s -> Forall P (trim (collapseWhiteSpace s)).
Proof.
  intros HS Hs. by apply Forall_trimEnd, Forall_trimStart, Forall_collapseFrom.
Qed.

End Preserved.

Lemma removeAll_none class s :
  Forall (fun c => class c = false) s -> removeAll class s = s.
Proof.
  unfold removeAll. induction 1 as [|c s Hc _ IH]; simpl; [done|].
  by rewrite Hc, IH.
Qed.

Lemma Forall_removeAll (P : N -> Prop) class s :
  Forall P s -> Forall P (removeAll class s).
Proof.
  unfold removeAll. induction 1 as [|c s Hc _ IH]; simpl; [done|].
  case_match; auto.
Qed.

Lemma removeAll_removed class s :
  Forall (fun c => class c = false) (removeAll class s).
Proof.
  unfold removeAll. induction s as [|c s IH]; simpl; [done|].
  destruct (class c) eqn:Hc; simpl; auto.
Qed.

Ltac ranges :=
  repeat match goal with
         | H : _ || _ = true |- _ => apply orb_true_iff in H
         | H : _ && _ = true |- _ => apply andb_true_iff in H
         | H : _ || _ = false |- _ => apply orb_false_iff in H
         | H : _ && _ = false |- _ => apply andb_false_iff in H
         | H : negb _ = true |- _ => apply negb_true_iff in H
         | H : negb _ = false |- _ => apply negb_false_iff in H
         | H : (_ <=? _)%N = true |- _ => apply N.leb_le in H
         | H : (_ <=? _)%N = false |- _ => apply N.leb_gt in H
         | H : (_ =? _)%N = true |- _ => apply N.eqb_eq in H
         | H : (_ =? _)%N = false |- _ => apply N.eqb_neq in H
         | H : _ /\ _ |- _ => destruct H
         | H : _ \/ _ |- _ => destruct H
         end.

Lemma isUpperCase_lowered c : isUpperCase c = true -> isUpperCase (c + 0x20) = false.
Proof.
  unfold isUpperCase. intros Hc.
  destruct (_ || _) eqn:H1 in |- *; [|done]. ranges; lia.
Qed.

Lemma lowerUnit_idempotent c : lowerUnit (lowerUnit c) = lowerUnit c.
Proof.
  unfold lowerUnit. destruct (isUpperCase c) eqn:Hc; [|by rewrite Hc].
  by rewrite isUpperCase_lowered.
Qed.

Lemma lowerUnit_basic_latin c : (c < 0x80)%N -> (lowerUnit c < 0x80)%N.
Proof.
  unfold lowerUnit, isUpperCase. intros Hc.
  destruct (_ || _) eqn:H1; [|done]. ranges; lia.
Qed.

Lemma toLowerCase_fixed s :
  Forall (fun c => lowerUnit c = c) s -> toLowerCase s = s.
Proof.
  unfold toLowerCase. induction 1 as [|c s Hc _ IH]; simpl; [done|].
  by rewrite Hc, IH.
Qed.

Lemma toLowerCase_lowered s : Forall (fun c => lowerUnit c = c) (toLowerCase s).
Proof.
  unfold toLowerCase. induction s; simpl; constructor; auto using lowerUnit_idempotent.
Qed.

Lemma toLowerCase_basic_latin s : basic_latin s -> basic_latin (toLowerCase s).
Proof.
  unfold toLowerCase, basic_latin.
  induction 1; simpl; constructor; auto using lowerUnit_basic_latin.
Qed.

(** The tables start beyond Basic Latin: keys from U+00A0, marks from
    U+0300. *)
Lemma table_find_below {V : Type} (l : list (N * V)) k :
  Forall (fun kv => (k < fst kv)%N) l -> table_find k l = None.
Proof.
  induction 1 as [|[k' v] l Hk _ IH]; simpl; [done|].
  simpl in Hk. destruct (N.eqb_spec k k'); [lia | done].
Qed.

Lemma composite_below l b m :
  Forall (fun cbm => (m < snd (snd cbm))%N) l -> composite b m l = None.
Proof.
  induction 1 as [|[c [b' m']] l Hm _ IH]; simpl; [done|].
  simpl in Hm. destruct (N.eqb_spec m m'); [lia|]. by rewrite andb_false_r.
Qed.

Lemma Forall_weaken_bound {X : Type} (f : X -> N) (l : list X) bound k :
  forallb (fun x => (bound <=? f x)%N) l = true -> (k < bound)%N ->
  Forall (fun x => (k < f x)%N) l.
Proof.
  intros Hall Hk. apply Forall_forall. intros x Hx%list_elem_of_In.
  rewrite forallb_forall in Hall. specialize (Hall x Hx).
  apply N.leb_le in Hall. lia.
Qed.

Lemma canonicalDecomposition_basic_latin c :
  (c < 0x80)%N -> canonicalDecomposition c = [c].
Proof.
  intros Hc. unfold canonicalDecomposition. rewrite table_find_below; [done|].
  apply (Forall_weaken_bound fst _ 0x80%N); [by vm_compute | done].
Qed.

Lemma compatibilityDecomposition_basic_latin c :
  (c < 0x80)%N -> compatibilityDecomposition c = [c].
Proof.
  intros Hc. unfold compatibilityDecomposition. rewrite table_find_below.
  - by apply canonicalDecomposition_basic_latin.
  - apply (Forall_weaken_bound fst _ 0x80%N); [by vm_compute | done].
Qed.

Lemma recompose_basic_latin s : basic_latin s -> recompose s = s.
Proof.
  induction 1 as [|b s Hb Hs IH]; [done|].
  destruct Hs as [|m s Hm Hs]; [done|].
  change (recompose (b :: m :: s)) with
    (match composite b m canonicalPairs with
     | Some c => c :: recompose s
     | None => b :: recompose (m :: s)
     end).
  rewrite composite_below; [by rewrite IH|].
  apply (Forall_weaken_bound (fun cbm => snd (snd cbm)) _ 0x80%N); [by vm_compute | done].
Qed.

Lemma normalizeNFC_basic_latin s : basic_latin s -> normalizeNFC s = s.
Proof.
  intros Hs. unfold normalizeNFC.
  assert (flat_map canonicalDecomposition s = s) as ->; [|by apply recompose_basic_latin].
  induction Hs as [|c s Hc _ IH]; simpl; [done|].
  by rewrite canonicalDecomposition_basic_latin, IH.
Qed.

Lemma normalizeNFKD_basic_latin s : basic_latin s -> normalizeNFKD s = s.
Proof.
  unfold normalizeNFKD. induction 1 as [|c s Hc _ IH]; simpl; [done|].
  by rewrite compatibilityDecomposition_basic_latin, IH.
Qed.

Lemma isCombiningMark_basic_latin s :
  basic_latin s -> Forall (fun c => isCombiningMark c = false) s.
Proof.
  intros Hs. eapply Forall_impl; [exact Hs|]. intros c Hc. simpl in Hc.
  unfold isCombiningMark. apply andb_false_iff. left. apply N.leb_gt. lia.
Qed.

Lemma isPunctuation_SPACE : OrderedCycle.isPunctuation SPACE = false.
Proof. by vm_compute. Qed.

(** The first listing, past its guard, on Basic Latin. *)
Lemma ordered_normalizeText_basic_latin s :
  basic_latin s ->
  OrderedCycle.normalizeText s =
  trim (collapseWhiteSpace (removeAll OrderedCycle.isPunctuation (toLowerCase s))).
Proof.
  intros Hs. unfold OrderedCycle.normalizeText.
  rewrite normalizeNFC_basic_latin by by apply toLowerCase_basic_latin.
  by destruct s.
Qed.

Lemma random_normalizeText_basic_latin s :
  basic_latin s ->
  RandomPick.normalizeText s =
  trim (collapseWhiteSpace
          (removeAll (fun c => negb (isLetter c || isNumber c || isWhiteSpace c))
             (toLowerCase s))).
Proof.
  intros Hs. unfold RandomPick.normalizeText.
  rewrite normalizeNFKD_basic_latin by by apply toLowerCase_basic_latin.
  by rewrite (removeAll_none isCombiningMark)
    by by apply isCombiningMark_basic_latin, toLowerCase_basic_latin.
Qed.

(** What the last three steps leave is a fixed point of every step. *)
Lemma normal_form_fixed class s :
  class SPACE = false ->
  basic_latin s ->
  let t := trim (collapseWhiteSpace (removeAll class (toLowerCase s))) in
  basic_latin t /\
  trim (collapseWhiteSpace (removeAll class (toLowerCase t))) = t.
Proof.
  intros Hclass Hs t.
  assert (basic_latin t) as Ht.
  { apply Forall_trim_collapse; [done|].
    by apply Forall_removeAll, toLowerCase_basic_latin. }
  split; [done|].
  rewrite toLowerCase_fixed.
  2:{ apply Forall_trim_collapse; [done|].
      apply Forall_removeAll, toLowerCase_lowered. }
  rewrite removeAll_none.
  2:{ apply (Forall_trim_collapse (fun c => class c = false)); [done|].
      apply removeAll_removed. }
  unfold t. rewrite collapse_trim_collapse. apply trim_idempotent.
Qed.

(** ** The attempt counter *)

Lemma Math_max_spec (xs : list Z) :
  xs <> [] ->
  exists best, Math_max xs = Some best /\ best ∈ xs /\ Forall (fun x => (x <= best)%Z) xs.
Proof.
  destruct xs as [|x xs]; [done|]. intros _. simpl.
  eexists. split; [done|]. revert x.
  induction xs as [|y xs IH]; intros x; simpl.
  - split; [left | constructor; [lia | constructor]].
  - destruct (IH (Z.max x y)) as [Hin Hall].
    apply Forall_cons in Hall as [Hmax Hall]. split.
    + apply elem_of_cons in Hin as [Heq|Hin]; [|by right; right].
      rewrite Heq. destruct (Z.max_spec x y) as [[_ ->]|[_ ->]];
        [right; left | left].
    + constructor; [lia|]. constructor; [lia | done].
Qed.

Section OrderedCycleSession.

Import OrderedCycle.

Lemma ordered_invariant_effect s s' : invariant s' -> invariant (effect s s').
Proof. unfold effect. by case_match. Qed.

Lemma ordered_invariant_onresult seen transcript s :
  invariant s -> idle s = false ->
  invariant (setListening None (onresult seen transcript s)).
Proof.
  intros (Hle & Hlen & Hidle) Hbusy. specialize (Hidle Hbusy).
  unfold onresult, invariant, idle. repeat case_match; simpl;
    rewrite ?length_app; simpl; repeat split; (done || lia).
Qed.

Lemma ordered_invariant_onerror error s : invariant s -> invariant (onerror error s).
Proof. unfold onerror. by repeat case_match. Qed.

Lemma ordered_invariant_idle s : invariant s -> invariant (setListening None s).
Proof. intros (Hle & Hlen & Hidle). by repeat split. Qed.

Lemma ordered_invariant_step s e :
  invariant s -> enabled s e = true -> invariant (step s e).
Proof.
  intros Hinv He. apply ordered_invariant_effect.
  pose proof Hinv as (Hle & Hlen & Hidle).
  destruct e as [ok|ok| | | |t|err cur|saw cur|saw]; simpl in He |- *.
  - apply andb_true_iff in He as [[Hzero _]%andb_true_iff _].
    apply Nat.eqb_eq in Hzero.
    unfold startRecording, invariant, idle, maxAttempts in *.
    repeat case_match; simpl in *; repeat split; (done || lia).
  - apply andb_true_iff in He as [[_ Hlt%Nat.ltb_lt]%andb_true_iff _].
    unfold toggleRecording, startRecording, invariant, idle in *.
    repeat case_match; simpl in *; repeat split; (done || lia).
  - done.
  - unfold newTwister, invariant, idle, maxAttempts in *. simpl.
    repeat split; (done || lia).
  - unfold refreshTwister, invariant, idle, maxAttempts in *. simpl.
    repeat split; (done || lia).
  - apply negb_true_iff in He.
    unfold idle in He. destruct (listening s) as [seen|] eqn:Hl; [|done].
    apply ordered_invariant_onresult; [done|]. unfold idle. by rewrite Hl.
  - destruct cur; [apply ordered_invariant_idle|]; by apply ordered_invariant_onerror.
  - unfold onend. destruct cur, saw; try done; by apply ordered_invariant_idle.
  - unfold ontimeout. destruct saw; [|done]. by apply (ordered_invariant_idle s).
Qed.

Lemma ordered_invariant_reachable s : reachable s -> invariant s.
Proof.
  induction 1 as [sup|s e _ IH He].
  - unfold invariant, maxAttempts. simpl. repeat split; (done || lia).
  - by apply ordered_invariant_step.
Qed.

(** At the cap the only button is the one of the final card, and the
    only callbacks are late ones, which record nothing. *)
Lemma ordered_complete_step s e :
  invariant s -> attempt s = maxAttempts -> enabled s e = true ->
  (isClick e = true -> e = ClickNewTwister) /\
  (e = ClickNewTwister \/
   attempt (step s e) = attempt s /\ scores (step s e) = scores s).
Proof.
  intros (Hle & Hlen & Hidle) Hcap He.
  assert (idle s = true) as Hi.
  { destruct (idle s); [done|]. specialize (Hidle eq_refl). lia. }
  assert (forall s', attempt (effect s s') = attempt s' /\
                     scores (effect s s') = scores s') as Heff.
  { intros s'. unfold effect. by case_match. }
  unfold step. rewrite !(proj1 (Heff _)), !(proj2 (Heff _)).
  destruct e as [ok|ok| | | |t|err cur|saw cur|saw]; simpl in He |- *;
    rewrite ?Hi, ?Hcap in He; simpl in He; try done.
  - split; [done | by left].
  - rewrite orb_false_r in He. apply negb_true_iff in He as ->.
    split; [done|]. right. unfold onerror. by repeat case_match.
  - rewrite orb_false_r in He. apply negb_true_iff in He as ->.
    split; [done|]. right. unfold onend. by case_match.
  - split; [done|]. right. unfold ontimeout. by case_match.
Qed.

Lemma ordered_reachable_run s es :
  reachable s -> allowed s es = true -> reachable (run s es).
Proof.
  revert s. induction es as [|e es IH]; intros s Hs Hall; simpl in *; [done|].
  apply andb_true_iff in Hall as [He Hall].
  apply IH; [by apply reachable_step | done].
Qed.

End OrderedCycleSession.

Section RotationSession.

Import Rotation.

Variable similarityScore : list N -> list N -> option Similarity.

Lemma rotation_invariant_effect s s' : invariant s' -> invariant (effect s s').
Proof. unfold effect. by case_match. Qed.

Lemma rotation_invariant_start ok s :
  invariant s -> attempt s < 6 -> recording s = false ->
  invariant (startRecording ok s).
Proof.
  intros (Hle & Hlen & Hidle) Hlt Hrec.
  assert (idle s = true) as Hi.
  { destruct (idle s); [done|]. destruct (Hidle eq_refl). congruence. }
  unfold startRecording, invariant.
  repeat case_match; unfold idle in *; simpl; rewrite ?Hi;
    repeat split; (done || lia).
Qed.

Lemma rotation_invariant_step s e :
  invariant s -> enabled s e = true -> invariant (step similarityScore s e).
Proof.
  intros Hinv He. apply rotation_invariant_effect.
  pose proof Hinv as (Hle & Hlen & Hidle).
  destruct e as [ok|ok| | |t|err]; simpl in He |- *.
  - apply andb_true_iff in He as [Hzero%Nat.eqb_eq Hrec%negb_true_iff].
    apply rotation_invariant_start; [done | lia | done].
  - apply andb_true_iff in He as [[_ Hlt%Nat.ltb_lt]%andb_true_iff Hrec%negb_true_iff].
    by apply rotation_invariant_start.
  - done.
  - unfold newTwister, invariant, idle in *. simpl.
    split; [lia|]. split; [done|]. intros Hbusy.
    destruct (Hidle Hbusy). split; [done | lia].
  - apply negb_true_iff in He. specialize (Hidle He) as [_ Hlt].
    unfold idle in He. destruct (listening s) as [seen|] eqn:Hl; [|done].
    unfold onresult, invariant, idle. repeat case_match; simpl;
      rewrite ?length_app; simpl; repeat split; (done || lia).
  - unfold onerror, invariant, idle. repeat case_match; simpl;
      repeat split; (done || lia).
Qed.

Lemma rotation_invariant_reachable s : reachable similarityScore s -> invariant s.
Proof.
  induction 1 as [sup|s e _ IH He].
  - unfold invariant. simpl. repeat split; (done || lia).
  - by apply rotation_invariant_step.
Qed.

Lemma rotation_complete_step s e :
  invariant s -> attempt s = 6 -> enabled s e = true -> e = ClickNewTwister.
Proof.
  intros (Hle & Hlen & Hidle) Hcap He.
  assert (idle s = true) as Hi.
  { destruct (idle s); [done|]. destruct (Hidle eq_refl). lia. }
  destruct e; simpl in He; rewrite ?Hi, ?Hcap in He; by simpl in He.
Qed.

Lemma rotation_reachable_run s es :
  reachable similarityScore s -> allowed similarityScore s es = true ->
  reachable similarityScore (run similarityScore s es).
Proof.
  revert s. induction es as [|e es IH]; intros s Hs Hall; simpl in *; [done|].
  apply andb_true_iff in Hall as [He Hall].
  apply IH; [by apply reachable_step | done].
Qed.

End RotationSession.

(** ** The listings over any engine *)

(** On a class that holds every surrogate and every code point beyond the
    Basic Multilingual Plane, removal by code points is removal by code
    units. *)
Lemma removeAllPoints_units class s :
  (forall c, isHighSurrogate c || isLowSurrogate c = true -> class c = true) ->
  (forall p, (0x10000 <= p)%N -> class p = true) ->
  removeAllPoints class s = removeAll class s.
Proof.
  intros Hsurrogate Hbeyond.
  assert (forall n s, length s <= n -> removeAllPoints class s = removeAll class s)
    as Hgen; [|by apply (Hgen (length s))].
  clear s. induction n as [|n IH]; intros [|c [|low s]] Hlen;
    try done; try (simpl in Hlen; lia).
  - unfold removeAll. simpl. by destruct (class c).
  - change (removeAllPoints class (c :: low :: s)) with
      (if isHighSurrogate c && isLowSurrogate low
       then (if class (codePointOfPair c low)
             then removeAllPoints class s
             else c :: low :: removeAllPoints class s)
       else (if class c
             then removeAllPoints class (low :: s)
             else c :: removeAllPoints class (low :: s))).
    destruct (isHighSurrogate c && isLowSurrogate low) eqn:Hpair.
    + apply andb_true_iff in Hpair as [Hc Hlow].
      rewrite (Hbeyond (codePointOfPair c low)) by (unfold codePointOfPair; lia).
      unfold removeAll. simpl.
      rewrite (Hsurrogate c) by (by rewrite Hc).
      rewrite (Hsurrogate low) by (by rewrite Hlow, orb_true_r). simpl.
      apply IH. simpl in Hlen. lia.
    + rewrite (IH (low :: s)) by (simpl in *; lia).
      unfold removeAll. simpl. by destruct (class c).
Qed.

Lemma repertoire_class_surrogate c :
  isHighSurrogate c || isLowSurrogate c = true ->
  negb (isLetter c || isNumber c || isWhiteSpace c) = true.
Proof.
  unfold isHighSurrogate, isLowSurrogate, isLetter, isNumber, isWhiteSpace.
  intros Hc. apply negb_true_iff.
  destruct (orb _ _) eqn:Hclass in |- *; [|done]. ranges; lia.
Qed.

Lemma repertoire_class_beyond p :
  (0x10000 <= p)%N -> negb (isLetter p || isNumber p || isWhiteSpace p) = true.
Proof.
  unfold isLetter, isNumber, isWhiteSpace.
  intros Hp. apply negb_true_iff.
  destruct (orb _ _) eqn:Hclass in |- *; [|done]. ranges; lia.
Qed.

(** The listings of the modules are the listings at the engine of the
    tables. *)
Lemma ordered_normalizeText_repertoire s :
  OrderedCycle.normalizeText s = AnyEngine.normalizeTextNFC repertoire s.
Proof. reflexivity. Qed.

Lemma random_normalizeText_repertoire s :
  RandomPick.normalizeText s = AnyEngine.normalizeTextNFKD repertoire s.
Proof.
  unfold RandomPick.normalizeText, AnyEngine.normalizeTextNFKD. simpl.
  by rewrite removeAllPoints_units
    by auto using repertoire_class_surrogate, repertoire_class_beyond.
Qed.

Lemma ordered_similarityScore_repertoire t s :
  OrderedCycle.similarityScore t s = AnyEngine.similarityScoreNFC repertoire t s.
Proof. reflexivity. Qed.

Lemma random_similarityScore_repertoire t s :
  RandomPick.similarityScore t s = AnyEngine.similarityScoreNFKD repertoire t s.
Proof.
  unfold RandomPick.similarityScore, AnyEngine.similarityScoreNFKD.
  by rewrite !random_normalizeText_repertoire.
Qed.

Section AnyEngineFacts.

Variable engine : Engine.

Lemma normalizeTextNFC_lower s :
  keeps_empty engine ->
  AnyEngine.normalizeTextNFC engine s =
  trim (collapseWhiteSpace
          (removeAll OrderedCycle.isPunctuation
             (engine_normalizeNFC engine (engine_toLowerCase engine s)))).
Proof.
  intros [Hlower Hnfc]. unfold AnyEngine.normalizeTextNFC.
  destruct s as [|c s]; [|done]. simpl. by rewrite Hlower, Hnfc.
Qed.

Lemma same_lower_same_normalization s s' :
  keeps_empty engine ->
  engine_toLowerCase engine s = engine_toLowerCase engine s' ->
  AnyEngine.normalizeTextNFC engine s = AnyEngine.normalizeTextNFC engine s' /\
  AnyEngine.normalizeTextNFKD engine s = AnyEngine.normalizeTextNFKD engine s'.
Proof.
  intros Hempty Heq. split.
  - rewrite !normalizeTextNFC_lower by done. by rewrite Heq.
  - unfold AnyEngine.normalizeTextNFKD. by rewrite Heq.
Qed.

Lemma same_normalization_same_score_NFC s s' t :
  AnyEngine.normalizeTextNFC engine s = AnyEngine.normalizeTextNFC engine s' ->
  AnyEngine.similarityScoreNFC engine t s = AnyEngine.similarityScoreNFC engine t s' /\
  AnyEngine.similarityScoreNFC engine s t = AnyEngine.similarityScoreNFC engine s' t.
Proof. intros Heq. unfold AnyEngine.similarityScoreNFC. by rewrite Heq. Qed.

Lemma same_normalization_same_score_NFKD s s' t :
  AnyEngine.normalizeTextNFKD engine s = AnyEngine.normalizeTextNFKD engine s' ->
  AnyEngine.similarityScoreNFKD engine t s = AnyEngine.similarityScoreNFKD engine t s' /\
  AnyEngine.similarityScoreNFKD engine s t = AnyEngine.similarityScoreNFKD engine s' t.
Proof. intros Heq. unfold AnyEngine.similarityScoreNFKD. by rewrite Heq. Qed.

End AnyEngineFacts.

(** * The claims *)

(** C1. For every pair of input strings, [similarityScore] returns a record
    whose three fields [score], [charSim] and [wordSim] are fractions of the
    closed interval from 0 to 1; so in both listings. *)
Theorem similarityScore_fields_in_unit_interval :
  (forall target said : jsstring, exists r,
     OrderedCycle.similarityScore target said = Some r /\
     (0 <= score r <= 1)%Q /\ (0 <= charSim r <= 1)%Q /\ (0 <= wordSim r <= 1)%Q)
  /\
  (forall target said : jsstring, exists r,
     RandomPick.similarityScore target said = Some r /\
     (0 <= score r <= 1)%Q /\ (0 <= charSim r <= 1)%Q /\ (0 <= wordSim r <= 1)%Q).
Proof.
  split; intros target said.
  - destruct (decide (OrderedCycle.normalizeText target = [])) as [HA|HA];
      [|destruct (decide (OrderedCycle.normalizeText said = [])) as [HB|HB]].
    + eexists. split; [apply ordered_similarityScore_empty; by left|]. by simpl.
    + eexists. split; [apply ordered_similarityScore_empty; by right|]. by simpl.
    + eexists. split; [by apply ordered_similarityScore_nonempty|]. simpl.
      split; [apply blend_unit|].
      split; [by apply charSimilarity_unit | apply wordSimilarity_unit].
  - destruct (decide (RandomPick.normalizeText target = [])) as [HA|HA];
      [|destruct (decide (RandomPick.normalizeText said = [])) as [HB|HB]].
    + eexists. split; [apply random_similarityScore_empty; by left|]. by simpl.
    + eexists. split; [apply random_similarityScore_empty; by right|]. by simpl.
    + eexists. split; [by apply random_similarityScore_nonempty|]. simpl.
      split; [apply blend_unit|].
      split; [by apply charSimilarity_unit | apply wordSimilarity_unit].
Qed.

(** C2. If either input normalizes to the empty string, [similarityScore]
    returns the record of three zeros instead of failing; in particular
    when either input is the empty string. So in both listings. *)
Theorem similarityScore_empty_is_zero (target said : jsstring) :
  ((OrderedCycle.normalizeText target = [] \/ OrderedCycle.normalizeText said = [] ->
    OrderedCycle.similarityScore target said = Some (mkSimilarity 0 0 0)) /\
   OrderedCycle.similarityScore target [] = Some (mkSimilarity 0 0 0) /\
   OrderedCycle.similarityScore [] said = Some (mkSimilarity 0 0 0))
  /\
  ((RandomPick.normalizeText target = [] \/ RandomPick.normalizeText said = [] ->
    RandomPick.similarityScore target said = Some (mkSimilarity 0 0 0)) /\
   RandomPick.similarityScore target [] = Some (mkSimilarity 0 0 0) /\
   RandomPick.similarityScore [] said = Some (mkSimilarity 0 0 0)).
Proof.
  split; (split; [|split]).
  - apply ordered_similarityScore_empty.
  - apply ordered_similarityScore_empty. by right.
  - apply ordered_similarityScore_empty. by left.
  - apply random_similarityScore_empty.
  - apply random_similarityScore_empty. by right.
  - apply random_similarityScore_empty. by left.
Qed.

Lemma similarityScore_empty_is_zero_witness :
  OrderedCycle.similarityScore (js "?!") (js "hello") = Some (mkSimilarity 0 0 0)
  /\ RandomPick.similarityScore (js "hello") (js " - ") = Some (mkSimilarity 0 0 0).
Proof.
  split.
  - apply (proj1 (proj1 (similarityScore_empty_is_zero (js "?!") (js "hello")))).
    left. vm_compute. reflexivity.
  - apply (proj1 (proj2 (similarityScore_empty_is_zero (js "hello") (js " - ")))).
    right. vm_compute. reflexivity.
Defined.

(** C3, as stated, fails: the two one-letter inputs [a] and [b] normalize to
    themselves, their distance equals the longer length, and [charSim] is 0,
    which is outside the half-open range. *)
Lemma charSim_not_strictly_positive :
  OrderedCycle.normalizeText (js "a") <> [] /\
  OrderedCycle.normalizeText (js "b") <> [] /\
  exists r, OrderedCycle.similarityScore (js "a") (js "b") = Some r /\
            ~ (0 < charSim r)%Q.
Proof.
  split; [by vm_compute|]. split; [by vm_compute|].
  eexists. split; [vm_compute; reflexivity|]. simpl. by vm_compute.
Qed.

(** C3, amended. When both normalizations [A] and [B] are non-empty,
    [charSim] equals 1 - levenshtein(A,B) / max(|A|,|B|) and lies in the
    closed interval from 0 to 1; it is 0 exactly when the distance equals
    the longer length. So in both listings. *)
Theorem charSim_formula_and_range (target said : jsstring) :
  (OrderedCycle.normalizeText target <> [] ->
   OrderedCycle.normalizeText said <> [] ->
   let A := OrderedCycle.normalizeText target in
   let B := OrderedCycle.normalizeText said in
   exists r d,
     OrderedCycle.similarityScore target said = Some r /\
     levenshtein A B = Some d /\
     charSim r = (1 - fraction d (Nat.max (length A) (length B)))%Q /\
     (0 <= charSim r <= 1)%Q /\
     ((charSim r == 0)%Q <-> d = Nat.max (length A) (length B)))
  /\
  (RandomPick.normalizeText target <> [] ->
   RandomPick.normalizeText said <> [] ->
   let A := RandomPick.normalizeText target in
   let B := RandomPick.normalizeText said in
   exists r d,
     RandomPick.similarityScore target said = Some r /\
     levenshtein A B = Some d /\
     charSim r = (1 - fraction d (Nat.max (length A) (length B)))%Q /\
     (0 <= charSim r <= 1)%Q /\
     ((charSim r == 0)%Q <-> d = Nat.max (length A) (length B))).
Proof.
  split; intros HA HB A B.
  - exists (mkSimilarity (blend (charSimilarity A B) (wordSimilarity A B))
              (charSimilarity A B) (wordSimilarity A B)), (lev A B).
    split; [by apply ordered_similarityScore_nonempty|].
    split; [apply levenshtein_lev|]. split; [done|]. simpl.
    split; [by apply charSimilarity_unit | by apply charSimilarity_zero_iff].
  - exists (mkSimilarity (blend (charSimilarity A B) (wordSimilarity A B))
              (charSimilarity A B) (wordSimilarity A B)), (lev A B).
    split; [by apply random_similarityScore_nonempty|].
    split; [apply levenshtein_lev|]. split; [done|]. simpl.
    split; [by apply charSimilarity_unit | by apply charSimilarity_zero_iff].
Qed.

Lemma charSim_formula_and_range_witness :
  exists r d,
    OrderedCycle.similarityScore (js "cat") (js "bat") = Some r /\
    levenshtein (OrderedCycle.normalizeText (js "cat"))
                (OrderedCycle.normalizeText (js "bat")) = Some d /\
    charSim r =
      (1 - fraction d (Nat.max (length (OrderedCycle.normalizeText (js "cat")))
                               (length (OrderedCycle.normalizeText (js "bat")))))%Q /\
    (0 <= charSim r <= 1)%Q /\
    ((charSim r == 0)%Q <->
     d = Nat.max (length (OrderedCycle.normalizeText (js "cat")))
                 (length (OrderedCycle.normalizeText (js "bat")))).
Proof.
  apply (proj1 (charSim_formula_and_range (js "cat") (js "bat")));
    by vm_compute.
Defined.

(** C4, as stated, fails: U+1F600 is one code point and two code units;
    the code returns 2 for its distance to the empty string, and 2 is not
    the edit distance between the code point sequences. *)
Lemma levenshtein_counts_surrogates_twice :
  levenshtein (utf16 [0x1F600%N]) (utf16 []) = Some 2 /\
  ~ edit_distance [0x1F600%N] [] 2.
Proof.
  split; [by vm_compute|].
  intros [_ Hmin].
  assert (edits 1 [0x1F600%N] []) as H1.
  { eapply edits_step; [apply (edit_delete [] 0x1F600%N []) | constructor]. }
  apply Hmin in H1. lia.
Qed.

(** C4, amended. [levenshtein] computes the unit-cost insert, delete and
    substitute edit distance between the two sequences of UTF-16 code
    units. That is the distance between the code point sequences when both
    lie in the Basic Multilingual Plane; a code point beyond it is a
    surrogate pair and counts as two units. *)
Theorem levenshtein_is_code_unit_edit_distance :
  (forall a b : jsstring, exists d, levenshtein a b = Some d /\ edit_distance a b d)
  /\
  (forall p q : list N,
     Forall (fun cp => (cp < 0x10000)%N) p ->
     Forall (fun cp => (cp < 0x10000)%N) q ->
     exists d, levenshtein (utf16 p) (utf16 q) = Some d /\ edit_distance p q d)
  /\
  (forall cp : N, (0x10000 <= cp)%N -> levenshtein (utf16 [cp]) (utf16 []) = Some 2).
Proof.
  split; [|split].
  - intros a b. exists (lev a b). split; [apply levenshtein_lev | apply lev_edit_distance].
  - intros p q Hp Hq. rewrite !utf16_bmp by done.
    exists (lev p q). split; [apply levenshtein_lev | apply lev_edit_distance].
  - intros cp Hcp. rewrite levenshtein_lev. unfold utf16, utf16_unit. simpl.
    apply N.ltb_ge in Hcp. by rewrite Hcp.
Qed.

Lemma levenshtein_is_code_unit_edit_distance_witness :
  (exists d, levenshtein (utf16 (js "cat")) (utf16 (js "bat")) = Some d /\
             edit_distance (js "cat") (js "bat") d) /\
  levenshtein (utf16 [0x1F600%N]) (utf16 []) = Some 2.
Proof.
  split.
  - apply (proj1 (proj2 levenshtein_is_code_unit_edit_distance));
      vm_compute; repeat constructor.
  - apply (proj2 (proj2 levenshtein_is_code_unit_edit_distance)).
    vm_compute. discriminate.
Defined.

(** C5, as stated, fails in the first listing: [normalize("NFC")] keeps
    the accented letter, so the two normalizations differ in one code unit
    out of four and [charSim] is 3/4. *)
Lemma first_listing_keeps_accents :
  exists r,
    OrderedCycle.similarityScore [0x43; 0x61; 0x66; 0xE9]%N (js "cafe") = Some r /\
    ~ (charSim r == 1)%Q.
Proof.
  eexists. split; [vm_compute; reflexivity|]. simpl. by vm_compute.
Qed.

(** C5, amended. [similarityScore] is case-insensitive in both listings,
    whatever the engine's [toLowerCase] does: two inputs with the same
    lower-case form have the same normalization and are interchangeable
    on either side. It is accent-insensitive in the second listing (NFKD,
    combining marks removed): two inputs whose lower-cased NFKD forms are
    equal once the code units U+0300 to U+036F are removed have the same
    normalization and are interchangeable. The listings of the modules
    are these at the engine of the tables, where the upper-case and the
    lower-case spelling of the accented word have [charSim] 1 in both
    listings, the accented and the plain word have [charSim] 1 in the
    second, and 3/4 in the first (NFC), which keeps the accent. *)
Theorem similarityScore_case_and_accent :
  (forall engine s s',
     keeps_empty engine ->
     engine_toLowerCase engine s = engine_toLowerCase engine s' ->
     AnyEngine.normalizeTextNFC engine s = AnyEngine.normalizeTextNFC engine s' /\
     AnyEngine.normalizeTextNFKD engine s = AnyEngine.normalizeTextNFKD engine s' /\
     forall t,
       AnyEngine.similarityScoreNFC engine t s = AnyEngine.similarityScoreNFC engine t s' /\
       AnyEngine.similarityScoreNFC engine s t = AnyEngine.similarityScoreNFC engine s' t /\
       AnyEngine.similarityScoreNFKD engine t s = AnyEngine.similarityScoreNFKD engine t s' /\
       AnyEngine.similarityScoreNFKD engine s t = AnyEngine.similarityScoreNFKD engine s' t)
  /\
  (forall engine s s',
     removeAll isCombiningMark
       (engine_normalizeNFKD engine (engine_toLowerCase engine s)) =
     removeAll isCombiningMark
       (engine_normalizeNFKD engine (engine_toLowerCase engine s')) ->
     AnyEngine.normalizeTextNFKD engine s = AnyEngine.normalizeTextNFKD engine s' /\
     forall t,
       AnyEngine.similarityScoreNFKD engine t s = AnyEngine.similarityScoreNFKD engine t s' /\
       AnyEngine.similarityScoreNFKD engine s t = AnyEngine.similarityScoreNFKD engine s' t)
  /\
  (forall t s,
     OrderedCycle.similarityScore t s = AnyEngine.similarityScoreNFC repertoire t s /\
     RandomPick.similarityScore t s = AnyEngine.similarityScoreNFKD repertoire t s)
  /\
  (exists r, OrderedCycle.similarityScore [0x43; 0x41; 0x46; 0xC9]%N
                                          [0x63; 0x61; 0x66; 0xE9]%N = Some r /\
             (charSim r == 1)%Q) /\
  (exists r, RandomPick.similarityScore [0x43; 0x41; 0x46; 0xC9]%N
                                        [0x63; 0x61; 0x66; 0xE9]%N = Some r /\
             (charSim r == 1)%Q) /\
  (exists r, RandomPick.similarityScore [0x43; 0x61; 0x66; 0xE9]%N (js "cafe") = Some r /\
             (charSim r == 1)%Q) /\
  (exists r, OrderedCycle.similarityScore [0x43; 0x61; 0x66; 0xE9]%N (js "cafe") = Some r /\
             (charSim r == 3 # 4)%Q).
Proof.
  split; [|split; [|split]].
  - intros engine s s' Hempty Heq.
    destruct (same_lower_same_normalization engine s s' Hempty Heq) as [Hfirst Hsecond].
    split; [done|]. split; [done|]. intros t.
    destruct (same_normalization_same_score_NFC engine s s' t Hfirst) as [? ?].
    destruct (same_normalization_same_score_NFKD engine s s' t Hsecond) as [? ?].
    done.
  - intros engine s s' Heq.
    assert (AnyEngine.normalizeTextNFKD engine s = AnyEngine.normalizeTextNFKD engine s')
      as Hsecond.
    { unfold AnyEngine.normalizeTextNFKD. by rewrite Heq. }
    split; [done|]. intros t.
    by apply same_normalization_same_score_NFKD.
  - intros t s. split;
      [apply ordered_similarityScore_repertoire | apply random_similarityScore_repertoire].
  - repeat split; eexists; (split; [vm_compute; reflexivity|]); simpl; by vm_compute.
Qed.

(** The theorem at the engine of the tables: the upper-case and the
    lower-case spelling of the accented word are interchangeable in both
    listings, the accented and the plain word in the second. *)
Lemma similarityScore_case_and_accent_witness :
  (OrderedCycle.similarityScore (js "cafe") [0x43; 0x41; 0x46; 0xC9]%N =
   OrderedCycle.similarityScore (js "cafe") [0x63; 0x61; 0x66; 0xE9]%N /\
   RandomPick.similarityScore (js "cafe") [0x43; 0x41; 0x46; 0xC9]%N =
   RandomPick.similarityScore (js "cafe") [0x63; 0x61; 0x66; 0xE9]%N) /\
  RandomPick.similarityScore (js "cafe") [0x43; 0x61; 0x66; 0xE9]%N =
  RandomPick.similarityScore (js "cafe") (js "cafe").
Proof.
  destruct similarityScore_case_and_accent as (Hcase & Haccent & Hlisting & _).
  split.
  - destruct (Hcase repertoire [0x43; 0x41; 0x46; 0xC9]%N [0x63; 0x61; 0x66; 0xE9]%N
                ltac:(split; reflexivity) ltac:(vm_compute; reflexivity))
      as (_ & _ & Hscore).
    destruct (Hscore (js "cafe")) as (Hfirst & _ & Hsecond & _).
    rewrite !(proj1 (Hlisting _ _)), !(proj2 (Hlisting _ _)). by split.
  - destruct (Haccent repertoire [0x43; 0x61; 0x66; 0xE9]%N (js "cafe")
                ltac:(vm_compute; reflexivity)) as (_ & Hscore).
    rewrite !(proj2 (Hlisting _ _)). apply (Hscore (js "cafe")).
Defined.

(** C6. For every string whose normalization is non-empty, comparing it
    with itself gives [score] 1 and [charSim] 1; so in both listings. *)
Theorem similarityScore_self_is_perfect (x : jsstring) :
  (OrderedCycle.normalizeText x <> [] ->
   exists r, OrderedCycle.similarityScore x x = Some r /\
             (score r == 1)%Q /\ (charSim r == 1)%Q)
  /\
  (RandomPick.normalizeText x <> [] ->
   exists r, RandomPick.similarityScore x x = Some r /\
             (score r == 1)%Q /\ (charSim r == 1)%Q).
Proof.
  split; intros Hx.
  - eexists. split; [by apply ordered_similarityScore_nonempty|]. simpl.
    split; [|by apply charSimilarity_same].
    apply blend_ones; [by apply charSimilarity_same | apply wordSimilarity_same].
  - eexists. split; [by apply random_similarityScore_nonempty|]. simpl.
    split; [|by apply charSimilarity_same].
    apply blend_ones; [by apply charSimilarity_same | apply wordSimilarity_same].
Qed.

Lemma similarityScore_self_is_perfect_witness :
  (exists r, OrderedCycle.similarityScore (js "She sells seashells.")
                                          (js "She sells seashells.") = Some r /\
             (score r == 1)%Q /\ (charSim r == 1)%Q) /\
  (exists r, RandomPick.similarityScore (js "She sells seashells.")
                                        (js "She sells seashells.") = Some r /\
             (score r == 1)%Q /\ (charSim r == 1)%Q).
Proof.
  split.
  - apply (proj1 (similarityScore_self_is_perfect (js "She sells seashells."))).
    by vm_compute.
  - apply (proj2 (similarityScore_self_is_perfect (js "She sells seashells."))).
    by vm_compute.
Defined.

(** C7. [levenshtein] is a metric on strings: the distance of a string to
    itself is 0, the distance is symmetric, and it satisfies the triangle
    inequality. *)
Theorem levenshtein_metric (a b c : jsstring) :
  levenshtein a a = Some 0 /\
  levenshtein a b = levenshtein b a /\
  exists dac dab dbc,
    levenshtein a c = Some dac /\ levenshtein a b = Some dab /\
    levenshtein b c = Some dbc /\ dac <= dab + dbc.
Proof.
  rewrite !levenshtein_lev. split; [by rewrite lev_refl|].
  split; [by rewrite lev_sym|].
  exists (lev a c), (lev a b), (lev b c). repeat split. apply lev_triangle.
Qed.

(** C8. The claim fails on the code, in both listings. In the first, the
    result for [e . U+0301] is [e U+0301]: removing the full stop, after
    NFC has run, brings the letter and the combining acute together, and a
    second pass composes them into U+00E9. In the second, the result for
    U+2122 is the upper-case [TM]: NFKD, after [toLowerCase] has run,
    yields the letters T and M, which only a second pass lower-cases. *)
Theorem normalizeText_not_idempotent :
  (OrderedCycle.normalizeText [0x65; 0x2E; 0x301]%N = [0x65; 0x301]%N /\
   OrderedCycle.normalizeText (OrderedCycle.normalizeText [0x65; 0x2E; 0x301]%N)
     = [0xE9]%N /\
   OrderedCycle.normalizeText (OrderedCycle.normalizeText [0x65; 0x2E; 0x301]%N)
     <> OrderedCycle.normalizeText [0x65; 0x2E; 0x301]%N)
  /\
  (RandomPick.normalizeText [0x2122]%N = [0x54; 0x4D]%N /\
   RandomPick.normalizeText (RandomPick.normalizeText [0x2122]%N) = [0x74; 0x6D]%N /\
   RandomPick.normalizeText (RandomPick.normalizeText [0x2122]%N)
     <> RandomPick.normalizeText [0x2122]%N).
Proof. repeat split; by vm_compute. Qed.

(** C9. In every reachable state of the session the number of recorded
    attempts is at most the cap of 6, and the history has exactly that many
    entries. Once the cap is reached the final card shows the greatest
    recorded score, the only button left is the one that advances to
    another twister (which empties the history), and no callback records a
    further attempt. So in the first listing and in the third (whatever its
    scorer). *)
Theorem attempts_never_exceed_cap :
  OrderedCycle.maxAttempts = 6 /\
  (forall s, OrderedCycle.reachable s ->
     OrderedCycle.attempt s <= OrderedCycle.maxAttempts /\
     length (OrderedCycle.scores s) = OrderedCycle.attempt s /\
     (OrderedCycle.attempt s = OrderedCycle.maxAttempts ->
        (exists best, OrderedCycle.finalScore s = Some best /\
           best ∈ map entry_score (OrderedCycle.scores s) /\
           Forall (fun x => (x <= best)%Z) (map entry_score (OrderedCycle.scores s))) /\
        (OrderedCycle.enabled s OrderedCycle.ClickNewTwister = true /\
         OrderedCycle.attempt (OrderedCycle.step s OrderedCycle.ClickNewTwister) = 0 /\
         OrderedCycle.scores (OrderedCycle.step s OrderedCycle.ClickNewTwister) = []) /\
        forall e, OrderedCycle.enabled s e = true ->
          (OrderedCycle.isClick e = true -> e = OrderedCycle.ClickNewTwister) /\
          (e = OrderedCycle.ClickNewTwister \/
           OrderedCycle.attempt (OrderedCycle.step s e) = OrderedCycle.attempt s /\
           OrderedCycle.scores (OrderedCycle.step s e) = OrderedCycle.scores s)))
  /\
  (forall similarityScore s, Rotation.reachable similarityScore s ->
     Rotation.attempt s <= 6 /\
     length (Rotation.scores s) = Rotation.attempt s /\
     (Rotation.attempt s = 6 ->
        (exists best, Rotation.finalScore s = Some best /\
           best ∈ map entry_score (Rotation.scores s) /\
           Forall (fun x => (x <= best)%Z) (map entry_score (Rotation.scores s))) /\
        (Rotation.enabled s Rotation.ClickNewTwister = true /\
         Rotation.attempt (Rotation.step similarityScore s Rotation.ClickNewTwister) = 0 /\
         Rotation.scores (Rotation.step similarityScore s Rotation.ClickNewTwister) = []) /\
        forall e, Rotation.enabled s e = true -> e = Rotation.ClickNewTwister)).
Proof.
  split; [done|]. split.
  - intros s Hs%ordered_invariant_reachable.
    pose proof Hs as (Hle & Hlen & _). split; [done|]. split; [done|].
    intros Hcap. split; [|split].
    + apply Math_max_spec. intros Hnil%(f_equal length).
      rewrite length_map, Hlen, Hcap in Hnil. done.
    + unfold OrderedCycle.step, OrderedCycle.effect. simpl. rewrite Hcap.
      split; [done|]. by case_match.
    + intros e He. by apply ordered_complete_step.
  - intros scorer s Hs%rotation_invariant_reachable.
    pose proof Hs as (Hle & Hlen & _). split; [done|]. split; [done|].
    intros Hcap. split; [|split].
    + apply Math_max_spec. intros Hnil%(f_equal length).
      rewrite length_map, Hlen, Hcap in Hnil. done.
    + unfold Rotation.step, Rotation.effect. simpl. rewrite Hcap.
      split; [done|]. by case_match.
    + intros e He. by apply (rotation_complete_step s).
Qed.

(** The theorem at the state after a warm-up and five further attempts:
    the state is reachable, the cap is reached, the final card shows 100,
    and a click on the last button starts over. *)
Lemma attempts_never_exceed_cap_witness :
  (let s := OrderedCycle.run (OrderedCycle.initial true) OrderedCycle.sixAttempts in
   OrderedCycle.reachable s /\
   OrderedCycle.attempt s = 6 /\
   length (OrderedCycle.scores s) = 6 /\
   OrderedCycle.finalScore s = Some 100%Z /\
   OrderedCycle.attempt (OrderedCycle.step s OrderedCycle.ClickNewTwister) = 0)
  /\
  (let s := Rotation.run RandomPick.similarityScore (Rotation.initial true)
              Rotation.sixAttempts in
   Rotation.reachable RandomPick.similarityScore s /\
   Rotation.attempt s = 6 /\
   length (Rotation.scores s) = 6 /\
   Rotation.finalScore s = Some 100%Z /\
   Rotation.attempt (Rotation.step RandomPick.similarityScore s
                       Rotation.ClickNewTwister) = 0).
Proof.
  split.
  - assert (OrderedCycle.reachable
              (OrderedCycle.run (OrderedCycle.initial true) OrderedCycle.sixAttempts))
      as Hreach.
    { apply ordered_reachable_run; [constructor | vm_compute; reflexivity]. }
    destruct (proj1 (proj2 attempts_never_exceed_cap) _ Hreach)
      as (_ & Hlen & Hcap).
    destruct (Hcap ltac:(vm_compute; reflexivity)) as (_ & (_ & Hzero & _) & _).
    split; [exact Hreach|]. split; [vm_compute; reflexivity|].
    split; [rewrite Hlen; vm_compute; reflexivity|].
    split; [vm_compute; reflexivity | exact Hzero].
  - assert (Rotation.reachable RandomPick.similarityScore
              (Rotation.run RandomPick.similarityScore (Rotation.initial true)
                 Rotation.sixAttempts)) as Hreach.
    { apply rotation_reachable_run; [constructor | vm_compute; reflexivity]. }
    destruct (proj2 (proj2 attempts_never_exceed_cap) _ _ Hreach)
      as (_ & Hlen & Hcap).
    destruct (Hcap ltac:(vm_compute; reflexivity)) as (_ & (_ & Hzero & _) & _).
    split; [exact Hreach|]. split; [vm_compute; reflexivity|].
    split; [rewrite Hlen; vm_compute; reflexivity|].
    split; [vm_compute; reflexivity | exact Hzero].
Defined.

(** C10. Past the guard, that is when both normalizations are non-empty,
    every division of [similarityScore] is by a positive number: the longer
    length is positive, and splitting on single spaces yields at least one
    word, so the fallback of [wordSim] is never taken and the call returns
    the quotients themselves. So in both listings. *)
Theorem similarityScore_divisors_positive (target said : jsstring) :
  (let A := OrderedCycle.normalizeText target in
   let B := OrderedCycle.normalizeText said in
   A <> [] -> B <> [] ->
   0 < Nat.max (length A) (length B) /\
   0 < length (split_space B) /\
   exists d q w,
     levenshtein A B = Some d /\
     quotient d (Nat.max (length A) (length B)) = Some q /\
     quotient (countHits (list_to_set (split_space A)) (split_space B))
              (length (split_space B)) = Some w /\
     OrderedCycle.similarityScore target said =
       Some (mkSimilarity (blend (1 - q) w) (1 - q) w))
  /\
  (let A := RandomPick.normalizeText target in
   let B := RandomPick.normalizeText said in
   A <> [] -> B <> [] ->
   0 < Nat.max (length A) (length B) /\
   0 < length (split_space B) /\
   exists d q w,
     levenshtein A B = Some d /\
     quotient d (Nat.max (length A) (length B)) = Some q /\
     quotient (countHits (list_to_set (split_space A)) (split_space B))
              (length (split_space B)) = Some w /\
     RandomPick.similarityScore target said =
       Some (mkSimilarity (blend (1 - q) w) (1 - q) w)).
Proof.
  split; intros A B HA HB;
    pose proof (maxLen_positive A B HA) as Hmax;
    pose proof (split_space_length B) as Hwords;
    (split; [lia|]); (split; [done|]);
    eexists _, _, _; (split; [apply levenshtein_lev|]);
    (split; [by apply quotient_Some|]);
    (split; [apply quotient_Some; lia|]).
  - by apply ordered_similarityScore_nonempty.
  - by apply random_similarityScore_nonempty.
Qed.

Lemma similarityScore_divisors_positive_witness :
  let A := OrderedCycle.normalizeText (js "the cat sat") in
  let B := OrderedCycle.normalizeText (js "the cat ran") in
  0 < Nat.max (length A) (length B) /\
  0 < length (split_space B) /\
  exists d q w,
    levenshtein A B = Some d /\
    quotient d (Nat.max (length A) (length B)) = Some q /\
    quotient (countHits (list_to_set (split_space A)) (split_space B))
             (length (split_space B)) = Some w /\
    OrderedCycle.similarityScore (js "the cat sat") (js "the cat ran") =
      Some (mkSimilarity (blend (1 - q) w) (1 - q) w).
Proof.
  apply (proj1 (similarityScore_divisors_positive (js "the cat sat") (js "the cat ran")));
    by vm_compute.
Defined.

(** * Further properties *)

(** ** The distance: further facts *)

Section EditDistanceMore.

Context {A : Type} `{EqDecision A}.
Implicit Types a b c : list A.

Lemma lev_zero_eq a b : lev a b = 0 -> a = b.
Proof.
  revert b. induction a as [|x a IH]; intros [|y b]; simpl lev; try done.
  fold (lev a (y :: b)). fold (lev a b). intros H0.
  assert (lev a b = 0 /\ differ x y = 0) as [Hab Hxy] by lia.
  unfold differ in Hxy. case_decide; [|done]. subst. f_equal. by apply IH.
Qed.

Lemma alignment_lengths a b n :
  alignment a b n -> length a <= length b + n /\ length b <= length a + n.
Proof. induction 1; simpl; lia. Qed.

Lemma lev_ge_length_difference a b :
  length a - length b <= lev a b /\ length b - length a <= lev a b.
Proof.
  pose proof (alignment_lengths a b _ (alignment_lev a b)). lia.
Qed.

Lemma lev_cons_same x a b : lev (x :: a) (x :: b) = lev a b.
Proof.
  apply Nat.le_antisymm.
  - rewrite lev_cons_cons, differ_same. lia.
  - rewrite lev_cons_cons, differ_same.
    pose proof (lev_triangle a (x :: b) b) as H1.
    pose proof (lev_triangle a (x :: a) b) as H2.
    assert (lev (x :: b) b <= 1) as H3
      by apply lev_le_alignment, al_delete, alignment_refl.
    assert (lev a (x :: a) <= 1) as H4
      by apply lev_le_alignment, al_insert, alignment_refl.
    lia.
Qed.

Lemma lev_common_prefix p a b : lev (p ++ a) (p ++ b) = lev a b.
Proof. induction p as [|x p IH]; simpl app; [done|]. by rewrite lev_cons_same. Qed.

Lemma lev_common_suffix s a b : lev (a ++ s) (b ++ s) = lev a b.
Proof.
  rewrite <- (lev_reverse (a ++ s)), !reverse_app, lev_common_prefix.
  apply lev_reverse.
Qed.

End EditDistanceMore.

(** X1. [levenshtein] returns 0 exactly when the two strings are equal,
    code unit by code unit. *)
Theorem levenshtein_zero_iff_equal (a b : list N) :
  levenshtein a b = Some 0 <-> a = b.
Proof.
  rewrite levenshtein_lev. split.
  - intros [= H0]. by apply lev_zero_eq.
  - intros ->. by rewrite lev_refl.
Qed.

(** X2. [levenshtein] always returns a distance; it is at least the
    difference of the two lengths and at most the longer length, and the
    distance to the empty string is the length of the other string. *)
Theorem levenshtein_bounds (a b : list N) :
  exists d, levenshtein a b = Some d /\
    length a - length b <= d /\ length b - length a <= d /\
    d <= Nat.max (length a) (length b) /\
    levenshtein a [] = Some (length a) /\ levenshtein [] b = Some (length b).
Proof.
  exists (lev a b). rewrite !levenshtein_lev.
  pose proof (lev_ge_length_difference a b). pose proof (lev_le_max a b).
  repeat split; try lia. by rewrite lev_nil_r.
Qed.

(** X3. A common prefix and a common suffix do not count: the distance
    of [p ++ a ++ s] and [p ++ b ++ s] is the distance of [a] and [b]. *)
Theorem levenshtein_common_affixes (p s a b : list N) :
  levenshtein (p ++ a ++ s) (p ++ b ++ s) = levenshtein a b.
Proof. by rewrite !levenshtein_lev, lev_common_prefix, lev_common_suffix. Qed.

Lemma edit1_sym {A : Type} (a b : list A) : edit1 a b -> edit1 b a.
Proof. intros [l x r|l x r|l x y r]; constructor. Qed.

(** X4. One more or one less edit in the second string (a code unit
    inserted, deleted or replaced) moves the distance by one at most. *)
Theorem levenshtein_one_edit (a b b' : list N) :
  edit1 b b' ->
  exists d d', levenshtein a b = Some d /\ levenshtein a b' = Some d' /\
               d <= d' + 1 /\ d' <= d + 1.
Proof.
  intros Hb. exists (lev a b), (lev a b'). rewrite !levenshtein_lev.
  pose proof (lev_edit1 _ _ Hb). pose proof (lev_edit1 _ _ (edit1_sym _ _ Hb)).
  pose proof (lev_triangle a b b'). pose proof (lev_triangle a b' b).
  repeat split; lia.
Qed.

Lemma levenshtein_one_edit_witness :
  exists d d', levenshtein (js "cat") (js "cart") = Some d /\
               levenshtein (js "cat") (js "cat") = Some d' /\
               d <= d' + 1 /\ d' <= d + 1.
Proof.
  apply levenshtein_one_edit.
  apply (edit_delete (js "ca") 114%N (js "t")).
Defined.

(** ** The scorer: further facts *)

Lemma blend_inside c w :
  unit_interval c -> unit_interval w ->
  (blend c w == (7 # 10) * c + (3 # 10) * w)%Q.
Proof.
  unfold unit_interval, blend. intros [Hc0 Hc1] [Hw0 Hw1].
  rewrite Q.min_r by lra. apply Q.max_r. lra.
Qed.

Lemma blend_one_iff c w :
  unit_interval c -> unit_interval w ->
  (blend c w == 1)%Q <-> (c == 1)%Q /\ (w == 1)%Q.
Proof.
  intros Hc Hw. rewrite (blend_inside c w Hc Hw).
  destruct Hc, Hw. split; [intros Hq; split; lra | intros [-> ->]; lra].
Qed.

Lemma fraction_zero_iff x y : 0 < y -> (fraction x y == 0)%Q <-> x = 0.
Proof.
  intros Hy. split; [|intros ->; apply fraction_zero].
  unfold fraction. intros Hq.
  pose proof (inject_nat_nonzero y Hy) as Hne.
  assert (inject_Z (Z.of_nat x) == 0)%Q as Hx.
  { rewrite <- (Qmult_div_r (inject_Z (Z.of_nat x)) (inject_Z (Z.of_nat y))) by done.
    rewrite Hq. apply Qmult_0_r. }
  revert Hx. unfold Qeq. simpl. lia.
Qed.

Lemma charSimilarity_one_iff A B :
  A <> [] -> (charSimilarity A B == 1)%Q <-> A = B.
Proof.
  intros HA. pose proof (maxLen_positive A B HA).
  unfold charSimilarity. split.
  - intros Hq. apply lev_zero_eq. apply (fraction_zero_iff _ (Nat.max (length A) (length B))); [lia|]. lra.
  - intros <-. rewrite lev_refl, fraction_zero. lra.
Qed.

Lemma charSimilarity_sym A B : charSimilarity A B = charSimilarity B A.
Proof. unfold charSimilarity. by rewrite lev_sym, Nat.max_comm. Qed.

Lemma countHits_none (ta : gset (list N)) ba :
  countHits ta ba = 0 <-> forall w, w ∈ ba -> w ∉ ta.
Proof.
  induction ba as [|w ba IH].
  - split; [intros _ w Hw; by apply elem_of_nil in Hw | done].
  - rewrite countHits_cons. split.
    + intros H0 w' Hw'. case_decide as Hin; [lia|].
      apply elem_of_cons in Hw' as [->|Hw']; [done|]. apply IH; [lia | done].
    + intros Hnone. rewrite decide_False by (apply Hnone; left).
      simpl. apply IH. intros w' Hw'. apply Hnone. by right.
Qed.

Lemma countHits_full (ta : gset (list N)) ba :
  countHits ta ba = length ba <-> forall w, w ∈ ba -> w ∈ ta.
Proof.
  split; [|apply countHits_all].
  induction ba as [|w ba IH]; intros Hfull w' Hw'; [by apply elem_of_nil in Hw'|].
  rewrite countHits_cons in Hfull. simpl in Hfull.
  pose proof (countHits_le ta ba).
  case_decide as Hin; [|lia].
  apply elem_of_cons in Hw' as [->|Hw']; [done|]. apply IH; [lia | done].
Qed.

Lemma wordSimilarity_one_iff A B :
  (wordSimilarity A B == 1)%Q <->
  forall w, w ∈ split_space B -> w ∈ split_space A.
Proof.
  unfold wordSimilarity. rewrite fraction_one_iff by apply split_space_length.
  rewrite countHits_full. by setoid_rewrite elem_of_list_to_set.
Qed.

Lemma wordSimilarity_zero_iff A B :
  (wordSimilarity A B == 0)%Q <->
  forall w, w ∈ split_space B -> w ∉ split_space A.
Proof.
  unfold wordSimilarity. rewrite fraction_zero_iff by apply split_space_length.
  rewrite countHits_none. by setoid_rewrite elem_of_list_to_set.
Qed.

(** X5. The clamp of [similarityScore] is never active: [score] is
    always the weighted sum, seven tenths of [charSim] plus three tenths
    of [wordSim]; so in both listings. *)
Theorem score_is_weighted_sum :
  (forall target said : list N, exists r,
     OrderedCycle.similarityScore target said = Some r /\
     (score r == (7 # 10) * charSim r + (3 # 10) * wordSim r)%Q)
  /\
  (forall target said : list N, exists r,
     RandomPick.similarityScore target said = Some r /\
     (score r == (7 # 10) * charSim r + (3 # 10) * wordSim r)%Q).
Proof.
  split; intros target said.
  - destruct (decide (OrderedCycle.normalizeText target = [])) as [HA|HA];
      [|destruct (decide (OrderedCycle.normalizeText said = [])) as [HB|HB]].
    + eexists. split; [apply ordered_similarityScore_empty; by left|]. by simpl.
    + eexists. split; [apply ordered_similarityScore_empty; by right|]. by simpl.
    + eexists. split; [by apply ordered_similarityScore_nonempty|]. simpl.
      apply blend_inside; [by apply charSimilarity_unit | apply wordSimilarity_unit].
  - destruct (decide (RandomPick.normalizeText target = [])) as [HA|HA];
      [|destruct (decide (RandomPick.normalizeText said = [])) as [HB|HB]].
    + eexists. split; [apply random_similarityScore_empty; by left|]. by simpl.
    + eexists. split; [apply random_similarityScore_empty; by right|]. by simpl.
    + eexists. split; [by apply random_similarityScore_nonempty|]. simpl.
      apply blend_inside; [by apply charSimilarity_unit | apply wordSimilarity_unit].
Qed.

Lemma perfect_iff_equal A B :
  A <> [] ->
  let c := charSimilarity A B in
  let w := wordSimilarity A B in
  ((blend c w == 1)%Q <-> A = B) /\ ((c == 1)%Q <-> A = B).
Proof.
  intros HA c w. split; [|by apply charSimilarity_one_iff].
  rewrite blend_one_iff by (by apply charSimilarity_unit || apply wordSimilarity_unit).
  unfold c, w. rewrite charSimilarity_one_iff by done. split; [by intros [? _]|].
  intros <-. split; [done | apply wordSimilarity_same].
Qed.

(** X6. When both normalizations are non-empty, [score] is 1 exactly
    when the two normalizations are the same string, and so is [charSim];
    so in both listings. *)
Theorem perfect_score_iff_same_normalization (target said : list N) :
  (let A := OrderedCycle.normalizeText target in
   let B := OrderedCycle.normalizeText said in
   A <> [] -> B <> [] ->
   exists r, OrderedCycle.similarityScore target said = Some r /\
             ((score r == 1)%Q <-> A = B) /\ ((charSim r == 1)%Q <-> A = B))
  /\
  (let A := RandomPick.normalizeText target in
   let B := RandomPick.normalizeText said in
   A <> [] -> B <> [] ->
   exists r, RandomPick.similarityScore target said = Some r /\
             ((score r == 1)%Q <-> A = B) /\ ((charSim r == 1)%Q <-> A = B)).
Proof.
  split; intros A B HA HB.
  - eexists. split; [by apply ordered_similarityScore_nonempty|]. simpl.
    by apply perfect_iff_equal.
  - eexists. split; [by apply random_similarityScore_nonempty|]. simpl.
    by apply perfect_iff_equal.
Qed.

Lemma perfect_score_iff_same_normalization_witness :
  exists r, OrderedCycle.similarityScore (js "Hello, world!") (js "hello world") = Some r /\
    ((score r == 1)%Q <->
     OrderedCycle.normalizeText (js "Hello, world!") = OrderedCycle.normalizeText (js "hello world")) /\
    ((charSim r == 1)%Q <->
     OrderedCycle.normalizeText (js "Hello, world!") = OrderedCycle.normalizeText (js "hello world")).
Proof.
  apply (proj1 (perfect_score_iff_same_normalization (js "Hello, world!") (js "hello world")));
    by vm_compute.
Defined.

(** X7. [charSim] does not depend on the order of the two arguments
    of [similarityScore]; so in both listings. *)
Theorem charSim_symmetric :
  (forall target said : list N, exists r r',
     OrderedCycle.similarityScore target said = Some r /\
     OrderedCycle.similarityScore said target = Some r' /\
     charSim r = charSim r')
  /\
  (forall target said : list N, exists r r',
     RandomPick.similarityScore target said = Some r /\
     RandomPick.similarityScore said target = Some r' /\
     charSim r = charSim r').
Proof.
  split; intros target said.
  - destruct (decide (OrderedCycle.normalizeText target = [])) as [HA|HA];
      [|destruct (decide (OrderedCycle.normalizeText said = [])) as [HB|HB]].
    + eexists _, _. split; [apply ordered_similarityScore_empty; by left|].
      split; [apply ordered_similarityScore_empty; by right | done].
    + eexists _, _. split; [apply ordered_similarityScore_empty; by right|].
      split; [apply ordered_similarityScore_empty; by left | done].
    + eexists _, _. split; [by apply ordered_similarityScore_nonempty|].
      split; [by apply ordered_similarityScore_nonempty|]. simpl.
      apply charSimilarity_sym.
  - destruct (decide (RandomPick.normalizeText target = [])) as [HA|HA];
      [|destruct (decide (RandomPick.normalizeText said = [])) as [HB|HB]].
    + eexists _, _. split; [apply random_similarityScore_empty; by left|].
      split; [apply random_similarityScore_empty; by right | done].
    + eexists _, _. split; [apply random_similarityScore_empty; by right|].
      split; [apply random_similarityScore_empty; by left | done].
    + eexists _, _. split; [by apply random_similarityScore_nonempty|].
      split; [by apply random_similarityScore_nonempty|]. simpl.
      apply charSimilarity_sym.
Qed.

(** X8. When both normalizations are non-empty, [wordSim] is 1 exactly
    when every word of the normalized transcript is a word of the
    normalized target, and 0 exactly when none is; so in both listings. *)
Theorem wordSim_extremes (target said : list N) :
  (let A := OrderedCycle.normalizeText target in
   let B := OrderedCycle.normalizeText said in
   A <> [] -> B <> [] ->
   exists r, OrderedCycle.similarityScore target said = Some r /\
     ((wordSim r == 1)%Q <-> forall w, w ∈ split_space B -> w ∈ split_space A) /\
     ((wordSim r == 0)%Q <-> forall w, w ∈ split_space B -> w ∉ split_space A))
  /\
  (let A := RandomPick.normalizeText target in
   let B := RandomPick.normalizeText said in
   A <> [] -> B <> [] ->
   exists r, RandomPick.similarityScore target said = Some r /\
     ((wordSim r == 1)%Q <-> forall w, w ∈ split_space B -> w ∈ split_space A) /\
     ((wordSim r == 0)%Q <-> forall w, w ∈ split_space B -> w ∉ split_space A)).
Proof.
  split; intros A B HA HB.
  - eexists. split; [by apply ordered_similarityScore_nonempty|]. simpl.
    split; [apply wordSimilarity_one_iff | apply wordSimilarity_zero_iff].
  - eexists. split; [by apply random_similarityScore_nonempty|]. simpl.
    split; [apply wordSimilarity_one_iff | apply wordSimilarity_zero_iff].
Qed.

Lemma wordSim_extremes_witness :
  exists r, RandomPick.similarityScore (js "the cat sat") (js "the cat") = Some r /\
    ((wordSim r == 1)%Q <->
     forall w, w ∈ split_space (RandomPick.normalizeText (js "the cat")) ->
               w ∈ split_space (RandomPick.normalizeText (js "the cat sat"))) /\
    ((wordSim r == 0)%Q <->
     forall w, w ∈ split_space (RandomPick.normalizeText (js "the cat")) ->
               w ∉ split_space (RandomPick.normalizeText (js "the cat sat"))).
Proof.
  apply (proj2 (wordSim_extremes (js "the cat sat") (js "the cat"))); by vm_compute.
Defined.

(** ** Normalization: the shape of the result *)

Lemma head_trimStart s c : head (trimStart s) = Some c -> isWhiteSpace c = false.
Proof.
  induction s as [|d s IH]; simpl; [done|].
  destruct (isWhiteSpace d) eqn:Hd; [done|]. simpl. by intros [= <-].
Qed.

Lemma head_trimEnd s c : head (trimEnd s) = Some c -> head s = Some c.
Proof.
  destruct s as [|d s]; simpl; [done|].
  destruct (trimEnd s); [|done]. by destruct (isWhiteSpace d).
Qed.

Lemma last_trimEnd s c : last (trimEnd s) = Some c -> isWhiteSpace c = false.
Proof.
  induction s as [|d s IH]; simpl; [done|].
  destruct (trimEnd s) as [|d' t].
  - destruct (isWhiteSpace d) eqn:Hd; [done|]. simpl. by intros [= <-].
  - done.
Qed.

Lemma head_trim s c : head (trim s) = Some c -> isWhiteSpace c = false.
Proof. intros Hc%head_trimEnd. by apply head_trimStart in Hc. Qed.

Lemma last_trim s c : last (trim s) = Some c -> isWhiteSpace c = false.
Proof. apply last_trimEnd. Qed.

Lemma spaced_trim_collapse s : spaced false (trim (collapseWhiteSpace s)).
Proof. apply spaced_trimEnd, spaced_trimStart, spaced_collapseFrom. Qed.

(** After the collapse every unit is U+0020 or was no white space. *)
(** The words of a string in normal form. *)
Lemma split_space_spaced s b :
  spaced b s -> (forall c, last s = Some c -> isWhiteSpace c = false) ->
  exists w ws, split_space s = w :: ws /\
    Forall (fun v => Forall (fun c => isWhiteSpace c = false) v) (w :: ws) /\
    Forall (fun v => v <> []) ws /\
    (w = [] -> s = [] \/ exists s', s = SPACE :: s').
Proof.
  revert b. induction s as [|c s IH]; intros b Hsp Hlast.
  - exists [], []. simpl. repeat split; auto.
  - simpl in Hsp. simpl split_space.
    assert (forall d, last s = Some d -> isWhiteSpace d = false) as Hlast'.
    { intros d Hd. apply Hlast. destruct s; [done|]. done. }
    destruct (isWhiteSpace c) eqn:Hc.
    + destruct Hsp as (-> & -> & Hsp). simpl.
      destruct (IH true Hsp Hlast') as (w & ws & -> & Hfree & Hne & Hw).
      exists [], (w :: ws). split; [done|]. split; [by constructor|].
      split; [|right; by eexists].
      constructor; [|done]. intros ->. destruct (Hw eq_refl) as [->|[s' ->]].
      * by specialize (Hlast SPACE eq_refl).
      * simpl in Hsp. by destruct Hsp as (_ & ? & _).
    + assert ((c =? SPACE)%N = false) as ->.
      { apply N.eqb_neq. by intros ->. }
      destruct (IH false Hsp Hlast') as (w & ws & -> & Hfree & Hne & Hw).
      exists (c :: w), ws. split; [done|].
      apply Forall_cons in Hfree as [Hw' Hws]. repeat split; auto.
      intros [=].
Qed.

Lemma words_of_normal_form t :
  t <> [] -> spaced false t ->
  (forall c, head t = Some c -> isWhiteSpace c = false) ->
  (forall c, last t = Some c -> isWhiteSpace c = false) ->
  Forall (fun w => w <> [] /\ Forall (fun c => isWhiteSpace c = false) w) (split_space t).
Proof.
  intros Hne Hsp Hhead Hlast.
  destruct (split_space_spaced t false Hsp Hlast) as (w & ws & -> & Hfree & Hws & Hw).
  apply Forall_cons in Hfree as [Hfw Hfws]. constructor.
  - split; [|done]. intros ->. destruct (Hw eq_refl) as [->|[s' ->]]; [done|].
    by specialize (Hhead SPACE eq_refl).
  - apply Forall_forall. intros v Hv. split.
    + by apply (proj1 (Forall_forall _ _) Hws).
    + by apply (proj1 (Forall_forall _ _) Hfws).
Qed.

Lemma Forall_removeAllPoints (P : N -> Prop) class s :
  Forall P s -> Forall P (removeAllPoints class s).
Proof.
  assert (forall n s, length s <= n -> Forall P s -> Forall P (removeAllPoints class s))
    as Hgen; [|by apply (Hgen (length s))].
  clear s. induction n as [|n IH]; intros [|c [|low s]] Hlen Hs;
    try done; try (simpl in Hlen; lia).
  - simpl. by case_match.
  - change (removeAllPoints class (c :: low :: s)) with
      (if isHighSurrogate c && isLowSurrogate low
       then (if class (codePointOfPair c low)
             then removeAllPoints class s
             else c :: low :: removeAllPoints class s)
       else (if class c
             then removeAllPoints class (low :: s)
             else c :: removeAllPoints class (low :: s))).
    apply Forall_cons in Hs as [Hc Hs]. pose proof Hs as Hrest.
    apply Forall_cons in Hs as [Hlow Hs]. simpl in Hlen.
    assert (Forall P (removeAllPoints class s)) by (apply IH; [lia | done]).
    assert (Forall P (removeAllPoints class (low :: s)))
      by (apply IH; [simpl; lia | done]).
    repeat case_match; auto.
Qed.

(** X9. With any engine, the result of [normalizeText] has no white
    space other than single U+0020 between two other code units and does
    not begin or end with white space; in the first listing it holds no
    code unit of the punctuation class, in the second no code unit U+0300
    to U+036F. The listings of the modules are these at the engine of the
    tables. *)
Theorem normalizeText_shape (engine : Engine) (s : list N) :
  (let t := AnyEngine.normalizeTextNFC engine s in
   spaced false t /\
   (forall c, head t = Some c -> isWhiteSpace c = false) /\
   (forall c, last t = Some c -> isWhiteSpace c = false) /\
   Forall (fun c => OrderedCycle.isPunctuation c = false) t)
  /\
  (let t := AnyEngine.normalizeTextNFKD engine s in
   spaced false t /\
   (forall c, head t = Some c -> isWhiteSpace c = false) /\
   (forall c, last t = Some c -> isWhiteSpace c = false) /\
   Forall (fun c => isCombiningMark c = false) t)
  /\
  OrderedCycle.normalizeText s = AnyEngine.normalizeTextNFC repertoire s /\
  RandomPick.normalizeText s = AnyEngine.normalizeTextNFKD repertoire s.
Proof.
  split; [|split].
  - unfold AnyEngine.normalizeTextNFC. destruct (falsy s); [by repeat split|].
    split; [apply spaced_trim_collapse|]. split; [apply head_trim|].
    split; [apply last_trim|].
    apply (Forall_trim_collapse (fun c => OrderedCycle.isPunctuation c = false));
      [done | apply removeAll_removed].
  - unfold AnyEngine.normalizeTextNFKD.
    split; [apply spaced_trim_collapse|]. split; [apply head_trim|].
    split; [apply last_trim|].
    apply (Forall_trim_collapse (fun c => isCombiningMark c = false)); [done|].
    apply Forall_removeAllPoints, removeAll_removed.
  - split; [apply ordered_normalizeText_repertoire | apply random_normalizeText_repertoire].
Qed.

(** X10. The words that [similarityScore] compares, that is the
    pieces of a non-empty normalization split on U+0020, are never empty
    and hold no white space; so in both listings. *)
Theorem normalized_words_are_proper (s : list N) :
  (OrderedCycle.normalizeText s <> [] ->
   Forall (fun w => w <> [] /\ Forall (fun c => isWhiteSpace c = false) w)
     (split_space (OrderedCycle.normalizeText s)))
  /\
  (RandomPick.normalizeText s <> [] ->
   Forall (fun w => w <> [] /\ Forall (fun c => isWhiteSpace c = false) w)
     (split_space (RandomPick.normalizeText s))).
Proof.
  split; intros Hne.
  - unfold OrderedCycle.normalizeText in *. destruct (falsy s); [done|].
    apply words_of_normal_form;
      [done | apply spaced_trim_collapse | apply head_trim | apply last_trim].
  - unfold RandomPick.normalizeText in *.
    apply words_of_normal_form;
      [done | apply spaced_trim_collapse | apply head_trim | apply last_trim].
Qed.

Lemma normalized_words_are_proper_witness :
  Forall (fun w => w <> [] /\ Forall (fun c => isWhiteSpace c = false) w)
    (split_space (OrderedCycle.normalizeText (js "  She  sells,   seashells! "))).
Proof.
  apply (proj1 (normalized_words_are_proper (js "  She  sells,   seashells! "))).
  by vm_compute.
Defined.

(** X24. The normalization of the empty string is the empty string, and
    on Basic Latin input (every code unit below U+0080), where the tables
    are exact, normalization is idempotent; so in both listings. *)
Theorem normalizeText_idempotent_on_basic_latin :
  OrderedCycle.normalizeText [] = [] /\
  RandomPick.normalizeText [] = [] /\
  forall s : jsstring,
    basic_latin s ->
    OrderedCycle.normalizeText (OrderedCycle.normalizeText s)
      = OrderedCycle.normalizeText s /\
    RandomPick.normalizeText (RandomPick.normalizeText s)
      = RandomPick.normalizeText s.
Proof.
  split; [done|]. split; [done|]. intros s Hs. split.
  - rewrite (ordered_normalizeText_basic_latin s Hs).
    destruct (normal_form_fixed OrderedCycle.isPunctuation s isPunctuation_SPACE Hs)
      as [Ht Hfix].
    by rewrite ordered_normalizeText_basic_latin.
  - rewrite (random_normalizeText_basic_latin s Hs).
    destruct (normal_form_fixed
                (fun c => negb (isLetter c || isNumber c || isWhiteSpace c)) s
                eq_refl Hs) as [Ht Hfix].
    by rewrite random_normalizeText_basic_latin.
Qed.

Lemma normalizeText_idempotent_on_basic_latin_witness :
  OrderedCycle.normalizeText (OrderedCycle.normalizeText (js "  Hello,   World! "))
    = OrderedCycle.normalizeText (js "  Hello,   World! ") /\
  RandomPick.normalizeText (RandomPick.normalizeText (js "  Hello,   World! "))
    = RandomPick.normalizeText (js "  Hello,   World! ").
Proof.
  apply (proj2 (proj2 normalizeText_idempotent_on_basic_latin)).
  vm_compute. repeat constructor.
Defined.

(** ** Punctuation *)

Lemma isPunctuation_lowerUnit c :
  OrderedCycle.isPunctuation (lowerUnit c) = OrderedCycle.isPunctuation c.
Proof.
  unfold lowerUnit. destruct (isUpperCase c) eqn:Hup; [|done].
  unfold isUpperCase in Hup. unfold OrderedCycle.isPunctuation.
  apply bool_decide_ext. rewrite !elem_of_cons, !elem_of_nil. ranges; lia.
Qed.

Lemma toLowerCase_removeAll s :
  toLowerCase (removeAll OrderedCycle.isPunctuation s) =
  removeAll OrderedCycle.isPunctuation (toLowerCase s).
Proof.
  unfold toLowerCase, removeAll. induction s as [|c s IH]; simpl; [done|].
  rewrite isPunctuation_lowerUnit. case_match; simpl; by rewrite IH.
Qed.

Lemma ordered_normalizeText_punctuation s :
  basic_latin s ->
  OrderedCycle.normalizeText s =
  trim (collapseWhiteSpace (toLowerCase (removeAll OrderedCycle.isPunctuation s))).
Proof.
  intros Hs. rewrite ordered_normalizeText_basic_latin by done.
  by rewrite toLowerCase_removeAll.
Qed.

(** X12. First listing, Basic Latin input: two strings that differ only
    in code units of the punctuation class have the same normalization,
    and replacing one by the other on either side of [similarityScore]
    gives the same result. *)
Theorem punctuation_is_ignored (s s' : list N) :
  basic_latin s -> basic_latin s' ->
  removeAll OrderedCycle.isPunctuation s = removeAll OrderedCycle.isPunctuation s' ->
  OrderedCycle.normalizeText s = OrderedCycle.normalizeText s' /\
  forall t,
    OrderedCycle.similarityScore t s = OrderedCycle.similarityScore t s' /\
    OrderedCycle.similarityScore s t = OrderedCycle.similarityScore s' t.
Proof.
  intros Hs Hs' Heq.
  assert (OrderedCycle.normalizeText s = OrderedCycle.normalizeText s') as Hn.
  { rewrite !ordered_normalizeText_punctuation by done. by rewrite Heq. }
  split; [done|]. intros t. unfold OrderedCycle.similarityScore. by rewrite Hn.
Qed.

Lemma punctuation_is_ignored_witness :
  OrderedCycle.similarityScore (js "She sells seashells by the seashore.")
    (js "she sells, sea-shells (by the seashore)!") =
  OrderedCycle.similarityScore (js "She sells seashells by the seashore.")
    (js "she sells seashells by the seashore").
Proof.
  assert (basic_latin (js "she sells, sea-shells (by the seashore)!")) as Hs.
  { apply Forall_forall. intros c Hc. apply list_elem_of_In in Hc.
    vm_compute in Hc. repeat (destruct Hc as [<-|Hc]; [reflexivity|]). destruct Hc. }
  assert (basic_latin (js "she sells seashells by the seashore")) as Hs'.
  { apply Forall_forall. intros c Hc. apply list_elem_of_In in Hc.
    vm_compute in Hc. repeat (destruct Hc as [<-|Hc]; [reflexivity|]). destruct Hc. }
  destruct (punctuation_is_ignored _ _ Hs Hs' ltac:(vm_compute; reflexivity))
    as [_ Hscore].
  exact (proj1 (Hscore (js "She sells seashells by the seashore."))).
Defined.

(** ** The component of the first listing: further facts *)

Lemma Math_round_percent q :
  unit_interval q -> (0 <= Math_round (q * 100) <= 100)%Z.
Proof.
  intros [H0 H1]. unfold Math_round. split.
  - apply (Qfloor_resp_le 0). lra.
  - apply (Qfloor_resp_le _ (201 # 2)). lra.
Qed.

Lemma ordered_similarityScore_bounded target said :
  exists r, OrderedCycle.similarityScore target said = Some r /\
    unit_interval (score r) /\ unit_interval (charSim r) /\ unit_interval (wordSim r).
Proof.
  destruct (decide (OrderedCycle.normalizeText target = [])) as [HA|HA];
    [|destruct (decide (OrderedCycle.normalizeText said = [])) as [HB|HB]].
  - eexists. split; [apply ordered_similarityScore_empty; by left|]. by simpl.
  - eexists. split; [apply ordered_similarityScore_empty; by right|]. by simpl.
  - eexists. split; [by apply ordered_similarityScore_nonempty|]. simpl.
    split; [apply blend_unit|].
    split; [by apply charSimilarity_unit | apply wordSimilarity_unit].
Qed.

Lemma random_similarityScore_bounded target said :
  exists r, RandomPick.similarityScore target said = Some r /\
    unit_interval (score r) /\ unit_interval (charSim r) /\ unit_interval (wordSim r).
Proof.
  destruct (decide (RandomPick.normalizeText target = [])) as [HA|HA];
    [|destruct (decide (RandomPick.normalizeText said = [])) as [HB|HB]].
  - eexists. split; [apply random_similarityScore_empty; by left|]. by simpl.
  - eexists. split; [apply random_similarityScore_empty; by right|]. by simpl.
  - eexists. split; [by apply random_similarityScore_nonempty|]. simpl.
    split; [apply blend_unit|].
    split; [by apply charSimilarity_unit | apply wordSimilarity_unit].
Qed.

Lemma entryOf_proper n t r :
  n < 6 ->
  unit_interval (score r) -> unit_interval (charSim r) -> unit_interval (wordSim r) ->
  proper_entry (entryOf n t r).
Proof.
  intros Hn Hs Hc Hw. unfold proper_entry, entryOf. simpl.
  split; [lia|]. auto using Math_round_percent.
Qed.

Section OrderedCycleMore.

Import OrderedCycle.

Lemma ordered_sound_after_effect s s' : ordered_sound s' -> ordered_sound (effect s s').
Proof. unfold effect. by case_match. Qed.

Lemma ordered_sound_onresult seen t s :
  ordered_sound s -> listening s = Some seen ->
  ordered_sound (setListening None (onresult seen t s)).
Proof.
  intros (Hidx & Hscores & Hseen) Hl. destruct (Hseen seen Hl) as [Hst Hsa].
  unfold onresult. destruct (lookup_lt_is_Some_2 SAMPLE_TWISTERS (seen_twister seen) Hst)
    as [tw ->].
  destruct (ordered_similarityScore_bounded (tw_text tw) t) as (r & -> & Hs & Hc & Hw).
  split; [done|]. split; [|done]. simpl.
  apply Forall_app. split; [done|]. constructor; [|done].
  by apply entryOf_proper.
Qed.

Lemma ordered_sound_step s e :
  ordered_sound s -> enabled s e = true -> ordered_sound (step s e).
Proof.
  intros Hsound He. apply ordered_sound_after_effect.
  pose proof Hsound as (Hidx & Hscores & Hseen).
  destruct e as [ok|ok| | | |t|err cur|saw cur|saw]; simpl in He; cbn [handle].
  - apply andb_true_iff in He as [[Hzero%Nat.eqb_eq _]%andb_true_iff _].
    unfold startRecording. repeat case_match; try done.
    split; [done|]. split; [done|]. simpl. intros seen [= <-]. simpl.
    split; [done|]. unfold maxAttempts. lia.
  - apply andb_true_iff in He as [[_ Hlt%Nat.ltb_lt]%andb_true_iff _].
    unfold toggleRecording, startRecording. repeat case_match; try done.
    split; [done|]. split; [done|]. simpl. intros seen [= <-]. by simpl.
  - done.
  - split; [|split; [by constructor | done]].
    change ((twisterIndex s + 1) mod length SAMPLE_TWISTERS < length SAMPLE_TWISTERS).
    by apply Nat.mod_upper_bound.
  - unfold refreshTwister. split; [|split]; simpl; done.
  - destruct (listening s) as [seen|] eqn:Hl; [|done].
    by apply ordered_sound_onresult.
  - unfold onerror. destruct cur; repeat case_match; done.
  - unfold onend. destruct cur, saw; done.
  - unfold ontimeout. destruct saw; done.
Qed.

Lemma ordered_sound_reachable s : reachable s -> ordered_sound s.
Proof.
  induction 1 as [sup|s e _ IH He].
  - split; [simpl; lia|]. split; [by constructor | done].
  - by apply ordered_sound_step.
Qed.


Lemma ordered_effect_keeps s s' :
  twisterIndex (effect s s') = twisterIndex s' /\
  attempt (effect s s') = attempt s' /\
  scores (effect s s') = scores s' /\
  recording (effect s s') = recording s' /\
  supported (effect s s') = supported s' /\
  listening (effect s s') = listening s'.
Proof. unfold effect. by case_match. Qed.

Lemma Math_max_bounds (xs : list Z) lo hi :
  Forall (fun x => (lo <= x <= hi)%Z) xs -> xs <> [] ->
  exists best, Math_max xs = Some best /\ (lo <= best <= hi)%Z.
Proof.
  intros Hall Hne. destruct (Math_max_spec xs Hne) as (best & Hbest & Hin & _).
  exists best. split; [done|]. by apply (proj1 (Forall_forall _ _) Hall).
Qed.

(** X13. First listing: in every reachable state the twister index
    names an entry of the catalog, every entry of the history has a
    number from 1 to 6 and three percentages from 0 to 100, and the
    maximum that the final card shows exists as soon as one attempt is
    recorded and is a percentage from 0 to 100 (with no attempt there is
    none). *)
Theorem ordered_history_well_formed s :
  reachable s ->
  is_Some (SAMPLE_TWISTERS !! twisterIndex s) /\
  Forall proper_entry (scores s) /\
  (attempt s = 0 -> finalScore s = None) /\
  (0 < attempt s ->
   exists best, finalScore s = Some best /\ (0 <= best <= 100)%Z).
Proof.
  intros Hs. destruct (ordered_sound_reachable s Hs) as (Hidx & Hscores & _).
  destruct (ordered_invariant_reachable s Hs) as (_ & Hlen & _).
  split; [by apply lookup_lt_is_Some_2|]. split; [done|]. split.
  - intros Hzero. rewrite Hzero in Hlen. apply nil_length_inv in Hlen.
    unfold finalScore. by rewrite Hlen.
  - intros Hpos. apply Math_max_bounds.
    + apply Forall_map. eapply Forall_impl; [exact Hscores|].
      by intros e (_ & He & _).
    + intros Hnil%(f_equal length). rewrite length_map in Hnil.
      simpl in Hnil. lia.
Qed.

Lemma ordered_history_well_formed_witness :
  let s := run (initial true) sixAttempts in
  reachable s /\
  Forall proper_entry (scores s) /\
  exists best, finalScore s = Some best /\ (0 <= best <= 100)%Z.
Proof.
  assert (reachable (run (initial true) sixAttempts)) as Hreach.
  { apply ordered_reachable_run; [constructor | vm_compute; reflexivity]. }
  destruct (ordered_history_well_formed _ Hreach) as (_ & Hscores & _ & Hbest).
  split; [exact Hreach|]. split; [exact Hscores|].
  apply Hbest. vm_compute. lia.
Defined.

Lemma ordered_supported_step s e : supported (step s e) = supported s.
Proof.
  unfold step.
  rewrite (proj1 (proj2 (proj2 (proj2 (proj2 (ordered_effect_keeps _ _)))))).
  destruct e; cbn [handle]; try reflexivity;
    unfold toggleRecording, startRecording, onerror, onend, ontimeout, onresult;
    repeat case_match; reflexivity.
Qed.

Lemma ordered_unsupported_clicks s e :
  supported s = false -> attempt s = 0 -> recording s = false ->
  enabled s e = true -> isClick e = true ->
  exists ok, e = ClickWarmUp ok /\
    permissionError (step s e) = "SpeechRecognition not available."%string.
Proof.
  intros H1 H2 H3 He Hc.
  destruct e; try done; simpl in He; rewrite ?H2 in He; try done.
  eexists. split; [done|]. unfold step, effect. cbn [handle].
  unfold startRecording. rewrite H1. simpl. rewrite !Nat.eqb_refl, H3.
  simpl. by rewrite andb_false_r.
Qed.

Lemma ordered_unsupported_step s e :
  ordered_unsupported s -> enabled s e = true -> ordered_unsupported (step s e).
Proof.
  intros (Hsup & Hatt & Hsc & Hidx & Hrec & Hl & Hmsg) He.
  assert (forall s', ordered_unsupported s' -> ordered_unsupported (effect s s'))
    as Heff.
  { intros s' Hs'. unfold effect. case_match; [|done].
    destruct Hs' as (? & ? & ? & ? & ? & ? & ?). by repeat split. }
  apply Heff.
  destruct e as [ok|ok| | | |t|err cur|saw cur|saw]; simpl in He;
    rewrite ?Hatt in He; try done; cbn [handle].
  - unfold startRecording. rewrite Hsup. simpl. by repeat split.
  - unfold idle in He. by rewrite Hl in He.
  - unfold onerror. destruct cur; repeat case_match; by repeat split.
  - unfold onend. destruct cur, saw; by repeat split.
  - unfold ontimeout. destruct saw; by repeat split.
Qed.

(** X15. First listing, browser without speech recognition: in every
    reachable state the counter is 0, the history is empty, the first
    twister stays, nothing is recording, an error message is shown, and
    the only button that can be clicked is the warm-up, whose click shows
    the not-available message. *)
Theorem ordered_without_recognition s :
  reachable s -> supported s = false ->
  attempt s = 0 /\ scores s = [] /\ twisterIndex s = 0 /\
  recording s = false /\ listening s = None /\ permissionError s <> EmptyString /\
  forall e, enabled s e = true -> isClick e = true ->
    exists ok, e = ClickWarmUp ok /\
      permissionError (step s e) = "SpeechRecognition not available."%string.
Proof.
  intros Hs Hsup.
  assert (ordered_unsupported s) as (_ & Hatt & Hsc & Hidx & Hrec & Hl & Hmsg).
  { induction Hs as [sup|s e Hs IH He].
    - simpl in Hsup. subst sup. by repeat split.
    - apply ordered_unsupported_step; [|done]. apply IH.
      by rewrite ordered_supported_step in Hsup. }
  repeat split; try done.
  intros e He Hc. by apply ordered_unsupported_clicks.
Qed.

Lemma ordered_without_recognition_witness :
  let s := run (initial false) [ClickWarmUp true; OnTimeout true] in
  reachable s /\ attempt s = 0 /\ scores s = [] /\ permissionError s <> EmptyString.
Proof.
  assert (reachable (run (initial false) [ClickWarmUp true; OnTimeout true])) as Hreach.
  { apply ordered_reachable_run; [constructor | vm_compute; reflexivity]. }
  destruct (ordered_without_recognition _ Hreach ltac:(vm_compute; reflexivity))
    as (H1 & H2 & _ & _ & _ & H3 & _).
  split; [exact Hreach|]. split; [exact H1|]. split; [exact H2 | exact H3].
Defined.

End OrderedCycleMore.

(** ** The clean-up of the first listing *)

Section OrderedCycleCleanup.

Import OrderedCycle.

Lemma ordered_strict_reachable_run s es :
  ordered_strict_reachable s -> ordered_strict_allowed s es = true ->
  ordered_strict_reachable (ordered_strict_run s es).
Proof.
  revert s. induction es as [|e es IH]; intros s Hs Hall; simpl in *; [done|].
  apply andb_true_iff in Hall as [He Hall].
  apply IH; [by apply ordered_strict_next | done].
Qed.

Lemma ordered_cleanup_keeps s s' :
  twisterIndex (ordered_cleanup s s') = twisterIndex s' /\
  attempt (ordered_cleanup s s') = attempt s' /\
  scores (ordered_cleanup s s') = scores s' /\
  recording (ordered_cleanup s s') = recording s' /\
  (listening s' = None -> listening (ordered_cleanup s s') = None).
Proof. unfold ordered_cleanup. by case_match. Qed.

(** X23. First listing, with the clean-up of the effect taken exactly:
    [recording] is a dependency of the effect, so the render that follows
    a successful [start()] aborts the session just started. No state that
    can be reached has a running session: no result is ever delivered,
    the counter stays 0, the history stays empty, the first twister
    stays, and the warm-up is the only button that can be clicked. *)
Theorem recognition_never_delivers s :
  ordered_strict_reachable s ->
  listening s = None /\ attempt s = 0 /\ scores s = [] /\ twisterIndex s = 0 /\
  (forall transcript, enabled s (OnResult transcript) = false) /\
  (forall e, enabled s e = true -> isClick e = true -> exists ok, e = ClickWarmUp ok).
Proof.
  intros Hs.
  assert (listening s = None /\ attempt s = 0 /\ scores s = [] /\ twisterIndex s = 0)
    as (Hl & Hatt & Hsc & Hidx).
  { induction Hs as [sup|s e Hs (Hl & Hatt & Hsc & Hidx) He]; [done|].
    unfold ordered_strict_step, ordered_cleanup, step, effect.
    destruct e as [ok|ok| | | |t|err cur|saw cur|saw]; simpl in He;
      rewrite ?Hatt in He; try done; cbn [handle].
    - apply andb_true_iff in He as [Hrec%negb_true_iff _].
      unfold startRecording.
      destruct (supported s) eqn:Hsup, ok; simpl;
        rewrite ?Hsup, ?Hrec, ?Hl, ?Hatt, ?Hsc, ?Hidx; simpl;
        rewrite ?Hsup, ?Hrec, ?Hl, ?Hatt, ?Hsc, ?Hidx; done.
    - unfold idle in He. by rewrite Hl in He.
    - unfold idle in He. rewrite Hl in He. rewrite orb_false_r in He.
      apply negb_true_iff in He as ->.
      unfold onerror. repeat case_match; simpl in *; rewrite ?Hl, ?Hatt, ?Hsc, ?Hidx; done.
    - unfold idle in He. rewrite Hl in He. rewrite orb_false_r in He.
      apply negb_true_iff in He as ->.
      unfold onend. repeat case_match; simpl; rewrite ?Hl, ?Hatt, ?Hsc, ?Hidx; done.
    - unfold ontimeout. repeat case_match; simpl; rewrite ?Hl, ?Hatt, ?Hsc, ?Hidx; done. }
  repeat split; try done.
  - intros t. simpl. unfold idle. by rewrite Hl.
  - intros e He Hc. destruct e; try done; simpl in He; rewrite ?Hatt in He; try done.
    by eexists.
Qed.

Lemma recognition_never_delivers_witness :
  let s := ordered_strict_run (initial true) [ClickWarmUp true; OnError "aborted" false] in
  ordered_strict_reachable s /\
  listening s = None /\ attempt s = 0 /\
  statusMessage s = "Listening..."%string /\ recording s = false /\
  enabled s (OnResult (js "tres tristes tigres")) = false.
Proof.
  assert (ordered_strict_reachable
            (ordered_strict_run (initial true)
               [ClickWarmUp true; OnError "aborted" false])) as Hreach.
  { apply ordered_strict_reachable_run; [constructor | vm_compute; reflexivity]. }
  destruct (recognition_never_delivers _ Hreach) as (Hl & Hatt & _ & _ & Hres & _).
  split; [exact Hreach|]. split; [exact Hl|]. split; [exact Hatt|].
  split; [vm_compute; reflexivity|]. split; [vm_compute; reflexivity|]. apply Hres.
Defined.

End OrderedCycleCleanup.

(** ** The component of the third listing: further facts *)

Section RotationMore.

Import Rotation.

Variable similarityScore : list N -> list N -> option Similarity.

Lemma rotation_effect_keeps s s' :
  index (effect s s') = index s' /\
  currentTwister (effect s s') = currentTwister s' /\
  attempt (effect s s') = attempt s' /\
  scores (effect s s') = scores s' /\
  recording (effect s s') = recording s' /\
  supported (effect s s') = supported s' /\
  listening (effect s s') = listening s'.
Proof. unfold effect. by case_match. Qed.

Lemma rotation_sound_after_effect s s' : rotation_sound s' -> rotation_sound (effect s s').
Proof. unfold effect. by case_match. Qed.

Lemma rotation_sound_step s e :
  bounded_scorer similarityScore ->
  rotation_sound s -> invariant s -> enabled s e = true ->
  rotation_sound (step similarityScore s e).
Proof.
  intros Hscorer Hsound (_ & _ & Hbusy) He. apply rotation_sound_after_effect.
  pose proof Hsound as (Hidx & Hcur & Hscores & Hseen).
  assert (is_Some (currentTwister s)) as Hsome.
  { rewrite Hcur. by apply lookup_lt_is_Some_2. }
  destruct e as [ok|ok| | |t|err]; simpl in He; cbn [handle].
  - apply andb_true_iff in He as [Hzero%Nat.eqb_eq _].
    unfold startRecording. repeat case_match; try done.
    split; [done|]. split; [done|]. split; [done|].
    simpl. intros seen [= <-]. simpl. split; [done | lia].
  - apply andb_true_iff in He as [[_ Hlt%Nat.ltb_lt]%andb_true_iff _].
    unfold startRecording. repeat case_match; try done.
    split; [done|]. split; [done|]. split; [done|].
    simpl. intros seen [= <-]. by simpl.
  - done.
  - split; [|split; [done|split; [by constructor | done]]].
    change ((index s + 1) mod length SAMPLE_TWISTERS < length SAMPLE_TWISTERS).
    by apply Nat.mod_upper_bound.
  - destruct (listening s) as [seen|] eqn:Hl; [|done].
    destruct (Hseen seen eq_refl) as [[tw Htw] Hlt].
    unfold onresult. rewrite Htw.
    destruct (Hscorer (tw_text tw) t) as (r & -> & Hs & Hc & Hw).
    split; [done|]. split; [done|]. split; [|done]. simpl.
    apply Forall_app. split; [done|]. constructor; [|done].
    by apply entryOf_proper.
  - unfold onerror. by repeat case_match.
Qed.

Lemma rotation_sound_reachable s :
  bounded_scorer similarityScore ->
  reachable similarityScore s -> rotation_sound s.
Proof.
  intros Hscorer. induction 1 as [sup|s e Hs IH He].
  - split; [simpl; lia|]. split; [done|]. split; [by constructor | done].
  - apply rotation_sound_step; try done.
    by apply (rotation_invariant_reachable similarityScore).
Qed.

Lemma rotation_supported_step s e :
  supported (step similarityScore s e) = supported s.
Proof.
  unfold step.
  rewrite (proj1 (proj2 (proj2 (proj2 (proj2 (proj2 (rotation_effect_keeps _ _))))))).
  destruct e; cbn [handle]; try reflexivity;
    unfold startRecording, onerror, onresult;
    repeat case_match; reflexivity.
Qed.

Lemma rotation_unsupported_clicks s e :
  supported s = false -> attempt s = 0 -> recording s = false ->
  enabled s e = true -> isClick e = true ->
  exists ok, e = ClickWarmUp ok /\
    permissionError (step similarityScore s e) =
      "SpeechRecognition not available in this browser."%string.
Proof.
  intros H1 H2 H3 He Hc.
  destruct e; try done; simpl in He; rewrite ?H2 in He; try done.
  eexists. split; [done|]. unfold step, effect. cbn [handle].
  unfold startRecording. rewrite H1. simpl. rewrite !Nat.eqb_refl.
  simpl. by rewrite andb_false_r.
Qed.

Lemma rotation_unsupported_step s e :
  rotation_unsupported s -> enabled s e = true ->
  rotation_unsupported (step similarityScore s e).
Proof.
  intros (Hsup & Hatt & Hsc & Hidx & Hrec & Hl & Hmsg) He.
  assert (forall s', rotation_unsupported s' -> rotation_unsupported (effect s s'))
    as Heff.
  { intros s' Hs'. unfold effect. case_match; [|done].
    destruct Hs' as (? & ? & ? & ? & ? & ? & ?). by repeat split. }
  apply Heff.
  destruct e as [ok|ok| | |t|err]; simpl in He;
    rewrite ?Hatt in He; try done; cbn [handle].
  - unfold startRecording. rewrite Hsup. simpl. by repeat split.
  - unfold idle in He. by rewrite Hl in He.
  - unfold idle in He. by rewrite Hl in He.
Qed.

(** X16. Third listing, with a scorer that always returns fractions of
    the unit interval: in every reachable state [currentTwister] is the
    catalog entry at [index], every entry of the history has a number
    from 1 to 6 and three percentages from 0 to 100, and the maximum of
    the final card exists as soon as one attempt is recorded and is a
    percentage from 0 to 100. *)
Theorem rotation_history_well_formed s :
  bounded_scorer similarityScore ->
  reachable similarityScore s ->
  index s < length SAMPLE_TWISTERS /\
  currentTwister s = SAMPLE_TWISTERS !! index s /\
  is_Some (currentTwister s) /\
  Forall proper_entry (scores s) /\
  (attempt s = 0 -> finalScore s = None) /\
  (0 < attempt s ->
   exists best, finalScore s = Some best /\ (0 <= best <= 100)%Z).
Proof.
  intros Hscorer Hs.
  destruct (rotation_sound_reachable s Hscorer Hs) as (Hidx & Hcur & Hscores & _).
  destruct (rotation_invariant_reachable _ s Hs) as (_ & Hlen & _).
  split; [done|]. split; [done|].
  split; [rewrite Hcur; by apply lookup_lt_is_Some_2|]. split; [done|]. split.
  - intros Hzero. rewrite Hzero in Hlen. apply nil_length_inv in Hlen.
    unfold finalScore. by rewrite Hlen.
  - intros Hpos. apply Math_max_bounds.
    + apply Forall_map. eapply Forall_impl; [exact Hscores|].
      by intros e (_ & He & _).
    + intros Hnil%(f_equal length). rewrite length_map in Hnil.
      simpl in Hnil. lia.
Qed.


(** X18. Third listing, browser without speech recognition: in every
    reachable state the counter is 0, the history is empty, the first
    twister stays, nothing is recording, an error message is shown, and
    the only button that can be clicked is the warm-up, whose click shows
    the not-available message. *)
Theorem rotation_without_recognition s :
  reachable similarityScore s -> supported s = false ->
  attempt s = 0 /\ scores s = [] /\ index s = 0 /\
  recording s = false /\ listening s = None /\ permissionError s <> EmptyString /\
  forall e, enabled s e = true -> isClick e = true ->
    exists ok, e = ClickWarmUp ok /\
      permissionError (step similarityScore s e) =
        "SpeechRecognition not available in this browser."%string.
Proof.
  intros Hs Hsup.
  assert (rotation_unsupported s) as (_ & Hatt & Hsc & Hidx & Hrec & Hl & Hmsg).
  { induction Hs as [sup|s e Hs IH He].
    - simpl in Hsup. subst sup. by repeat split.
    - apply rotation_unsupported_step; [|done]. apply IH.
      by rewrite rotation_supported_step in Hsup. }
  repeat split; try done.
  intros e He Hc. by apply rotation_unsupported_clicks.
Qed.

(** X19. Third listing: the effect has no clean-up, so a session that
    is running when the new-twister button is clicked goes on. Its result
    then becomes the first entry of the new history, and it is the very
    entry that the result would have appended without the click: the one
    of the twister and the attempt number the session closed over, not of
    the twister on screen. *)
Theorem rotation_late_result s seen tw transcript r :
  listening s = Some seen ->
  seen_twister seen = Some tw ->
  similarityScore (tw_text tw) transcript = Some r ->
  exists entry,
    scores (run similarityScore s [OnResult transcript]) = scores s ++ [entry] /\
    scores (run similarityScore s [ClickNewTwister; OnResult transcript]) = [entry] /\
    entry_attempt entry = seen_attempt seen + 1 /\
    entry_transcript entry = transcript /\
    attempt (run similarityScore s [ClickNewTwister; OnResult transcript]) = 1 /\
    currentTwister (run similarityScore s [ClickNewTwister; OnResult transcript]) =
      SAMPLE_TWISTERS !! ((index s + 1) mod length SAMPLE_TWISTERS).
Proof.
  intros Hl Htw Hr. exists (entryOf (seen_attempt seen) transcript r).
  cbn [run]. unfold step.
  rewrite !(proj1 (proj2 (rotation_effect_keeps _ _))).
  rewrite !(proj1 (proj2 (proj2 (rotation_effect_keeps _ _)))).
  rewrite !(proj1 (proj2 (proj2 (proj2 (rotation_effect_keeps _ _))))).
  cbn [handle].
  rewrite (proj2 (proj2 (proj2 (proj2 (proj2 (proj2 (rotation_effect_keeps _ _))))))).
  change (listening (newTwister s)) with (listening s). rewrite Hl.
  unfold onresult. rewrite Htw, Hr.
  cbn [scores attempt currentTwister setListening setRecording setAttempt setScores].
  destruct (rotation_effect_keeps s (newTwister s)) as (_ & -> & -> & -> & _).
  done.
Qed.

End RotationMore.

Lemma rotation_history_well_formed_witness :
  let s := Rotation.run RandomPick.similarityScore (Rotation.initial true)
             Rotation.sixAttempts in
  Rotation.reachable RandomPick.similarityScore s /\
  Forall proper_entry (Rotation.scores s) /\
  exists best, Rotation.finalScore s = Some best /\ (0 <= best <= 100)%Z.
Proof.
  assert (Rotation.reachable RandomPick.similarityScore
            (Rotation.run RandomPick.similarityScore (Rotation.initial true)
               Rotation.sixAttempts)) as Hreach.
  { apply rotation_reachable_run; [constructor | vm_compute; reflexivity]. }
  destruct (rotation_history_well_formed RandomPick.similarityScore _
              random_similarityScore_bounded Hreach)
    as (_ & _ & _ & Hscores & _ & Hbest).
  split; [exact Hreach|]. split; [exact Hscores|].
  apply Hbest. vm_compute. lia.
Defined.


Lemma rotation_without_recognition_witness :
  let s := Rotation.run RandomPick.similarityScore (Rotation.initial false)
             [Rotation.ClickWarmUp true; Rotation.ClickWarmUp false] in
  Rotation.reachable RandomPick.similarityScore s /\
  Rotation.attempt s = 0 /\ Rotation.scores s = [] /\
  Rotation.permissionError s <> EmptyString.
Proof.
  assert (Rotation.reachable RandomPick.similarityScore
            (Rotation.run RandomPick.similarityScore (Rotation.initial false)
               [Rotation.ClickWarmUp true; Rotation.ClickWarmUp false])) as Hreach.
  { apply rotation_reachable_run; [constructor | vm_compute; reflexivity]. }
  destruct (rotation_without_recognition RandomPick.similarityScore _ Hreach
              ltac:(vm_compute; reflexivity))
    as (H1 & H2 & _ & _ & _ & H3 & _).
  split; [exact Hreach|]. split; [exact H1|]. split; [exact H2 | exact H3].
Defined.

(** ** Rotation through the catalog *)

Lemma ordered_index_step s e :
  OrderedCycle.twisterIndex (OrderedCycle.step s e) =
  match e with
  | OrderedCycle.ClickNewTwister =>
      (OrderedCycle.twisterIndex s + 1) mod length OrderedCycle.SAMPLE_TWISTERS
  | _ => OrderedCycle.twisterIndex s
  end.
Proof.
  unfold OrderedCycle.step.
  rewrite (proj1 (ordered_effect_keeps _ _)).
  destruct e as [ok|ok| | | |t|err cur|saw cur|saw]; cbn [OrderedCycle.handle];
    try reflexivity.
  - unfold OrderedCycle.startRecording. by repeat case_match.
  - unfold OrderedCycle.toggleRecording, OrderedCycle.startRecording.
    by repeat case_match.
  - unfold OrderedCycle.onresult. by repeat case_match.
  - unfold OrderedCycle.onerror. by repeat case_match.
  - unfold OrderedCycle.onend. by repeat case_match.
  - unfold OrderedCycle.ontimeout. by repeat case_match.
Qed.

Lemma rotation_index_step scorer s e :
  Rotation.currentTwister s = Rotation.SAMPLE_TWISTERS !! Rotation.index s ->
  let s' := Rotation.step scorer s e in
  Rotation.index s' =
    match e with
    | Rotation.ClickNewTwister =>
        (Rotation.index s + 1) mod length Rotation.SAMPLE_TWISTERS
    | _ => Rotation.index s
    end /\
  Rotation.currentTwister s' = Rotation.SAMPLE_TWISTERS !! Rotation.index s'.
Proof.
  intros Hcur s'. subst s'. unfold Rotation.step.
  destruct (rotation_effect_keeps s (Rotation.handle scorer s e)) as (-> & -> & _).
  destruct e as [ok|ok| | |t|err]; cbn [Rotation.handle]; try done.
  - unfold Rotation.startRecording. by repeat case_match.
  - unfold Rotation.startRecording. by repeat case_match.
  - unfold Rotation.onresult. by repeat case_match.
  - unfold Rotation.onerror. by repeat case_match.
Qed.

Lemma mod_succ_add i n m : ((i + 1) mod m + n) mod m = (i + S n) mod m.
Proof.
  rewrite Nat.Div0.add_mod_idemp_l. f_equal. lia.
Qed.

(** X20. First and third listing: after any run of events the twister
    is the one at the starting index plus the number of clicks on the
    new-twister button, modulo the length of the catalog; nothing else
    moves it. In the third listing [currentTwister] stays the catalog
    entry at [index]. *)
Theorem catalog_visited_in_order :
  (forall s es,
     OrderedCycle.twisterIndex s < length OrderedCycle.SAMPLE_TWISTERS ->
     OrderedCycle.twisterIndex (OrderedCycle.run s es) =
     (OrderedCycle.twisterIndex s + ordered_rotations es)
       mod length OrderedCycle.SAMPLE_TWISTERS)
  /\
  (forall scorer s es,
     Rotation.index s < length Rotation.SAMPLE_TWISTERS ->
     Rotation.currentTwister s = Rotation.SAMPLE_TWISTERS !! Rotation.index s ->
     let s' := Rotation.run scorer s es in
     Rotation.index s' =
       (Rotation.index s + rotation_rotations es) mod length Rotation.SAMPLE_TWISTERS /\
     Rotation.currentTwister s' = Rotation.SAMPLE_TWISTERS !! Rotation.index s').
Proof.
  split.
  - intros s es. revert s. induction es as [|e es IH]; intros s Hs.
    + unfold ordered_rotations. simpl OrderedCycle.run. simpl length at 1.
      rewrite Nat.add_0_r. symmetry. by apply Nat.mod_small.
    + cbn [OrderedCycle.run]. rewrite IH.
      * rewrite ordered_index_step. unfold ordered_rotations.
        destruct e; cbn [List.filter length]; try reflexivity.
        apply mod_succ_add.
      * rewrite ordered_index_step. destruct e; try done.
        by apply Nat.mod_upper_bound.
  - intros scorer s es. revert s. induction es as [|e es IH]; intros s Hs Hcur.
    + unfold rotation_rotations. simpl Rotation.run. simpl length at 1.
      rewrite Nat.add_0_r. split; [|done]. symmetry. by apply Nat.mod_small.
    + cbn [Rotation.run]. cbv zeta.
      destruct (rotation_index_step scorer s e Hcur) as [Hidx Hcur'].
      destruct (IH (Rotation.step scorer s e)) as [IHidx IHcur].
      * rewrite Hidx. destruct e; try done. by apply Nat.mod_upper_bound.
      * done.
      * split; [|done]. rewrite IHidx, Hidx. unfold rotation_rotations.
        destruct e; cbn [List.filter length]; try reflexivity.
        apply mod_succ_add.
Qed.

Lemma catalog_visited_in_order_witness :
  OrderedCycle.twisterIndex
    (OrderedCycle.run (OrderedCycle.initial true)
       (OrderedCycle.sixAttempts ++ [OrderedCycle.ClickNewTwister])) = 1 /\
  Rotation.index
    (Rotation.run RandomPick.similarityScore (Rotation.initial true)
       (Rotation.sixAttempts ++ [Rotation.ClickNewTwister])) = 1.
Proof.
  split.
  - rewrite (proj1 catalog_visited_in_order) by (vm_compute; lia).
    vm_compute. reflexivity.
  - destruct (proj2 catalog_visited_in_order RandomPick.similarityScore
                (Rotation.initial true)
                (Rotation.sixAttempts ++ [Rotation.ClickNewTwister])
                ltac:(vm_compute; lia) ltac:(vm_compute; reflexivity))
      as [Hindex _].
    rewrite Hindex. vm_compute. reflexivity.
Defined.

Lemma rotation_late_result_witness :
  let s := Rotation.run RandomPick.similarityScore (Rotation.initial true)
             [Rotation.ClickWarmUp true; Rotation.OnResult (js "tres tristes");
              Rotation.ClickAttempt true] in
  let late := [Rotation.ClickNewTwister; Rotation.OnResult (js "tres tristes tigres")] in
  let s' := Rotation.run RandomPick.similarityScore s late in
  Rotation.reachable RandomPick.similarityScore s /\
  Rotation.allowed RandomPick.similarityScore s late = true /\
  Rotation.scores
    (Rotation.run RandomPick.similarityScore s
       [Rotation.OnResult (js "tres tristes tigres")]) =
    Rotation.scores s ++ Rotation.scores s' /\
  map entry_attempt (Rotation.scores s') = [2] /\
  Rotation.attempt s' = 1 /\
  option_map tw_id (Rotation.currentTwister s') = Some "en-001"%string.
Proof.
  assert (Rotation.reachable RandomPick.similarityScore
            (Rotation.run RandomPick.similarityScore (Rotation.initial true)
               [Rotation.ClickWarmUp true; Rotation.OnResult (js "tres tristes");
                Rotation.ClickAttempt true])) as Hreach.
  { apply rotation_reachable_run; [constructor | vm_compute; reflexivity]. }
  split; [exact Hreach|]. split; [vm_compute; reflexivity|].
  edestruct (rotation_late_result RandomPick.similarityScore
               (Rotation.run RandomPick.similarityScore (Rotation.initial true)
                  [Rotation.ClickWarmUp true; Rotation.OnResult (js "tres tristes");
                   Rotation.ClickAttempt true])
               _ _ (js "tres tristes tigres") _
               ltac:(vm_compute; reflexivity) ltac:(vm_compute; reflexivity)
               ltac:(vm_compute; reflexivity))
    as (entry & Hwithout & Hwith & Hnumber & _ & Hattempt & Hcurrent).
  split; [by rewrite Hwithout, Hwith|].
  split; [rewrite Hwith; simpl; rewrite Hnumber; vm_compute; reflexivity|].
  split; [exact Hattempt|]. rewrite Hcurrent. vm_compute. reflexivity.
Defined.

(** ** The component of the second listing *)

Section RandomPickWidgetSession.

Import RandomPickWidget.

Lemma widget_effect_keeps s s' :
  picked (effect s s') = picked s' /\
  attempt (effect s s') = attempt s' /\
  scores (effect s s') = scores s' /\
  recording (effect s s') = recording s' /\
  supported (effect s s') = supported s' /\
  listening (effect s s') = listening s' /\
  audioRef (effect s s') = audioRef s'.
Proof. unfold effect. by case_match. Qed.

Lemma widget_invariant_effect s s' : invariant s' -> invariant (effect s s').
Proof. unfold effect. by case_match. Qed.

Lemma widget_invariant_start ok s :
  invariant s -> attempt s < 6 -> recording s = false ->
  invariant (startRecording ok s).
Proof.
  intros (Hpick & Hle & Hlen & Hscores & Haudio & Hbusy) Hlt Hrec.
  assert (listening s = None) as Hl.
  { destruct (listening s) as [seen|]; [|done].
    destruct (Hbusy seen eq_refl) as [? _]. congruence. }
  unfold startRecording. repeat case_match.
  - do 5 (split; [done|]). simpl. intros c Hc. congruence.
  - do 5 (split; [done|]). simpl. by intros c [= <-].
  - do 5 (split; [done|]). simpl. intros c Hc. congruence.
Qed.

Lemma widget_invariant_playAudio s : invariant s -> invariant (playAudio s).1.
Proof.
  intros Hinv. pose proof Hinv as (Hpick & Hle & Hlen & Hscores & Haudio & Hbusy).
  unfold playAudio, currentTwister.
  destruct (SAMPLE_TWISTERS !! picked s) as [tw|] eqn:Htw; [|done].
  destruct (tw_audio tw) as [src|] eqn:Hsrc; [|done].
  destruct (src =? "")%string; [done|].
  destruct (audioRef s); [done|]. simpl.
  split; [done|]. split; [done|]. split; [done|]. split; [done|].
  split; [|done]. right.
  apply list_elem_of_lookup_2 in Htw. unfold SAMPLE_TWISTERS in Htw.
  repeat (apply elem_of_cons in Htw as [->|Htw]);
    try (simpl in Hsrc |- *; congruence).
  inversion Htw.
Qed.

Lemma widget_invariant_step s e :
  invariant s -> enabled s e = true -> invariant (step s e).
Proof.
  intros Hinv He. apply widget_invariant_effect.
  pose proof Hinv as (Hpick & Hle & Hlen & Hscores & Haudio & Hbusy).
  destruct e as [ok|ok| |pick|t|err]; simpl in He; cbn [handle].
  - apply andb_true_iff in He as [Hzero%Nat.eqb_eq Hrec%negb_true_iff].
    apply widget_invariant_start; [done | lia | done].
  - apply andb_true_iff in He as [[_ Hlt%Nat.ltb_lt]%andb_true_iff Hrec%negb_true_iff].
    by apply widget_invariant_start.
  - by apply widget_invariant_playAudio.
  - apply andb_true_iff in He as [_ Hlt%Nat.ltb_lt].
    unfold newTwister. split; [done|]. split; [simpl; lia|].
    split; [done|]. split; [by constructor|]. split; [done|].
    simpl. intros seen Hseen. destruct (Hbusy seen Hseen) as (? & ? & ? & ?).
    repeat split; (done || lia).
  - destruct (listening s) as [seen|] eqn:Hl; [|done].
    destruct (Hbusy seen eq_refl) as (Hrec & Hlt & Hst & Hsa).
    destruct (lookup_lt_is_Some_2 SAMPLE_TWISTERS (seen_twister seen) Hst)
      as [tw Htw].
    unfold onresult. rewrite Htw.
    destruct (random_similarityScore_bounded (tw_text tw) t) as (r & -> & Hs & Hc & Hw).
    split; [done|]. split; [simpl; lia|].
    split; [simpl; rewrite length_app; simpl; lia|].
    split; [|done]. simpl.
    apply Forall_app. split; [done|]. constructor; [|done].
    by apply entryOf_proper.
  - unfold onerror. by repeat case_match.
Qed.

Lemma widget_invariant_reachable s : reachable s -> invariant s.
Proof.
  induction 1 as [sup pick Hpick|s e _ IH He].
  - split; [done|]. split; [simpl; lia|]. split; [done|].
    split; [by constructor|]. split; [by left | done].
  - by apply widget_invariant_step.
Qed.

Lemma widget_reachable_run s es :
  reachable s -> allowed s es = true -> reachable (run s es).
Proof.
  revert s. induction es as [|e es IH]; intros s Hs Hall; simpl in *; [done|].
  apply andb_true_iff in Hall as [He Hall].
  apply IH; [by apply reachable_step | done].
Qed.

(** X21. Second listing (random pick): in every reachable state the
    counter is at most 6 and equals the length of the history, the
    twister is an entry of the catalog, and the entries are in shape. At
    6 the final card has its maximum, a percentage, and the only enabled
    event is a click on the new-twister button, which sets the counter to
    0, empties the history and shows the picked entry of the catalog. *)
Theorem random_pick_session_capped s :
  reachable s ->
  attempt s <= 6 /\ length (scores s) = attempt s /\
  is_Some (currentTwister s) /\
  Forall proper_entry (scores s) /\
  (attempt s = 6 ->
   (exists best, finalScore s = Some best /\ (0 <= best <= 100)%Z) /\
   forall e, enabled s e = true ->
     exists pick, e = ClickNewTwister pick /\
       attempt (step s e) = 0 /\ scores (step s e) = [] /\
       currentTwister (step s e) = SAMPLE_TWISTERS !! pick /\
       is_Some (SAMPLE_TWISTERS !! pick)).
Proof.
  intros Hs.
  destruct (widget_invariant_reachable s Hs)
    as (Hpick & Hle & Hlen & Hscores & _ & Hbusy).
  split; [done|]. split; [done|].
  split; [by apply lookup_lt_is_Some_2|]. split; [done|].
  intros Hcap. split.
  - apply Math_max_bounds.
    + apply Forall_map. eapply Forall_impl; [exact Hscores|].
      by intros e (_ & He & _).
    + intros Hnil%(f_equal length). rewrite length_map in Hnil.
      simpl in Hnil. lia.
  - intros e He.
    assert (idle s = true) as Hi.
    { unfold idle. destruct (listening s) as [seen|]; [|done].
      destruct (Hbusy seen eq_refl) as (_ & ? & _). lia. }
    destruct e as [ok|ok| |pick|t|err]; simpl in He;
      rewrite ?Hi, ?Hcap in He; simpl in He; try done.
    apply Nat.ltb_lt in He. exists pick. split; [done|].
    unfold step, currentTwister.
    destruct (widget_effect_keeps s (handle s (ClickNewTwister pick)))
      as (-> & -> & -> & _).
    repeat split. by apply lookup_lt_is_Some_2.
Qed.

Lemma random_pick_session_capped_witness :
  let s := run (initial true 1) sixAttempts in
  reachable s /\ attempt s = 6 /\ length (scores s) = 6 /\
  exists best, finalScore s = Some best /\ (0 <= best <= 100)%Z.
Proof.
  assert (reachable (run (initial true 1) sixAttempts)) as Hreach.
  { apply widget_reachable_run;
      [constructor; vm_compute; lia | vm_compute; reflexivity]. }
  destruct (random_pick_session_capped _ Hreach) as (_ & Hlen & _ & _ & Hcap).
  split; [exact Hreach|]. split; [vm_compute; reflexivity|].
  split; [rewrite Hlen; vm_compute; reflexivity|].
  exact (proj1 (Hcap ltac:(vm_compute; reflexivity))).
Defined.

(** X22. Second listing: [playAudio] caches its [Audio] object and
    never replaces it; still, in every reachable state it plays the audio
    file of the twister on screen when that twister has one, and speaks
    its text in its locale otherwise (one entry of the catalog only has
    audio), and it changes neither twister, counter nor history. *)
Theorem hear_native_plays_current_twister s :
  reachable s ->
  exists tw, currentTwister s = Some tw /\
    (playAudio s).2 =
      Some (match tw_audio tw with
            | Some src => Play src
            | None => Speak (tw_text tw) (tw_locale tw)
            end) /\
    currentTwister (step s ClickHearNative) = Some tw /\
    attempt (step s ClickHearNative) = attempt s /\
    scores (step s ClickHearNative) = scores s.
Proof.
  intros Hs.
  destruct (widget_invariant_reachable s Hs) as (Hpick & _ & _ & _ & Haudio & _).
  destruct (lookup_lt_is_Some_2 SAMPLE_TWISTERS (picked s) Hpick) as [tw Htw].
  exists tw. split; [done|].
  assert ((playAudio s).2 =
            Some (match tw_audio tw with
                  | Some src => Play src
                  | None => Speak (tw_text tw) (tw_locale tw)
                  end) /\
          picked (playAudio s).1 = picked s /\
          attempt (playAudio s).1 = attempt s /\
          scores (playAudio s).1 = scores s) as (Hsound & Hp & Ha & Hsc).
  { unfold playAudio, currentTwister. rewrite Htw.
    apply list_elem_of_lookup_2 in Htw. unfold SAMPLE_TWISTERS in Htw.
    repeat (apply elem_of_cons in Htw as [->|Htw]);
      try (destruct Haudio as [Hnone|Hsome]; [rewrite Hnone | rewrite Hsome];
           simpl; done).
    inversion Htw. }
  split; [done|]. unfold step, currentTwister.
  destruct (widget_effect_keeps s (handle s ClickHearNative)) as (-> & -> & -> & _).
  cbn [handle]. by rewrite Hp, Ha, Hsc.
Qed.

Lemma hear_native_plays_current_twister_witness :
  let s := run (initial true 4)
             [ClickWarmUp true; OnResult (js "si shi si"); ClickHearNative;
              ClickNewTwister 1; ClickWarmUp true; OnResult (js "she sells");
              ClickHearNative] in
  reachable s /\
  audioRef s = Some "/audio/zh-001.mp3"%string /\
  (playAudio s).2 =
    Some (Speak (js "She sells seashells by the seashore.") "en-US"%string).
Proof.
  assert (reachable (run (initial true 4)
             [ClickWarmUp true; OnResult (js "si shi si"); ClickHearNative;
              ClickNewTwister 1; ClickWarmUp true; OnResult (js "she sells");
              ClickHearNative])) as Hreach.
  { apply widget_reachable_run;
      [constructor; vm_compute; lia | vm_compute; reflexivity]. }
  destruct (hear_native_plays_current_twister _ Hreach) as (tw & Htw & Hsound & _).
  split; [exact Hreach|]. split; [vm_compute; reflexivity|].
  rewrite Hsound. vm_compute in Htw. injection Htw as <-. reflexivity.
Defined.

End RandomPickWidgetSession.
